(** * Chord DHT with tunable consistency: vector clocks, storage, routing,
      quorum reads and message dispatch.

    A shallow embedding of the Python sources
      - consistency/vector_clock.py   (Module VC)
      - chord/storage.py              (Modules Storage, StorageOps)
      - main.py, the replica handlers (Modules Runtime, RuntimeOps)
      - chord/routing.py              (Modules Routing, RoutingOps)
      - consistency/quorum.py and
        consistency/replication.py    (Modules Quorum, QuorumOps)
      - communication/network.py      (Modules Network, Framing)
      - chord/node.py, recovery       (Module Recovery)
    followed by the properties proved about them.

    Modelling conventions.
      - A Python [dict] with integer keys is a [gmap Z _], with string keys a
        [gmap string _]; a dict that crosses the wire as a JSON object is an
        association list in insertion order.
      - Python integers are [Z]; vector-clock counters are [nat] (they start at
        zero and only grow by [+ 1] and [max]).
      - Methods that mutate [self] return the new object.  No method modelled
        here mutates a [VectorClock] that is already stored: every path copies
        before it increments, so values can stand for objects.
      - Writing a file can raise.  A storage carries the file system of its
        directory as the function [write_error]; a method that writes gives
        the storage it leaves together with the exception it ends with, if
        any, and a loop over such calls stops at the first exception. *)

From Stdlib Require Import ZArith Lia DecimalString DecimalZ DecimalPos.
From stdpp Require Import base gmap strings list fin_maps sorting.

Local Open Scope Z_scope.
Local Open Scope nat_scope.

(** ** JSON payloads (the [Any] of message data and stored values) *)

Local Set Warnings "-register-all".

Inductive JSON : Type :=
  | JNull
  | JBool (b : bool)
  | JInt (z : Z)
  | JStr (s : string)
  | JList (l : list JSON)
  | JObject (o : list (string * JSON)).

(** [d[k]] on a JSON object held as an association list. *)
Fixpoint dict_get (d : list (string * JSON)) (k : string) : option JSON :=
  match d with
  | [] => None
  | (k', v) :: rest => if decide (k' = k) then Some v else dict_get rest k
  end.

(** Python's [str(k)] on an integer: decimal digits, a leading [-] when
    negative. *)
Definition py_str (k : Z) : string := NilZero.string_of_int (Z.to_int k).

(** Python's [int(s)] on a string, for an optional [-] followed by decimal
    digits; [None] stands for [ValueError].  (Surrounding blanks, a leading
    [+] and digit-group underscores, which [int] also accepts, are not
    covered: [str] never produces them.) *)
Definition py_int (s : string) : option Z :=
  Z.of_int <$> NilZero.int_of_string s.

(** ** consistency/vector_clock.py *)

Module VC.

Record VectorClock : Type := mkVC { clock : gmap Z nat }.

(** [VectorClock()] *)
Definition empty : VectorClock := mkVC ∅.

(** [self.clock.get(node_id, 0)] *)
Definition get (self : VectorClock) (node_id : Z) : nat :=
  default 0 (clock self !! node_id).

(** [increment]: [self.clock[node_id] = self.clock.get(node_id, 0) + 1] *)
Definition increment (self : VectorClock) (node_id : Z) : VectorClock :=
  mkVC (<[node_id := get self node_id + 1]> (clock self)).

(** One iteration of the loop of [update]. *)
Definition update_step (self : gmap Z nat) (item : Z * nat) : gmap Z nat :=
  <[item.1 := Nat.max (default 0 (self !! item.1)) item.2]> self.

(** [update]: for every item of [other.clock], keep the larger counter. *)
Definition update (self other : VectorClock) : VectorClock :=
  mkVC (foldl update_step (clock self) (map_to_list (clock other))).

(** [merge]: [update] then [increment]. *)
Definition merge (self other : VectorClock) (node_id : Z) : VectorClock :=
  increment (update self other) node_id.

(** [copy]: a fresh object with the same entries. *)
Definition copy (self : VectorClock) : VectorClock := mkVC (clock self).

(** [set(self.clock.keys()) | set(other.clock.keys())], in some order. *)
Definition all_nodes (self other : VectorClock) : list Z :=
  elements (dom (clock self) ∪ dom (clock other)).

(** The loop of [happens_before], threading its two flags; [break] leaves
    the loop with [all_less_or_equal = False]. *)
Fixpoint happens_before_loop (self other : VectorClock) (nodes : list Z)
    (all_less_or_equal at_least_one_less : bool) : bool * bool :=
  match nodes with
  | [] => (all_less_or_equal, at_least_one_less)
  | node_id :: rest =>
      let self_val := get self node_id in
      let other_val := get other node_id in
      if other_val <? self_val then (false, at_least_one_less)
      else if self_val <? other_val then
        happens_before_loop self other rest all_less_or_equal true
      else
        happens_before_loop self other rest all_less_or_equal at_least_one_less
  end.

Definition happens_before (self other : VectorClock) : bool :=
  let '(all_less_or_equal, at_least_one_less) :=
    happens_before_loop self other (all_nodes self other) true false in
  all_less_or_equal && at_least_one_less.

Definition concurrent_with (self other : VectorClock) : bool :=
  negb (happens_before self other) && negb (happens_before other self).

(** The loop of [dominates]: [return False] at the first smaller entry. *)
Fixpoint dominates_loop (self other : VectorClock) (nodes : list Z) : bool :=
  match nodes with
  | [] => true
  | node_id :: rest =>
      if get self node_id <? get other node_id then false
      else dominates_loop self other rest
  end.

Definition dominates (self other : VectorClock) : bool :=
  dominates_loop self other (all_nodes self other).

(** The loop of [__eq__]: [return False] at the first differing entry. *)
Fixpoint eq_loop (self other : VectorClock) (nodes : list Z) : bool :=
  match nodes with
  | [] => true
  | node_id :: rest =>
      if negb (get self node_id =? get other node_id) then false
      else eq_loop self other rest
  end.

(** [__eq__] between two vector clocks. *)
Definition vc_eq (self other : VectorClock) : bool :=
  eq_loop self other (all_nodes self other).

(** [__lt__], [__le__], [__gt__], [__ge__] *)
Definition vc_lt (self other : VectorClock) : bool := happens_before self other.
Definition vc_le (self other : VectorClock) : bool :=
  happens_before self other || vc_eq self other.
Definition vc_gt (self other : VectorClock) : bool := happens_before other self.
Definition vc_ge (self other : VectorClock) : bool :=
  happens_before other self || vc_eq self other.

(** [to_dict]: [{str(k): v for k, v in self.clock.items()}] *)
Definition to_dict (self : VectorClock) : list (string * JSON) :=
  (λ item : Z * nat, (py_str item.1, JInt (Z.of_nat item.2)))
    <$> map_to_list (clock self).

(** A counter read back from JSON.  The clocks of the model count in natural
    numbers, which is what [to_dict] writes; Python takes any value here. *)
Definition counter_of_json (v : JSON) : option nat :=
  match v with
  | JInt z => if decide (0 ≤ z)%Z then Some (Z.to_nat z) else None
  | _ => None
  end.

(** One item of the comprehension [{int(k): v for k, v in data.items()}];
    [None] when [int(k)] raises or [v] is no counter. *)
Definition from_dict_step (acc : option (gmap Z nat)) (item : string * JSON)
    : option (gmap Z nat) :=
  normalized ← acc;
  k ← py_int item.1;
  v ← counter_of_json item.2;
  Some (<[k := v]> normalized).

(** [from_dict]; the constructor's second [int(k)] pass is the identity on
    integer keys. *)
Definition from_dict (data : list (string * JSON)) : option VectorClock :=
  mkVC <$> foldl from_dict_step (Some ∅) data.

(** [compare_versions] *)
Inductive Comparison : Type := V1_eq_V2 | V1_lt_V2 | V1_gt_V2 | Concurrent.

Definition compare_versions (v1 v2 : VectorClock) : Comparison :=
  if vc_eq v1 v2 then V1_eq_V2
  else if happens_before v1 v2 then V1_lt_V2
  else if happens_before v2 v1 then V1_gt_V2
  else Concurrent.

(** The inner loop of [get_latest_version]: is [v] strictly below some
    element of [others]?  [continue] and a plain fall-through both go on to
    the next element, [break] stops with [is_dominated = True]. *)
Fixpoint is_dominated_loop (v : VectorClock) (others : list VectorClock) : bool :=
  match others with
  | [] => false
  | other :: rest =>
      if happens_before other v then is_dominated_loop v rest
      else if happens_before v other then true
      else is_dominated_loop v rest
  end.

(** The outer loop: [candidates.append(v)] for every [v] not dominated. *)
Fixpoint candidates_loop (versions todo : list VectorClock) : list VectorClock :=
  match todo with
  | [] => []
  | v :: rest =>
      if is_dominated_loop v versions then candidates_loop versions rest
      else v :: candidates_loop versions rest
  end.

Definition get_latest_version (versions : list VectorClock) : option VectorClock :=
  match versions with
  | [] => None
  | [v] => Some v
  | _ =>
      match candidates_loop versions versions with
      | [c] => Some c
      | _ => None
      end
  end.

End VC.

(** ** Exceptions *)

Inductive Exn : Type :=
  | KeyError (key : string)
  | AttributeError (attribute : string)
  | ValueError (literal : string)
  | TypeError
  | OSError (text : string).

(** [str(e)], up to the wording of the interpreter's messages. *)
Definition exn_text (e : Exn) : string :=
  match e with
  | KeyError key => "'" +:+ key +:+ "'"
  | AttributeError attribute => "object has no attribute '" +:+ attribute +:+ "'"
  | ValueError literal => "invalid literal for int() with base 10: '" +:+ literal +:+ "'"
  | TypeError => "unsupported operand or key type"
  | OSError text => text
  end.

Inductive Result (A : Type) : Type :=
  | Ok (a : A)
  | Raise (e : Exn).
Arguments Ok {A} a.
Arguments Raise {A} e.

Definition result_bind {A B : Type} (r : Result A) (f : A → Result B) : Result B :=
  match r with
  | Ok a => f a
  | Raise e => Raise e
  end.

Notation "'try!' x ← r ; k" := (result_bind r (λ x, k))
  (at level 20, x name, r at level 100, k at level 200, only parsing).

(** ** chord/storage.py *)

Module Storage.
Import VC.

(** What [_save_primary] and [_save_backup] write: one file per key, holding
    key, value, serialised version and role. *)
Inductive DiskWrite : Type :=
  | PrimaryFile (key : string) (value : JSON) (version : list (string * JSON))
  | BackupFile (key : string) (value : JSON) (version : list (string * JSON))
      (primary_node_id : Z).

(** The last field stands for the file system under [base_dir]: whether
    creating and writing a file there goes through ([None]) or ends with an
    exception, as [open] does for a key that names no file in the directory. *)
Record ChordStorage : Type := mkStorage {
  node_id : Z;
  enable_persistence : bool;
  primary_store : gmap string (JSON * VectorClock);
  backup_store : gmap Z (gmap string (JSON * VectorClock));
  disk : list DiskWrite;  (* file writes so far, oldest first *)
  write_error : DiskWrite → option Exn
}.

(** A file system on which every write goes through. *)
Definition writable : DiskWrite → option Exn := λ _, None.

(** A file system on which the files of one key cannot be created: [open]
    raises [FileNotFoundError], an [OSError]. *)
Definition refuses (key : string) : DiskWrite → option Exn :=
  λ file,
    let key' := match file with
                | PrimaryFile key' _ _ => key'
                | BackupFile key' _ _ _ => key'
                end in
    if decide (key' = key) then Some (OSError "No such file or directory")
    else None.

(** [ChordStorage(node_id, base_dir, enable_persistence)], once the
    constructor has returned. *)
Definition init (node_id : Z) (base_dir : DiskWrite → option Exn)
    (enable_persistence : bool) : ChordStorage :=
  mkStorage node_id enable_persistence ∅ ∅ [] base_dir.

(** The legacy attribute [store] is the same dict object as [primary_store]. *)
Definition store (self : ChordStorage) : gmap string (JSON * VectorClock) :=
  primary_store self.

Definition set_primary_store (self : ChordStorage)
    (p : gmap string (JSON * VectorClock)) : ChordStorage :=
  mkStorage (node_id self) (enable_persistence self) p (backup_store self)
    (disk self) (write_error self).

Definition set_backup_store (self : ChordStorage)
    (b : gmap Z (gmap string (JSON * VectorClock))) : ChordStorage :=
  mkStorage (node_id self) (enable_persistence self) (primary_store self) b
    (disk self) (write_error self).

Definition write_file (self : ChordStorage) (w : DiskWrite) : ChordStorage :=
  mkStorage (node_id self) (enable_persistence self) (primary_store self)
    (backup_store self) (disk self ++ [w]) (write_error self).

(** A method that changes the object and then writes a file can raise with
    the change made.  Such a method is given by the storage it leaves, which
    is the same whether it returns or raises, and by the exception it ends
    with, if any. *)

(** [_save_primary(key, value, version)]: the storage after the call and the
    exception it ends with.  A write that raises leaves no complete file and
    is not listed in [disk]. *)
Definition _save_primary (self : ChordStorage) (key : string) (value : JSON)
    (version : VectorClock) : ChordStorage * option Exn :=
  if enable_persistence self then
    let file := PrimaryFile key value (to_dict version) in
    match write_error self file with
    | None => (write_file self file, None)
    | Some e => (self, Some e)
    end
  else (self, None).

(** [_save_backup(key, value, version, for_node_id)], likewise; the file
    stands for the bucket's directory as well, which is made first. *)
Definition _save_backup (self : ChordStorage) (key : string) (value : JSON)
    (version : VectorClock) (for_node_id : Z) : ChordStorage * option Exn :=
  if enable_persistence self then
    let file := BackupFile key value (to_dict version) for_node_id in
    match write_error self file with
    | None => (write_file self file, None)
    | Some e => (self, Some e)
    end
  else (self, None).

(** The version that [put(key, value, version)] files the value under: the
    given one, else the stored one (empty if there is none) incremented at
    this node. *)
Definition put_version (self : ChordStorage) (key : string)
    (version : option VectorClock) : VectorClock :=
  match version with
  | Some version => version
  | None =>
      match primary_store self !! key with
      | Some (_, old_version) =>
          increment (mkVC (clock old_version)) (node_id self)
      | None => increment VC.empty (node_id self)
      end
  end.

(** [put(key, value, version=None)]: the storage after the call and the
    version it filed the value under, which is the version it returns unless
    the file write raises. *)
Definition put (self : ChordStorage) (key : string) (value : JSON)
    (version : option VectorClock) : ChordStorage * VectorClock :=
  let version := put_version self key version in
  let self := set_primary_store self (<[key := (value, version)]> (primary_store self)) in
  let self := if enable_persistence self
              then (_save_primary self key value version).1
              else self in
  (self, version).

(** The exception that the same call of [put] ends with instead of
    returning, if any. *)
Definition put_raises (self : ChordStorage) (key : string) (value : JSON)
    (version : option VectorClock) : option Exn :=
  let version := put_version self key version in
  let self := set_primary_store self (<[key := (value, version)]> (primary_store self)) in
  if enable_persistence self
  then (_save_primary self key value version).2
  else None.

(** The primary file of a key can be written, whatever it is to hold, or
    nothing is written at all. *)
Definition primary_writable (self : ChordStorage) (key : string) : Prop :=
  enable_persistence self = false
  ∨ ∀ value version, write_error self (PrimaryFile key value version) = None.

(** What the call [put(key, value, version)] gives its caller. *)
Definition put_result (self : ChordStorage) (key : string) (value : JSON)
    (version : option VectorClock) : Result VectorClock :=
  match put_raises self key value version with
  | Some e => Raise e
  | None => Ok (put self key value version).2
  end.

(** The part of [put_backup] before the file write: the bucket is made if it
    is missing, then the entry is stored. *)
Definition store_backup (self : ChordStorage) (key : string) (value : JSON)
    (version : VectorClock) (for_node_id : Z) : ChordStorage :=
  let self :=
    match backup_store self !! for_node_id with
    | None => set_backup_store self (<[for_node_id := ∅]> (backup_store self))
    | Some _ => self
    end in
  set_backup_store self
    (alter (λ bucket, <[key := (value, version)]> bucket) for_node_id
       (backup_store self)).

(** [put_backup(key, value, version, for_node_id)]: the storage after the
    call and the version, which it returns unless the file write raises. *)
Definition put_backup (self : ChordStorage) (key : string) (value : JSON)
    (version : VectorClock) (for_node_id : Z) : ChordStorage * VectorClock :=
  let self := store_backup self key value version for_node_id in
  let self := if enable_persistence self
              then (_save_backup self key value version for_node_id).1
              else self in
  (self, version).

(** The exception that the same call of [put_backup] ends with instead of
    returning, if any. *)
Definition put_backup_raises (self : ChordStorage) (key : string)
    (value : JSON) (version : VectorClock) (for_node_id : Z) : option Exn :=
  let self := store_backup self key value version for_node_id in
  if enable_persistence self
  then (_save_backup self key value version for_node_id).2
  else None.

(** The backup file of a key in a bucket can be written, or nothing is
    written at all. *)
Definition backup_writable (self : ChordStorage) (key : string)
    (for_node_id : Z) : Prop :=
  enable_persistence self = false
  ∨ ∀ value version,
      write_error self (BackupFile key value version for_node_id) = None.

(** [get_backup(key, for_node_id)] *)
Definition get_backup (self : ChordStorage) (key : string) (for_node_id : Z)
    : option (JSON * VectorClock) :=
  match backup_store self !! for_node_id with
  | Some bucket => bucket !! key
  | None => None
  end.

(** [get(key)] *)
Definition get (self : ChordStorage) (key : string) : option (JSON * VectorClock) :=
  primary_store self !! key.

(** [get_version(key)] *)
Definition get_version (self : ChordStorage) (key : string) : option VectorClock :=
  snd <$> primary_store self !! key.

(** [get_all_backups_for_node(for_node_id)] *)
Definition get_all_backups_for_node (self : ChordStorage) (for_node_id : Z)
    : gmap string (JSON * VectorClock) :=
  default ∅ (backup_store self !! for_node_id).

(** The body of the loop of [transfer_backups_to_primary]: the storage after
    it and the exception that its file write raised, if any. *)
Definition promote_step (self : ChordStorage)
    (item : string * (JSON * VectorClock)) : ChordStorage * option Exn :=
  let key := item.1 in
  let value := item.2.1 in
  let version := item.2.2 in
  match primary_store self !! key with
  | None =>
      let self := set_primary_store self
                    (<[key := (value, version)]> (primary_store self)) in
      if enable_persistence self then _save_primary self key value version
      else (self, None)
  | Some (_, current_version) =>
      if vc_gt version current_version then
        let self := set_primary_store self
                      (<[key := (value, version)]> (primary_store self)) in
        if enable_persistence self then _save_primary self key value version
        else (self, None)
      else (self, None)
  end.

(** The loop of [transfer_backups_to_primary] over the items of the bucket:
    an exception ends it where it is raised. *)
Fixpoint promote_loop (self : ChordStorage)
    (items : list (string * (JSON * VectorClock))) : ChordStorage * option Exn :=
  match items with
  | [] => (self, None)
  | item :: rest =>
      match promote_step self item with
      | (self, None) => promote_loop self rest
      | (self, Some e) => (self, Some e)
      end
  end.

(** [transfer_backups_to_primary(for_node_id)]: the storage after the call
    and the exception it ends with, if any.  The bucket is deleted after the
    loop, so not at all when the loop raises.  The items are taken in the
    order in which the model enumerates the bucket. *)
Definition transfer_backups_to_primary (self : ChordStorage) (for_node_id : Z)
    : ChordStorage * option Exn :=
  match backup_store self !! for_node_id with
  | Some bucket =>
      match promote_loop self (map_to_list bucket) with
      | (self, None) =>
          (set_backup_store self (delete for_node_id (backup_store self)), None)
      | (self, Some e) => (self, Some e)
      end
  | None => (self, None)
  end.

End Storage.

(** ** communication/message.py *)

Module Message.

Inductive MessageType : Type :=
  | FIND_SUCCESSOR | FIND_SUCCESSOR_REPLY
  | GET_PREDECESSOR | GET_PREDECESSOR_REPLY
  | GET_SUCCESSOR_LIST | GET_SUCCESSOR_LIST_REPLY
  | NOTIFY | NOTIFY_ACK | STABILIZE
  | PUT | PUT_REPLY | GET | GET_REPLY | DELETE | DELETE_REPLY
  | PUT_REPLICA | PUT_REPLICA_ACK | PUT_REPLICA_REPLY
  | GET_REPLICA | GET_REPLICA_REPLY
  | JOIN | LEAVE | PING | PONG
  | BROADCAST_JOIN | BROADCAST_JOIN_ACK
  | TRANSFER_KEYS_REQUEST | TRANSFER_KEYS_RESPONSE
  | GET_ALL_NODES | GET_ALL_NODES_REPLY
  | RECOVER_HANDOFF | RECOVER_HANDOFF_REPLY
  | UPDATE_BACKUP | UPDATE_BACKUP_ACK
  | GET_ALL_KEYS | GET_ALL_KEYS_REPLY
  | GET_RING_INFO | GET_RING_INFO_REPLY
  | ERROR.

(** The enum member's [.value]. *)
Definition value (t : MessageType) : string :=
  match t with
  | FIND_SUCCESSOR => "find_successor"
  | FIND_SUCCESSOR_REPLY => "find_successor_reply"
  | GET_PREDECESSOR => "get_predecessor"
  | GET_PREDECESSOR_REPLY => "get_predecessor_reply"
  | GET_SUCCESSOR_LIST => "get_successor_list"
  | GET_SUCCESSOR_LIST_REPLY => "get_successor_list_reply"
  | NOTIFY => "notify"
  | NOTIFY_ACK => "notify_ack"
  | STABILIZE => "stabilize"
  | PUT => "put"
  | PUT_REPLY => "put_reply"
  | GET => "get"
  | GET_REPLY => "get_reply"
  | DELETE => "delete"
  | DELETE_REPLY => "delete_reply"
  | PUT_REPLICA => "put_replica"
  | PUT_REPLICA_ACK => "put_replica_ack"
  | PUT_REPLICA_REPLY => "put_replica_reply"
  | GET_REPLICA => "get_replica"
  | GET_REPLICA_REPLY => "get_replica_reply"
  | JOIN => "join"
  | LEAVE => "leave"
  | PING => "ping"
  | PONG => "pong"
  | BROADCAST_JOIN => "broadcast_join"
  | BROADCAST_JOIN_ACK => "broadcast_join_ack"
  | TRANSFER_KEYS_REQUEST => "transfer_keys_request"
  | TRANSFER_KEYS_RESPONSE => "transfer_keys_response"
  | GET_ALL_NODES => "get_all_nodes"
  | GET_ALL_NODES_REPLY => "get_all_nodes_reply"
  | RECOVER_HANDOFF => "recover_handoff"
  | RECOVER_HANDOFF_REPLY => "recover_handoff_reply"
  | UPDATE_BACKUP => "update_backup"
  | UPDATE_BACKUP_ACK => "update_backup_ack"
  | GET_ALL_KEYS => "get_all_keys"
  | GET_ALL_KEYS_REPLY => "get_all_keys_reply"
  | GET_RING_INFO => "get_ring_info"
  | GET_RING_INFO_REPLY => "get_ring_info_reply"
  | ERROR => "error"
  end.

(** Enum members are compared by identity; their values are pairwise
    different, so comparing values decides it. *)
Definition same_type (a b : MessageType) : bool :=
  bool_decide (value a = value b).

Record Message : Type := mkMessage {
  msg_type : MessageType;
  sender_id : Z;
  sender_address : string;
  msg_id : string;
  data : list (string * JSON)
}.

Definition create_reply_msg (sender_id : Z) (sender_addr : string)
    (msg_type : MessageType) (data : list (string * JSON)) (msg_id : string)
    : Message :=
  mkMessage msg_type sender_id sender_addr msg_id data.

Definition create_error_msg (sender_id : Z) (sender_addr : string)
    (error : string) (msg_id : string) : Message :=
  mkMessage ERROR sender_id sender_addr msg_id [("error", JStr error)].

End Message.

(** ** main.py: the PUT_REPLICA handler *)

Module Runtime.
Import VC Storage Message.

(** The attributes of [ChordNode] that the handler reads. *)
Record ChordNode : Type := mkNode {
  node_id : Z;
  address : string;
  storage : ChordStorage
}.

(** [msg.data[k]] *)
Definition item (d : list (string * JSON)) (k : string) : Result JSON :=
  match dict_get d k with
  | Some v => Ok v
  | None => Raise (KeyError k)
  end.

(** [hash_key(key, m)] starts with [key.encode()], which only a string has;
    the hash itself is not used by the handler. *)
Definition encodable (key : JSON) : Result string :=
  match key with
  | JStr s => Ok s
  | _ => Raise (AttributeError "encode")
  end.

(** [VectorClock.from_dict(version_dict)] on a JSON value: [.items()] needs a
    JSON object, every key must parse as an integer. *)
Definition version_of_json (version_dict : JSON) : Result VectorClock :=
  match version_dict with
  | JObject o =>
      match from_dict o with
      | Some v => Ok v
      | None => Raise (ValueError "")
      end
  | _ => Raise (AttributeError "items")
  end.

(** The bucket key.  The backup store of the model has integer node ids for
    keys, which is what the senders put there; Python files under any
    hashable value. *)
Definition bucket_id (primary_node_id : JSON) : Result Z :=
  match primary_node_id with
  | JInt z => Ok z
  | _ => Raise TypeError
  end.

(** The [try] block of [handle_put_replica] up to its call of [put_backup]:
    the key, the value, the version to store and the bucket. *)
Definition put_replica_try (node : ChordNode) (msg : Message)
    : Result (string * JSON * VectorClock * Z) :=
  try! key ← item (data msg) "key";
  try! value ← item (data msg) "value";
  try! version_dict ← item (data msg) "version";
  try! key ← encodable key;
  let primary_node_id :=
    default (JInt (sender_id msg)) (dict_get (data msg) "primary_node_id") in
  try! incoming_version ← version_of_json version_dict;
  try! primary_node_id ← bucket_id primary_node_id;
  let existing_backup := get_backup (storage node) key primary_node_id in
  let version :=
    match existing_backup with
    | Some (_, existing_version) =>
        increment (update (copy existing_version) incoming_version) (node_id node)
    | None => increment (copy incoming_version) (node_id node)
    end in
  Ok (key, value, version, primary_node_id).

(** [handle_put_replica(msg)]: the node after the call and the reply.  When
    the file write of [put_backup] raises, the backup is held in memory all
    the same and the reply reports the error. *)
Definition handle_put_replica (node : ChordNode) (msg : Message)
    : ChordNode * Message :=
  match put_replica_try node msg with
  | Ok (key, value, version, primary_node_id) =>
      let storage' :=
        (put_backup (storage node) key value version primary_node_id).1 in
      let node' := mkNode (node_id node) (address node) storage' in
      match put_backup_raises (storage node) key value version primary_node_id with
      | None =>
          (node',
           create_reply_msg (node_id node) (address node) PUT_REPLICA_REPLY
             [("status", JStr "ok"); ("version", JObject (to_dict version))]
             (msg_id msg))
      | Some e =>
          (node',
           create_reply_msg (node_id node) (address node) PUT_REPLICA_REPLY
             [("status", JStr "error"); ("error", JStr (exn_text e))]
             (msg_id msg))
      end
  | Raise e =>
      (node,
       create_reply_msg (node_id node) (address node) PUT_REPLICA_REPLY
         [("status", JStr "error"); ("error", JStr (exn_text e))]
         (msg_id msg))
  end.

(** The PUT_REPLICA request that [_send_put_replica] builds. *)
Definition put_replica_msg (sender : Z) (sender_addr msg_id key : string)
    (value : JSON) (version : VectorClock) (primary_node_id : Z) : Message :=
  mkMessage PUT_REPLICA sender sender_addr msg_id
    [("key", JStr key); ("value", value); ("version", JObject (to_dict version));
     ("primary_node_id", JInt primary_node_id)].

End Runtime.

(** ** chord/routing.py *)

Module Routing.

Record NodeInfo : Type := mkNodeInfo { node_id : Z; address : string }.

(** [NodeInfo.__eq__]: equality is on [node_id] alone. *)
Definition node_eq (self other : NodeInfo) : bool :=
  bool_decide (node_id self = node_id other).

Record FingerTable : Type := mkFingerTable {
  self_id : Z;                       (* the attribute [node_id] *)
  m : nat;
  fingers : list (option NodeInfo);
  all_nodes : list NodeInfo          (* every known node, sorted by id *)
}.

(** The invariant of [all_nodes] kept by [set_all_nodes], [add_node] and
    [remove_node]: sorted by node id, no id twice. *)
Definition sorted_by_id (nodes : list NodeInfo) : Prop :=
  StronglySorted (λ x y, (node_id x < node_id y)%Z) nodes.

(** The attribute [max_id = 2 ** m]. *)
Definition max_id (self : FingerTable) : Z := (2 ^ Z.of_nat (m self))%Z.

(** The [for] loop of [find_successor_from_all]: the first node with
    [node.node_id >= identifier], if the loop returns at all. *)
Fixpoint first_at_or_after (nodes : list NodeInfo) (identifier : Z)
    : option NodeInfo :=
  match nodes with
  | [] => None
  | node :: rest =>
      if (identifier <=? node_id node)%Z then Some node
      else first_at_or_after rest identifier
  end.

Definition find_successor_from_all (self : FingerTable) (identifier : Z)
    : option NodeInfo :=
  match all_nodes self with
  | [] => None
  | first :: _ =>
      match first_at_or_after (all_nodes self) identifier with
      | Some node => Some node
      | None => Some first
      end
  end.

(** [list.index(x)]: the first position holding an element equal to [x]
    under [__eq__]; [None] stands for [ValueError]. *)
Fixpoint index (nodes : list NodeInfo) (x : NodeInfo) : option nat :=
  match nodes with
  | [] => None
  | node :: rest =>
      if node_eq node x then Some 0 else S <$> index rest x
  end.

(** The final loop of [get_n_successors]; [None] stands for an [IndexError]
    on [self.all_nodes[idx]]. *)
Definition walk (nodes : list NodeInfo) (start_idx count : nat)
    : option (list NodeInfo) :=
  mapM (λ i, nodes !! ((start_idx + i) mod length nodes)) (seq 0 count).

(** [get_n_successors(identifier, n)] *)
Definition get_n_successors (self : FingerTable) (identifier n : Z)
    : option (list NodeInfo) :=
  if bool_decide (all_nodes self = []) || (n <=? 0)%Z then Some []
  else
    match find_successor_from_all self identifier with
    | None => Some []
    | Some responsible =>
        match index (all_nodes self) responsible with
        | None => Some [responsible]
        | Some start_idx =>
            let num_nodes := length (all_nodes self) in
            walk (all_nodes self) start_idx
              (Z.to_nat (Z.min n (Z.of_nat num_nodes)))
        end
    end.

End Routing.

(** ** consistency/replication.py and consistency/quorum.py *)

Module Quorum.
Import VC Routing.

Record QuorumManager : Type := mkQuorum {
  node_id : Z;
  n_replicas : Z;
  read_quorum : Z;
  write_quorum : Z;
  enable_read_repair : bool
}.

(** One entry of the list returned by [replicate_get]. *)
Definition Read : Type := NodeInfo * JSON * VectorClock.

(** What awaiting [replicate_get] under [wait_for] can yield. *)
Inductive Gathered : Type :=
  | TimedOut
  | Reads (reads : list Read).

(** The arguments of the [repair_replicas] task that [quorum_get] spawns. *)
Record Repair : Type := mkRepair {
  repair_key : string;
  latest_value : option JSON;
  latest_version : VectorClock;
  stale_replicas : list NodeInfo
}.

(** [repair_replicas]: one PUT_REPLICA per stale replica, each carrying the
    latest value and version. *)
Definition repair_replicas (r : Repair)
    : list (NodeInfo * (string * option JSON * VectorClock)) :=
  (λ replica, (replica, (repair_key r, latest_value r, latest_version r)))
    <$> stale_replicas r.

(** The loop of [quorum_get] over the reads: the value of the last read whose
    version equals the latest one, and the nodes of all the others. *)
Fixpoint classify (reads : list Read) (latest : VectorClock)
    (value : option JSON) (stale : list NodeInfo)
    : option JSON * list NodeInfo :=
  match reads with
  | [] => (value, stale)
  | (node, v, version) :: rest =>
      if vc_eq version latest then classify rest latest (Some v) stale
      else classify rest latest value (stale ++ [node])
  end.

Inductive GetOutcome : Type :=
  | NoQuorum                            (* [return None] *)
  | IndexError                          (* [versions[0]] on an empty list *)
  | Got (value : option JSON) (version : VectorClock) (repair : option Repair).

(** [quorum_get(key, replicas)], given what the replicas answered. *)
Definition quorum_get (self : QuorumManager) (key : string)
    (replicas : list NodeInfo) (gathered : Gathered) : GetOutcome :=
  match replicas with
  | [] => NoQuorum
  | _ =>
      match gathered with
      | TimedOut => NoQuorum
      | Reads reads =>
          let num_reads := Z.of_nat (length reads) in
          if (num_reads <? read_quorum self)%Z then NoQuorum
          else
            let versions := (λ r : Read, r.2) <$> reads in
            let latest :=
              match get_latest_version versions with
              | Some v => Some v
              | None => head versions
              end in
            match latest with
            | None => IndexError
            | Some latest_version =>
                let '(latest_value, stale) :=
                  classify reads latest_version None [] in
                let repair :=
                  if enable_read_repair self && negb (bool_decide (stale = []))
                  then Some (mkRepair key latest_value latest_version stale)
                  else None in
                Got latest_value latest_version repair
            end
      end
  end.

End Quorum.

(** ** communication/network.py *)

Module Network.
Import Message.

Section Dispatch.

(** The state the registered handlers close over and may change. *)
Context {World : Type}.

(** What awaiting a handler does: it returns a response (possibly [None]) or
    raises an [Exception] whose [str] is the given text. *)
Inductive Outcome : Type :=
  | Returned (response : option Message)
  | Raised (error : string).

Definition Handler : Type := World → Message → World * Outcome.

Record NetworkManager : Type := mkNetwork {
  node_id : Z;
  address : string;
  handlers : list (MessageType * Handler);  (* latest registration first *)
  pending : gmap string unit;               (* msg_id -> awaited future *)
  resolved : list (string * Message)        (* futures given their result *)
}.

(** [self.handlers[msg_type] = handler] *)
Definition register_handler (self : NetworkManager) (t : MessageType)
    (handler : Handler) : NetworkManager :=
  mkNetwork (node_id self) (address self) ((t, handler) :: handlers self)
    (pending self) (resolved self).

(** [self.handlers.get(msg_type)] *)
Fixpoint handlers_get (hs : list (MessageType * Handler)) (t : MessageType)
    : option Handler :=
  match hs with
  | [] => None
  | (t', h) :: rest => if same_type t' t then Some h else handlers_get rest t
  end.

(** [_dispatch_message(msg)] *)
Definition _dispatch_message (self : NetworkManager) (w : World) (msg : Message)
    : NetworkManager * World * option Message :=
  match pending self !! msg_id msg with
  | Some _ =>
      (mkNetwork (node_id self) (address self) (handlers self)
         (delete (msg_id msg) (pending self))
         (resolved self ++ [(msg_id msg, msg)]),
       w, None)
  | None =>
      match handlers_get (handlers self) (msg_type msg) with
      | Some handler =>
          match handler w msg with
          | (w', Returned response) => (self, w', response)
          | (w', Raised e) =>
              (self, w',
               Some (create_error_msg (node_id self) (address self) e (msg_id msg)))
          end
      | None => (self, w, None)
      end
  end.

End Dispatch.

Arguments Outcome : clear implicits.
Arguments Handler : clear implicits.
Arguments NetworkManager : clear implicits.

End Network.

(** ** A client that writes one key repeatedly *)

Module Client.
Import VC Storage.

(** Successive calls [put(key, v)] for the values of [vs], oldest first: the
    versions they return, or the exception of the first call that raises. *)
Fixpoint successive_puts (st : ChordStorage) (k : string) (vs : list JSON)
    : Result (list VectorClock) :=
  match vs with
  | [] => Ok []
  | v :: vs =>
      try! version ← put_result st k v None;
      try! versions ← successive_puts (put st k v None).1 k vs;
      Ok (version :: versions)
  end.

End Client.

(** ** chord/routing.py: the remaining operations *)

Module RoutingOps.
Import Routing.

(** [in_range(identifier, start, end, inclusive_start=False,
    inclusive_end=True)] of routing.py. *)
Definition in_range (identifier start end_ : Z)
    (inclusive_start inclusive_end : bool) : bool :=
  if (start =? end_)%Z then true
  else if (start <? end_)%Z then
    (if inclusive_start then (start <=? identifier)%Z else (start <? identifier)%Z)
    && (if inclusive_end then (identifier <=? end_)%Z else (identifier <? end_)%Z)
  else
    (if inclusive_start then (start <=? identifier)%Z else (start <? identifier)%Z)
    || (if inclusive_end then (identifier <=? end_)%Z else (identifier <? end_)%Z).

(** [FingerTable(node_id, m)] *)
Definition init (node_id : Z) (m : nat) : FingerTable :=
  mkFingerTable node_id m (replicate m None) [].

(** The attribute [starts]: [(node_id + 2**i) % max_id] for [i] in
    [range(m)], fixed at construction. *)
Definition starts (self : FingerTable) : list Z :=
  (λ i : nat, ((self_id self + 2 ^ Z.of_nat i) `mod` max_id self)%Z)
    <$> seq 0 (m self).

Definition set_fingers (self : FingerTable) (fingers : list (option NodeInfo))
    : FingerTable :=
  mkFingerTable (self_id self) (m self) fingers (all_nodes self).

Definition set_nodes (self : FingerTable) (nodes : list NodeInfo) : FingerTable :=
  mkFingerTable (self_id self) (m self) (fingers self) nodes.

(** In the functions below a result [None] stands for an [IndexError] on
    [self.fingers[...]]; it cannot occur while [fingers] has [m] entries. *)

(** [get_finger(index)] *)
Definition get_finger (self : FingerTable) (index : Z)
    : option (option NodeInfo) :=
  if bool_decide (0 ≤ index < Z.of_nat (m self))%Z
  then fingers self !! Z.to_nat index
  else Some None.

(** [set_finger(index, node)] *)
Definition set_finger (self : FingerTable) (index : Z) (node : NodeInfo)
    : option FingerTable :=
  if bool_decide (0 ≤ index < Z.of_nat (m self))%Z then
    if bool_decide (Z.to_nat index < length (fingers self))
    then Some (set_fingers self (<[Z.to_nat index := Some node]> (fingers self)))
    else None
  else Some self.

(** [get_start(index)] *)
Definition get_start (self : FingerTable) (index : Z) : Z :=
  if bool_decide (0 ≤ index < Z.of_nat (m self))%Z
  then default (-1)%Z (starts self !! Z.to_nat index)
  else (-1)%Z.

(** [get_successor()] *)
Definition get_successor (self : FingerTable) : option NodeInfo :=
  match fingers self with
  | [] => None
  | finger :: _ => finger
  end.

(** [set_successor(node)]; the node may be [None]. *)
Definition set_successor (self : FingerTable) (node : option NodeInfo)
    : option FingerTable :=
  match fingers self with
  | [] => None
  | _ :: rest => Some (set_fingers self (node :: rest))
  end.

(** [clear()] *)
Definition clear (self : FingerTable) : FingerTable :=
  mkFingerTable (self_id self) (m self) (replicate (m self) None) [].

(** The loop of [find_closest_preceding_finger] over the indices it visits,
    highest first. *)
Fixpoint closest_loop (self : FingerTable) (identifier : Z) (indices : list nat)
    : option (option NodeInfo) :=
  match indices with
  | [] => Some None
  | i :: rest =>
      match fingers self !! i with
      | None => None
      | Some (Some finger) =>
          if in_range (node_id finger) (self_id self) identifier false true
          then Some (Some finger)
          else closest_loop self identifier rest
      | Some None => closest_loop self identifier rest
      end
  end.

(** [find_closest_preceding_finger(identifier)] *)
Definition find_closest_preceding_finger (self : FingerTable) (identifier : Z)
    : option (option NodeInfo) :=
  closest_loop self identifier (reverse (seq 0 (m self))).

(** Sorting by [key=lambda n: n.node_id].  Python's sort is stable, and so is
    this insertion sort: an element goes in front of the first one whose id is
    not smaller. *)
Fixpoint insert_by_id (x : NodeInfo) (l : list NodeInfo) : list NodeInfo :=
  match l with
  | [] => [x]
  | y :: rest =>
      if (node_id x <=? node_id y)%Z then x :: y :: rest
      else y :: insert_by_id x rest
  end.

Definition sort_by_id (l : list NodeInfo) : list NodeInfo :=
  foldr insert_by_id [] l.

(** The [for ... else] that picks the successor from a non-empty node list:
    the first node with a larger id than ours, else the first node. *)
Definition pick_successor (self : FingerTable) (nodes : list NodeInfo)
    : option NodeInfo :=
  match list_find (λ node, (self_id self < node_id node)%Z) nodes with
  | Some (_, node) => Some node
  | None => head nodes
  end.

(** The dict comprehension [{node.node_id: node for node in nodes if node}]. *)
Definition unique_nodes (nodes : list (option NodeInfo)) : gmap Z NodeInfo :=
  foldl (λ acc node,
           match node with
           | Some n => <[node_id n := n]> acc
           | None => acc
           end) ∅ nodes.

(** [set_all_nodes(nodes)] *)
Definition set_all_nodes (self : FingerTable) (nodes : list (option NodeInfo))
    : option FingerTable :=
  let all_nodes := sort_by_id ((map_to_list (unique_nodes nodes)).*2) in
  let self := set_nodes self all_nodes in
  match all_nodes with
  | [] => Some self
  | _ => set_successor self (pick_successor self all_nodes)
  end.

(** The first loop of [add_node]: the list with the address of the first
    entry of the same id replaced, if there is such an entry. *)
Fixpoint update_address (nodes : list NodeInfo) (node : NodeInfo)
    : option (list NodeInfo) :=
  match nodes with
  | [] => None
  | existing :: rest =>
      if bool_decide (node_id existing = node_id node)
      then Some (mkNodeInfo (node_id existing) (address node) :: rest)
      else (existing ::.) <$> update_address rest node
  end.

(** [add_node(node)].  The address update changes the stored node object in
    place; fingers are kept by value here, so a finger that is that very
    object keeps its old address in this model. *)
Definition add_node (self : FingerTable) (node : NodeInfo) : option FingerTable :=
  match update_address (all_nodes self) node with
  | Some nodes => Some (set_nodes self nodes)
  | None =>
      let self := set_nodes self (sort_by_id (all_nodes self ++ [node])) in
      match get_successor self with
      | None => set_successor self (Some node)
      | Some successor =>
          if (self_id self <? node_id node)%Z
             && ((node_id node <? node_id successor)%Z
                 || (node_id successor <=? self_id self)%Z)
          then set_successor self (Some node)
          else Some self
      end
  end.

(** The last loop of [remove_node]: every finger with the removed id becomes
    [None]. *)
Definition drop_fingers (fingers : list (option NodeInfo)) (node_id : Z)
    : list (option NodeInfo) :=
  (λ finger : option NodeInfo,
     match finger with
     | Some f => if bool_decide (Routing.node_id f = node_id) then None else Some f
     | None => None
     end) <$> fingers.

(** [remove_node(node_id)]: the table after the call and the returned flag. *)
Definition remove_node (self : FingerTable) (node_id : Z)
    : option (FingerTable * bool) :=
  let self :=
    set_nodes self
      (filter (λ n, Routing.node_id n ≠ node_id) (all_nodes self)) in
  self ←
    match get_successor self with
    | Some successor =>
        if bool_decide (Routing.node_id successor = node_id) then
          match all_nodes self with
          | [] => set_successor self None
          | _ => set_successor self (pick_successor self (all_nodes self))
          end
        else Some self
    | None => Some self
    end;
  if bool_decide (m self ≤ length (fingers self))
  then Some (set_fingers self
               (drop_fingers (take (m self) (fingers self)) node_id
                ++ drop (m self) (fingers self)), true)
  else None.

(** [get_all_nodes()] *)
Definition get_all_nodes (self : FingerTable) : list NodeInfo := all_nodes self.

End RoutingOps.

(** ** chord/storage.py: the remaining operations *)

Module StorageOps.
Import VC Storage.

(** [get_with_version(key)] *)
Definition get_with_version (self : ChordStorage) (key : string)
    : option JSON * option VectorClock :=
  match primary_store self !! key with
  | Some result => (Some result.1, Some result.2)
  | None => (None, None)
  end.

(** [has_key(key)] *)
Definition has_key (self : ChordStorage) (key : string) : bool :=
  bool_decide (is_Some (primary_store self !! key)).

(** [size()] *)
Definition size (self : ChordStorage) : nat := base.size (primary_store self).

(** [clear()]: empties the primary store only. *)
Definition clear (self : ChordStorage) : ChordStorage :=
  set_primary_store self ∅.

(** [delete(key)]: the storage after the call and the returned flag.  The
    key's file is removed as well; removing is no write, so the list of file
    writes stays as it is. *)
Definition delete (self : ChordStorage) (key : string) : ChordStorage * bool :=
  match primary_store self !! key with
  | Some _ => (set_primary_store self (base.delete key (primary_store self)), true)
  | None => (self, false)
  end.

(** [delete_backup(key, for_node_id)]; the bucket stays, possibly empty. *)
Definition delete_backup (self : ChordStorage) (key : string) (for_node_id : Z)
    : ChordStorage * bool :=
  match backup_store self !! for_node_id with
  | Some bucket =>
      match bucket !! key with
      | Some _ =>
          (set_backup_store self
             (<[for_node_id := base.delete key bucket]> (backup_store self)),
           true)
      | None => (self, false)
      end
  | None => (self, false)
  end.

(** [in_range(identifier, start, end, inclusive_start=False)] of storage.py:
    membership in the arc from [start] to [end], the end included. *)
Definition in_range (identifier start end_ : Z) (inclusive_start : bool) : bool :=
  if (start =? end_)%Z then true
  else if (start <? end_)%Z then
    if inclusive_start
    then (start <=? identifier)%Z && (identifier <=? end_)%Z
    else (start <? identifier)%Z && (identifier <=? end_)%Z
  else
    if inclusive_start
    then (start <=? identifier)%Z || (identifier <=? end_)%Z
    else (start <? identifier)%Z || (identifier <=? end_)%Z.

(** One step of the loop of [transfer_keys]: the primary store and the
    dict of transferred entries. *)
Definition transfer_step
    (state : gmap string (JSON * VectorClock) * gmap string (JSON * VectorClock))
    (key : string)
    : gmap string (JSON * VectorClock) * gmap string (JSON * VectorClock) :=
  match state.1 !! key with
  | Some entry => (base.delete key state.1, <[key := entry]> state.2)
  | None => state
  end.

(** [transfer_keys(keys)]: the storage after the call and the returned dict. *)
Definition transfer_keys (self : ChordStorage) (keys : list string)
    : ChordStorage * gmap string (JSON * VectorClock) :=
  let state := foldl transfer_step (primary_store self, ∅) keys in
  (set_primary_store self state.1, state.2).

(** The body of the loop of [receive_keys]. *)
Definition receive_step (store : gmap string (JSON * VectorClock))
    (item : string * (JSON * VectorClock)) : gmap string (JSON * VectorClock) :=
  match store !! item.1 with
  | None => <[item.1 := item.2]> store
  | Some (_, current_version) =>
      if vc_gt item.2.2 current_version then <[item.1 := item.2]> store
      else store
  end.

(** [receive_keys(data)] *)
Definition receive_keys (self : ChordStorage)
    (data : gmap string (JSON * VectorClock)) : ChordStorage :=
  set_primary_store self (foldl receive_step (primary_store self) (map_to_list data)).

Section Hashed.

(** [hash_key(key, m)]: SHA-1 of the key reduced modulo [2 ** m], taken as
    given. *)
Variable hash_key : string → Z.

(** [get_keys_in_range(start, end, inclusive_start)], as the set of keys it
    lists. *)
Definition get_keys_in_range (self : ChordStorage) (start end_ : Z)
    (inclusive_start : bool) : gset string :=
  dom (filter (λ item : string * (JSON * VectorClock),
                 in_range (hash_key item.1) start end_ inclusive_start = true)
         (primary_store self)).

End Hashed.

End StorageOps.

(** ** consistency/quorum.py and consistency/replication.py: the write path
       and the configuration *)

Module QuorumOps.
Import VC Routing Quorum.

(** What [_validate_quorum] does: it returns, or raises [ValueError] for the
    read or for the write quorum. *)
Inductive Validation : Type :=
  | Valid
  | InvalidReadQuorum
  | InvalidWriteQuorum.

Definition _validate_quorum (self : QuorumManager) : Validation :=
  if (read_quorum self <? 1)%Z || (n_replicas self <? read_quorum self)%Z
  then InvalidReadQuorum
  else if (write_quorum self <? 1)%Z || (n_replicas self <? write_quorum self)%Z
  then InvalidWriteQuorum
  else Valid.

(** [QuorumManager(node_id, n_replicas, read_quorum, write_quorum,
    enable_read_repair)]: [None] when the constructor raises. *)
Definition init (node_id n_replicas read_quorum write_quorum : Z)
    (enable_read_repair : bool) : option QuorumManager :=
  let self :=
    mkQuorum node_id n_replicas read_quorum write_quorum enable_read_repair in
  match _validate_quorum self with
  | Valid => Some self
  | _ => None
  end.

Inductive ConsistencyLevel : Type := STRONG | MODERATE | EVENTUAL.

(** [get_consistency_level()] *)
Definition get_consistency_level (self : QuorumManager) : ConsistencyLevel :=
  let r := read_quorum self in
  let w := write_quorum self in
  let n := n_replicas self in
  if (n <? r + w)%Z then STRONG
  else if (r + w =? n)%Z then MODERATE
  else EVENTUAL.

(** [update_quorum_config(read_quorum=None, write_quorum=None)]: the manager
    after the call, and whether the validation at its end raised. *)
Definition update_quorum_config (self : QuorumManager)
    (read_quorum write_quorum : option Z) : QuorumManager * Validation :=
  let self :=
    match read_quorum with
    | Some r =>
        mkQuorum (node_id self) (n_replicas self) r (Quorum.write_quorum self)
          (enable_read_repair self)
    | None => self
    end in
  let self :=
    match write_quorum with
    | Some w =>
        mkQuorum (node_id self) (n_replicas self) (Quorum.read_quorum self) w
          (enable_read_repair self)
    | None => self
    end in
  (self, _validate_quorum self).

(** The end of [_send_put_replica]: what it returns for the response that
    [send_message] handed back ([None] when there was none). *)
Definition put_acknowledged (response : option Message.Message) : bool :=
  match response with
  | Some response =>
      if Message.same_type (Message.msg_type response) Message.PUT_REPLICA_REPLY
      then
        match dict_get (Message.data response) "status" with
        | Some (JStr status) => bool_decide (status = "ok")
        | _ => false
        end
      else false
  | None => false
  end.

(** What [asyncio.gather(..., return_exceptions=True)] holds for one
    [_send_put_replica]: an exception, or the returned flag. *)
Inductive PutResult : Type :=
  | PutFailed
  | PutReturned (acknowledged : bool).

(** The loop of [replicate_put] over [zip(replicas, results)]. *)
Fixpoint acknowledged (replicas : list NodeInfo) (results : list PutResult)
    : list NodeInfo :=
  match replicas, results with
  | replica :: replicas, result :: results =>
      match result with
      | PutReturned true => replica :: acknowledged replicas results
      | _ => acknowledged replicas results
      end
  | _, _ => []
  end.

(** [replicate_put(key, value, version, replicas, primary_node_id)], given
    what the replicas answered. *)
Definition replicate_put (replicas : list NodeInfo) (results : list PutResult)
    : list NodeInfo :=
  match replicas with
  | [] => []
  | _ => acknowledged replicas results
  end.

(** What awaiting [replicate_put] under [wait_for] can yield. *)
Inductive PutGathered : Type :=
  | PutTimedOut
  | PutResults (results : list PutResult).

(** [quorum_put(key, value, version, replicas)]: [(success, version)]. *)
Definition quorum_put (self : QuorumManager) (version : VectorClock)
    (replicas : list NodeInfo) (gathered : PutGathered) : bool * VectorClock :=
  match replicas with
  | [] => (false, version)
  | _ =>
      match gathered with
      | PutTimedOut => (false, version)
      | PutResults results =>
          let num_acks := Z.of_nat (length (replicate_put replicas results)) in
          ((write_quorum self <=? num_acks)%Z, version)
      end
  end.

(** What [gather] holds for one [_send_get_replica]: an exception, [None],
    or a value with its version. *)
Inductive GetResult : Type :=
  | GetFailed
  | GetNothing
  | GetReturned (value : JSON) (version : VectorClock).

(** The loop of [replicate_get] over [zip(replicas, results)]. *)
Fixpoint collected (replicas : list NodeInfo) (results : list GetResult)
    : list Read :=
  match replicas, results with
  | replica :: replicas, result :: results =>
      match result with
      | GetReturned value version =>
          (replica, value, version) :: collected replicas results
      | _ => collected replicas results
      end
  | _, _ => []
  end.

(** [replicate_get(key, replicas, primary_node_id)], given what the replicas
    answered. *)
Definition replicate_get (replicas : list NodeInfo) (results : list GetResult)
    : list Read :=
  match replicas with
  | [] => []
  | _ => collected replicas results
  end.

End QuorumOps.

(** ** main.py: the UPDATE_BACKUP and RECOVER_HANDOFF handlers *)

Module RuntimeOps.
Import VC Storage Message Runtime.

(** [node.storage.put_backup(key, value, version, for_node_id=...)] on the
    values of a request.  The stores of the model hold string keys in buckets
    named by integers, as the annotations of [put_backup] say.  A list or an
    object cannot be hashed: [TypeError], for the bucket before anything
    changes, for the key once the bucket exists.  Python stores under any
    other value as it is; the model has no such state and answers [None].
    The result is the storage after the call and how the call ended. *)
Definition put_backup_json (self : ChordStorage) (key value : JSON)
    (version : VectorClock) (for_node_id : JSON)
    : option (ChordStorage * Result unit) :=
  match for_node_id with
  | JInt p =>
      match key with
      | JStr key =>
          Some ((put_backup self key value version p).1,
                match put_backup_raises self key value version p with
                | Some e => Raise e
                | None => Ok ()
                end)
      | JList _ | JObject _ =>
          let self :=
            match backup_store self !! p with
            | None => set_backup_store self (<[p := ∅]> (backup_store self))
            | Some _ => self
            end in
          Some (self, Raise TypeError)
      | _ => None
      end
  | JList _ | JObject _ => Some (self, Raise TypeError)
  | _ => None
  end.

(** The [try] block of [handle_update_backup]: the node when the block is
    left, and whether it was left by an exception. *)
Definition update_backup_try (node : ChordNode) (msg : Message)
    : option (ChordNode * Result unit) :=
  let arguments :=
    try! key ← item (data msg) "key";
    try! value ← item (data msg) "value";
    try! version_dict ← item (data msg) "version";
    let primary_node_id :=
      default (JInt (sender_id msg)) (dict_get (data msg) "primary_node_id") in
    try! version ← version_of_json version_dict;
    Ok (key, value, version, primary_node_id) in
  match arguments with
  | Ok (key, value, version, primary_node_id) =>
      '(storage', outcome) ←
        put_backup_json (storage node) key value version primary_node_id;
      Some (mkNode (node_id node) (address node) storage', outcome)
  | Raise e => Some (node, Raise e)
  end.

(** [handle_update_backup(msg)]: the node after the call and the reply. *)
Definition handle_update_backup (node : ChordNode) (msg : Message)
    : option (ChordNode * Message) :=
  '(node', outcome) ← update_backup_try node msg;
  match outcome with
  | Ok _ =>
      Some (node',
            create_reply_msg (node_id node) (address node) UPDATE_BACKUP_ACK
              [("status", JStr "ok")] (msg_id msg))
  | Raise e =>
      Some (node',
            create_reply_msg (node_id node) (address node) UPDATE_BACKUP_ACK
              [("status", JStr "error"); ("error", JStr (exn_text e))]
              (msg_id msg))
  end.

(** The UPDATE_BACKUP request that step 4 of [recover_hinted_handoffs]
    (chord/node.py) builds for one recovered key. *)
Definition update_backup_msg (sender : Z) (sender_addr msg_id key : string)
    (value : JSON) (version : VectorClock) : Message :=
  mkMessage UPDATE_BACKUP sender sender_addr msg_id
    [("key", JStr key); ("value", value); ("version", JObject (to_dict version));
     ("primary_node_id", JInt sender)].

(** The bucket that [backup_store.get(requesting_node_id, {})] finds for a
    JSON value used as the key: an integer names its bucket, a boolean hashes
    like 0 or 1, a string or null names no bucket, and a list or an object
    cannot be hashed. *)
Definition requested_bucket (requesting_node_id : JSON) : Result (option Z) :=
  match requesting_node_id with
  | JInt z => Ok (Some z)
  | JBool b => Ok (Some (if b then 1 else 0)%Z)
  | JStr _ | JNull => Ok None
  | JList _ | JObject _ => Raise TypeError
  end.

(** One entry of [keys_data]. *)
Definition handoff_entry (item : string * (JSON * VectorClock)) : string * JSON :=
  (item.1, JObject [("value", item.2.1); ("version", JObject (to_dict item.2.2))]).

(** [handle_recover_handoff(msg)]: the node after the call and the reply, or
    the exception that escapes to the dispatcher.  The entries of [keys] are
    listed in the order in which the model enumerates the bucket. *)
Definition handle_recover_handoff (node : ChordNode) (msg : Message)
    : Result (ChordNode * Message) :=
  let requesting_node_id :=
    default (JInt (sender_id msg)) (dict_get (data msg) "requesting_node_id") in
  try! bucket ← requested_bucket requesting_node_id;
  match bucket with
  | Some p =>
      let backup_keys := get_all_backups_for_node (storage node) p in
      let keys_data := handoff_entry <$> map_to_list backup_keys in
      let storage' :=
        foldl (λ st key, (StorageOps.delete_backup st key p).1) (storage node)
          (map_to_list backup_keys).*1 in
      Ok (mkNode (node_id node) (address node) storage',
          create_reply_msg (node_id node) (address node) RECOVER_HANDOFF_REPLY
            [("keys", JObject keys_data)] (msg_id msg))
  | None =>
      Ok (node,
          create_reply_msg (node_id node) (address node) RECOVER_HANDOFF_REPLY
            [("keys", JObject [])] (msg_id msg))
  end.

End RuntimeOps.

(** ** chord/node.py: restoring recovered keys *)

Module Recovery.
Import VC Storage.

(** The call of [put] in the body of the loop over [recovered_keys] in
    step 3 of [recover_hinted_handoffs]: the value and the version to store,
    or [None] when the local entry is kept. *)
Definition restore_choice (storage : ChordStorage)
    (item : string * (JSON * VectorClock)) : option (JSON * VectorClock) :=
  let key := item.1 in
  let value := item.2.1 in
  let version := item.2.2 in
  match Storage.get storage key with
  | Some (_, existing_version) =>
      if vc_gt version existing_version then Some (value, version)
      else if concurrent_with version existing_version then
        let merged_version := update (copy existing_version) version in
        Some (value, merged_version)
      else None
  | None => Some (value, version)
  end.

(** The body of that loop: the storage after it and the exception that
    [put] raised, if any. *)
Definition restore_step (storage : ChordStorage)
    (item : string * (JSON * VectorClock)) : ChordStorage * option Exn :=
  match restore_choice storage item with
  | Some (value, version) =>
      ((put storage item.1 value (Some version)).1,
       put_raises storage item.1 value (Some version))
  | None => (storage, None)
  end.

(** The loop: nothing catches an exception of [put], which ends it. *)
Fixpoint restore_loop (storage : ChordStorage)
    (items : list (string * (JSON * VectorClock))) : ChordStorage * option Exn :=
  match items with
  | [] => (storage, None)
  | item :: rest =>
      match restore_step storage item with
      | (storage, None) => restore_loop storage rest
      | (storage, Some e) => (storage, Some e)
      end
  end.

(** Step 3 of [recover_hinted_handoffs]: the storage after the loop and the
    exception that ended it, if any; the keys are taken in the order in which
    the model enumerates the dict. *)
Definition restore_recovered (storage : ChordStorage)
    (recovered_keys : gmap string (JSON * VectorClock))
    : ChordStorage * option Exn :=
  restore_loop storage (map_to_list recovered_keys).

End Recovery.

(** ** communication/network.py: the framing of a message on a connection *)

From Stdlib.Strings Require Byte.

Module Framing.

(** [n.to_bytes(4, byteorder='big')]; [None] stands for [OverflowError]. *)
Definition to_bytes (n : N) : option (list Byte.byte) :=
  mapM Strings.Byte.of_N
    [n / 2 ^ 24; (n / 2 ^ 16) mod 256; (n / 2 ^ 8) mod 256; n mod 256]%N.

(** [int.from_bytes(data, byteorder='big')] *)
Definition from_bytes (data : list Byte.byte) : N :=
  foldl (λ acc b, acc * 256 + Strings.Byte.to_N b)%N 0%N data.

(** [reader.readexactly(n)] on the bytes that arrive before the connection
    closes: the bytes read and the rest; [None] stands for
    [IncompleteReadError]. *)
Definition readexactly (n : nat) (stream : list Byte.byte)
    : option (list Byte.byte * list Byte.byte) :=
  if decide (n ≤ length stream) then Some (take n stream, drop n stream)
  else None.

(** [_send_message(writer, msg)], for [msg.to_bytes()] given: the bytes
    handed to the writer. *)
Definition _send_message (msg_bytes : list Byte.byte) : option (list Byte.byte) :=
  let msg_length := N.of_nat (length msg_bytes) in
  header ← to_bytes msg_length;
  Some (header ++ msg_bytes).

(** The reads of [_handle_connection] and of [send_message]: the bytes given
    to [Message.from_bytes], and what is left of the stream. *)
Definition read_message (stream : list Byte.byte) : option (list Byte.byte * list Byte.byte) :=
  '(length_bytes, stream) ← readexactly 4 stream;
  let msg_length := from_bytes length_bytes in
  readexactly (N.to_nat msg_length) stream.

End Framing.

(** * Properties *)

(** ** Vector clocks: what the loops compute *)

Section VectorClockFacts.
Import VC.

Implicit Types (a b c : VectorClock) (k n : Z).

Lemma get_outside a b k : k ∉ all_nodes a b → get a k = 0 ∧ get b k = 0.
Proof.
  unfold all_nodes, get. rewrite elem_of_elements, elem_of_union.
  rewrite !elem_of_dom. intros Hk.
  destruct (clock a !! k) eqn:Ea; [exfalso; apply Hk; left; eauto|].
  destruct (clock b !! k) eqn:Eb; [exfalso; apply Hk; right; eauto|].
  done.
Qed.

Lemma get_increment a n k :
  get (increment a n) k = if decide (k = n) then get a n + 1 else get a k.
Proof.
  unfold increment, get at 1. simpl.
  destruct (decide (k = n)) as [->|Hne].
  - by rewrite lookup_insert_eq.
  - by rewrite lookup_insert_ne.
Qed.

Lemma get_copy a k : get (copy a) k = get a k.
Proof. done. Qed.

Lemma get_empty k : get VC.empty k = 0.
Proof. done. Qed.

Lemma update_loop_other (l : list (Z * nat)) (acc : gmap Z nat) k :
  k ∉ l.*1 → foldl update_step acc l !! k = acc !! k.
Proof.
  revert acc. induction l as [|[k' ts] l IH]; intros acc Hk; [done|].
  simpl in *. rewrite not_elem_of_cons in Hk. destruct Hk as [Hne Hk].
  rewrite IH by done. unfold update_step. simpl.
  by rewrite lookup_insert_ne.
Qed.

Lemma update_loop_item (l : list (Z * nat)) (acc : gmap Z nat) k ts :
  NoDup l.*1 → (k, ts) ∈ l →
  foldl update_step acc l !! k = Some (Nat.max (default 0 (acc !! k)) ts).
Proof.
  revert acc. induction l as [|[k' ts'] l IH]; intros acc Hnd Hin.
  - by apply elem_of_nil in Hin.
  - simpl in *. apply NoDup_cons in Hnd as [Hk' Hnd].
    apply elem_of_cons in Hin as [Heq|Hin].
    + injection Heq as -> ->. rewrite update_loop_other by done.
      unfold update_step. simpl. by rewrite lookup_insert_eq.
    + assert (k ≠ k') as Hne.
      { intros ->. apply Hk'. apply list_elem_of_fmap. by exists (k', ts). }
      rewrite IH by done. unfold update_step. simpl.
      by rewrite lookup_insert_ne.
Qed.

(** [update] is the element-wise maximum. *)
Lemma get_update a b k : get (update a b) k = Nat.max (get a k) (get b k).
Proof.
  unfold update, get. simpl.
  destruct (clock b !! k) as [ts|] eqn:Eb; simpl.
  - rewrite (update_loop_item _ _ k ts).
    + done.
    + apply NoDup_fst_map_to_list.
    + by apply elem_of_map_to_list.
  - rewrite update_loop_other.
    + by rewrite Nat.max_0_r.
    + intros Hin. apply list_elem_of_fmap in Hin as [[k' ts] [-> Hin]].
      apply elem_of_map_to_list in Hin. simpl in *. congruence.
Qed.

Lemma happens_before_loop_spec a b nodes al ol :
  (let '(x, y) := happens_before_loop a b nodes al ol in x && y)
  = al && forallb (λ k, get a k <=? get b k) nodes
       && (ol || existsb (λ k, get a k <? get b k) nodes).
Proof.
  revert ol. induction nodes as [|k nodes IH]; intros ol; simpl.
  - by rewrite orb_false_r, andb_true_r.
  - destruct (get b k <? get a k) eqn:Hgt.
    + apply Nat.ltb_lt in Hgt.
      assert ((get a k <=? get b k) = false) as -> by (apply Nat.leb_gt; lia).
      simpl. by rewrite andb_false_r.
    + apply Nat.ltb_ge in Hgt.
      assert ((get a k <=? get b k) = true) as -> by (apply Nat.leb_le; lia).
      destruct (get a k <? get b k) eqn:Hlt; rewrite IH; simpl.
      * by rewrite orb_true_r.
      * done.
Qed.

(** [happens_before] is the strict pointwise order, missing entries read as
    zero. *)
Lemma happens_before_spec a b :
  happens_before a b = true ↔
  (∀ k, get a k ≤ get b k) ∧ (∃ k, get a k < get b k).
Proof.
  unfold happens_before.
  pose proof (happens_before_loop_spec a b (all_nodes a b) true false) as H.
  destruct (happens_before_loop a b (all_nodes a b) true false) as [x y].
  rewrite H. simpl. rewrite andb_true_iff, forallb_forall, existsb_exists.
  split.
  - intros [Hall [k [_ Hk]]]. split.
    + intros k'. destruct (decide (k' ∈ all_nodes a b)) as [Hin|Hout].
      * apply Nat.leb_le, Hall. by apply list_elem_of_In.
      * apply get_outside in Hout as [-> ->]. done.
    + exists k. by apply Nat.ltb_lt.
  - intros [Hall [k Hk]]. split.
    + intros k' _. by apply Nat.leb_le.
    + exists k. split; [|by apply Nat.ltb_lt].
      apply list_elem_of_In.
      destruct (decide (k ∈ all_nodes a b)) as [Hin|Hout]; [done|].
      apply get_outside in Hout as [? ?]. lia.
Qed.

Lemma dominates_loop_spec a b nodes :
  dominates_loop a b nodes = forallb (λ k, get b k <=? get a k) nodes.
Proof.
  induction nodes as [|k nodes IH]; simpl; [done|].
  destruct (get a k <? get b k) eqn:Hlt.
  - apply Nat.ltb_lt in Hlt.
    by assert ((get b k <=? get a k) = false) as -> by (apply Nat.leb_gt; lia).
  - apply Nat.ltb_ge in Hlt.
    by assert ((get b k <=? get a k) = true) as -> by (apply Nat.leb_le; lia).
Qed.

(** [dominates] is the pointwise order. *)
Lemma dominates_spec a b : dominates a b = true ↔ ∀ k, get b k ≤ get a k.
Proof.
  unfold dominates. rewrite dominates_loop_spec, forallb_forall. split.
  - intros Hall k. destruct (decide (k ∈ all_nodes a b)) as [Hin|Hout].
    + apply Nat.leb_le, Hall. by apply list_elem_of_In.
    + apply get_outside in Hout as [-> ->]. done.
  - intros Hall k _. by apply Nat.leb_le.
Qed.

Lemma eq_loop_spec a b nodes :
  eq_loop a b nodes = forallb (λ k, get a k =? get b k) nodes.
Proof.
  induction nodes as [|k nodes IH]; simpl; [done|].
  destruct (get a k =? get b k); simpl; done.
Qed.

(** [__eq__] holds exactly when all counters agree, missing ones read as
    zero. *)
Lemma vc_eq_spec a b : vc_eq a b = true ↔ ∀ k, get a k = get b k.
Proof.
  unfold vc_eq. rewrite eq_loop_spec, forallb_forall. split.
  - intros Hall k. destruct (decide (k ∈ all_nodes a b)) as [Hin|Hout].
    + apply Nat.eqb_eq, Hall. by apply list_elem_of_In.
    + apply get_outside in Hout as [-> ->]. done.
  - intros Hall k _. by apply Nat.eqb_eq.
Qed.

Lemma vc_eq_refl a : vc_eq a a = true.
Proof. by apply vc_eq_spec. Qed.

Lemma happens_before_irrefl a : happens_before a a = false.
Proof.
  apply not_true_is_false. rewrite happens_before_spec. intros [_ [k Hk]]. lia.
Qed.

Lemma happens_before_trans a b c :
  happens_before a b = true → happens_before b c = true →
  happens_before a c = true.
Proof.
  rewrite !happens_before_spec. intros [H1 [k Hk]] [H2 _]. split.
  - intros k'. specialize (H1 k'). specialize (H2 k'). lia.
  - exists k. specialize (H2 k). lia.
Qed.

Lemma happens_before_asym a b :
  happens_before a b = true → happens_before b a = false.
Proof.
  intros H. apply not_true_is_false. intros H'.
  pose proof (happens_before_trans _ _ _ H H') as Hc.
  by rewrite happens_before_irrefl in Hc.
Qed.

Lemma happens_before_dominates a b :
  happens_before a b = true → dominates b a = true.
Proof. rewrite happens_before_spec, dominates_spec. by intros [H _]. Qed.

Lemma happens_before_not_eq a b :
  happens_before a b = true → vc_eq a b = false.
Proof.
  intros H. apply not_true_is_false. rewrite vc_eq_spec. intros He.
  apply happens_before_spec in H as [_ [k Hk]]. specialize (He k). lia.
Qed.

Lemma vc_eq_happens_before_l a b c :
  vc_eq a b = true → happens_before a c = happens_before b c.
Proof.
  rewrite vc_eq_spec. intros He. apply eq_true_iff_eq.
  rewrite !happens_before_spec. split; intros [H1 [k Hk]]; split.
  - intros k'. rewrite <- He. done.
  - exists k. by rewrite <- He.
  - intros k'. rewrite He. done.
  - exists k. by rewrite He.
Qed.

(** Incrementing strictly advances a clock. *)
Lemma happens_before_increment a n : happens_before a (increment a n) = true.
Proof.
  apply happens_before_spec. split.
  - intros k. rewrite get_increment. case_decide; subst; lia.
  - exists n. rewrite get_increment. case_decide; [lia|done].
Qed.

End VectorClockFacts.

(** ** Storage: what [put] and [put_backup] change *)

Section StorageFacts.
Import VC Storage Client.

Implicit Types (st : ChordStorage) (k : string) (v : JSON) (p : Z).

Lemma put_unfold st k v ver :
  put st k v ver
  = (let st1 := set_primary_store st
                  (<[k := (v, put_version st k ver)]> (primary_store st)) in
     if enable_persistence st
     then match write_error st (PrimaryFile k v (to_dict (put_version st k ver))) with
          | None =>
              write_file st1 (PrimaryFile k v (to_dict (put_version st k ver)))
          | Some _ => st1
          end
     else st1,
     put_version st k ver).
Proof.
  unfold put, _save_primary. simpl. destruct (enable_persistence st); [|done].
  by destruct (write_error st _).
Qed.

Lemma put_raises_unfold st k v ver :
  put_raises st k v ver
  = if enable_persistence st
    then write_error st (PrimaryFile k v (to_dict (put st k v ver).2))
    else None.
Proof.
  unfold put_raises, put, _save_primary. simpl.
  destruct (enable_persistence st); [|done]. by destruct (write_error st _).
Qed.

Lemma primary_store_put st k v ver :
  primary_store (put st k v ver).1
  = <[k := (v, (put st k v ver).2)]> (primary_store st).
Proof.
  rewrite put_unfold. cbn [fst snd].
  destruct (enable_persistence st); [|done]. by destruct (write_error st _).
Qed.

Lemma backup_store_put st k v ver :
  backup_store (put st k v ver).1 = backup_store st.
Proof.
  rewrite put_unfold. cbn [fst snd].
  destruct (enable_persistence st); [|done]. by destruct (write_error st _).
Qed.

Lemma node_id_put st k v ver : node_id (put st k v ver).1 = node_id st.
Proof.
  rewrite put_unfold. cbn [fst snd].
  destruct (enable_persistence st); [|done]. by destruct (write_error st _).
Qed.

Lemma enable_persistence_put st k v ver :
  enable_persistence (put st k v ver).1 = enable_persistence st.
Proof.
  rewrite put_unfold. cbn [fst snd].
  destruct (enable_persistence st) eqn:E; [|done].
  by destruct (write_error st _).
Qed.

Lemma write_error_put st k v ver :
  write_error (put st k v ver).1 = write_error st.
Proof.
  rewrite put_unfold. cbn [fst snd].
  destruct (enable_persistence st); [|done]. by destruct (write_error st _).
Qed.

Lemma version_put_none st k v :
  (put st k v None).2
  = increment (default VC.empty (get_version st k)) (node_id st).
Proof.
  unfold put, put_version, get_version. simpl.
  destruct (primary_store st !! k) as [[? [old]]|]; done.
Qed.

Lemma put_raises_writable st k v ver :
  primary_writable st k → put_raises st k v ver = None.
Proof.
  intros [Hoff|Hok]; rewrite put_raises_unfold.
  - by rewrite Hoff.
  - by destruct (enable_persistence st).
Qed.

Lemma put_result_writable st k v ver :
  primary_writable st k → put_result st k v ver = Ok (put st k v ver).2.
Proof. intros H. unfold put_result. by rewrite put_raises_writable. Qed.

Lemma primary_writable_put st k v ver k' :
  primary_writable st k' → primary_writable (put st k v ver).1 k'.
Proof.
  unfold primary_writable. rewrite enable_persistence_put, write_error_put.
  done.
Qed.

Lemma put_backup_unfold st k v ver p :
  put_backup st k v ver p
  = (let st1 := store_backup st k v ver p in
     if enable_persistence st
     then match write_error st (BackupFile k v (to_dict ver) p) with
          | None => write_file st1 (BackupFile k v (to_dict ver) p)
          | Some _ => st1
          end
     else st1,
     ver).
Proof.
  unfold put_backup, _save_backup, store_backup.
  destruct (backup_store st !! p); simpl;
    (destruct (enable_persistence st); [|done]);
    by destruct (write_error st _).
Qed.

Lemma put_backup_raises_unfold st k v ver p :
  put_backup_raises st k v ver p
  = if enable_persistence st
    then write_error st (BackupFile k v (to_dict ver) p)
    else None.
Proof.
  unfold put_backup_raises, _save_backup, store_backup.
  destruct (backup_store st !! p); simpl;
    (destruct (enable_persistence st); [|done]);
    by destruct (write_error st _).
Qed.

Lemma put_backup_raises_writable st k v ver p :
  backup_writable st k p → put_backup_raises st k v ver p = None.
Proof.
  intros [Hoff|Hok]; rewrite put_backup_raises_unfold.
  - by rewrite Hoff.
  - by destruct (enable_persistence st).
Qed.

Lemma primary_store_put_backup st k v ver p :
  primary_store (put_backup st k v ver p).1 = primary_store st.
Proof.
  rewrite put_backup_unfold. cbn [fst]. unfold store_backup.
  destruct (backup_store st !! p); simpl;
    (destruct (enable_persistence st); [|done]);
    by destruct (write_error st _).
Qed.

Lemma enable_persistence_put_backup st k v ver p :
  enable_persistence (put_backup st k v ver p).1 = enable_persistence st.
Proof.
  rewrite put_backup_unfold. cbn [fst]. unfold store_backup.
  destruct (backup_store st !! p); simpl;
    (destruct (enable_persistence st) eqn:E; [|done]);
    by destruct (write_error st _).
Qed.

Lemma write_error_put_backup st k v ver p :
  write_error (put_backup st k v ver p).1 = write_error st.
Proof.
  rewrite put_backup_unfold. cbn [fst]. unfold store_backup.
  destruct (backup_store st !! p); simpl;
    (destruct (enable_persistence st); [|done]);
    by destruct (write_error st _).
Qed.

Lemma backup_writable_put_backup st k v ver p k' p' :
  backup_writable st k' p' → backup_writable (put_backup st k v ver p).1 k' p'.
Proof.
  unfold backup_writable.
  rewrite enable_persistence_put_backup, write_error_put_backup. done.
Qed.

Lemma backup_store_put_backup st k v ver p :
  backup_store (put_backup st k v ver p).1
  = <[p := <[k := (v, ver)]> (get_all_backups_for_node st p)]> (backup_store st).
Proof.
  rewrite put_backup_unfold. cbn [fst].
  assert (backup_store (store_backup st k v ver p)
          = <[p := <[k := (v, ver)]> (get_all_backups_for_node st p)]>
              (backup_store st)) as Hstore.
  { unfold store_backup, get_all_backups_for_node.
    apply map_eq. intros i.
    destruct (backup_store st !! p) as [bucket|] eqn:Ep; simpl;
      destruct (decide (p = i)) as [->|Hne];
      rewrite ?lookup_alter_eq, ?lookup_alter_ne, ?lookup_insert_eq,
        ?lookup_insert_ne, ?Ep by done; done. }
  destruct (enable_persistence st); [|done].
  by destruct (write_error st _).
Qed.

Lemma get_backup_put_backup st k v ver p k' p' :
  get_backup (put_backup st k v ver p).1 k' p'
  = if decide (p' = p ∧ k' = k) then Some (v, ver) else get_backup st k' p'.
Proof.
  unfold get_backup at 1. rewrite backup_store_put_backup.
  destruct (decide (p' = p)) as [->|Hp].
  - rewrite lookup_insert_eq. destruct (decide (k' = k)) as [->|Hk].
    + rewrite lookup_insert_eq. by rewrite decide_True.
    + rewrite lookup_insert_ne by done. rewrite decide_False by tauto.
      unfold get_all_backups_for_node, get_backup.
      by destruct (backup_store st !! p).
  - rewrite lookup_insert_ne by done. by rewrite decide_False by tauto.
Qed.

Lemma get_version_put st k v ver :
  get_version (put st k v ver).1 k = Some (put st k v ver).2.
Proof. unfold get_version. by rewrite primary_store_put, lookup_insert_eq. Qed.

(** A client's successive puts: what comes back when none of them raises. *)
Lemma successive_puts_Ok st k v vs versions :
  successive_puts st k (v :: vs) = Ok versions →
  put_raises st k v None = None
  ∧ ∃ rest, successive_puts (put st k v None).1 k vs = Ok rest
          ∧ versions = (put st k v None).2 :: rest.
Proof.
  cbn [successive_puts]. unfold put_result.
  destruct (put_raises st k v None); [done|]. cbn [result_bind].
  destruct (successive_puts (put st k v None).1 k vs) as [rest|]; [|done].
  cbn [result_bind]. intros [= <-]. eauto.
Qed.

Lemma successive_puts_writable st k vs :
  primary_writable st k →
  ∃ versions, successive_puts st k vs = Ok versions
            ∧ length versions = length vs.
Proof.
  revert st. induction vs as [|v vs IH]; intros st Hw.
  - by exists [].
  - cbn [successive_puts]. rewrite put_result_writable by done.
    cbn [result_bind].
    destruct (IH (put st k v None).1) as (rest & -> & Hlen).
    { by apply primary_writable_put. }
    cbn [result_bind]. eexists. split; [reflexivity|]. simpl. by rewrite Hlen.
Qed.

Lemma successive_puts_above st k vs versions version :
  successive_puts st k vs = Ok versions →
  version ∈ versions →
  happens_before (default VC.empty (get_version st k)) version = true.
Proof.
  revert st versions. induction vs as [|v vs IH]; intros st versions Hok Hin.
  - injection Hok as <-. by apply elem_of_nil in Hin.
  - apply successive_puts_Ok in Hok as (_ & rest & Hrest & ->).
    apply elem_of_cons in Hin as [->|Hin].
    + rewrite version_put_none. apply happens_before_increment.
    + apply (IH _ _ Hrest) in Hin.
      rewrite get_version_put, version_put_none in Hin.
      eapply happens_before_trans; [|exact Hin].
      apply happens_before_increment.
Qed.

Lemma successive_puts_increasing st k vs versions i j vi vj :
  successive_puts st k vs = Ok versions →
  i < j →
  versions !! i = Some vi →
  versions !! j = Some vj →
  happens_before vi vj = true.
Proof.
  revert st versions i j.
  induction vs as [|v vs IH]; intros st versions i j Hok Hij Hi Hj.
  - injection Hok as <-. done.
  - apply successive_puts_Ok in Hok as (_ & rest & Hrest & ->).
    destruct j as [|j]; [lia|].
    destruct i as [|i]; cbn [lookup list_lookup] in *.
    + injection Hi as <-.
      assert (vj ∈ rest) as Hin by (apply list_elem_of_lookup; eauto).
      apply (successive_puts_above _ _ _ _ _ Hrest) in Hin.
      rewrite get_version_put in Hin. exact Hin.
    + eapply (IH _ _ i j Hrest); [lia|done..].
Qed.

End StorageFacts.

(** ** The PUT_REPLICA handler *)

Section RuntimeFacts.
Import VC Storage Message Runtime.

(** On a well-formed request the handler calls [put_backup] with the merged,
    incremented version for the primary's bucket. *)
Lemma put_replica_try_ok (node : ChordNode) (msg : Message) k v o V p :
  dict_get (data msg) "key" = Some (JStr k) →
  dict_get (data msg) "value" = Some v →
  dict_get (data msg) "version" = Some (JObject o) →
  from_dict o = Some V →
  default (JInt (sender_id msg)) (dict_get (data msg) "primary_node_id") = JInt p →
  let W := increment
             (match get_backup (storage node) k p with
              | Some (_, existing_version) => update (copy existing_version) V
              | None => copy V
              end) (Runtime.node_id node) in
  put_replica_try node msg = Ok (k, v, W, p).
Proof.
  intros Hk Hv Hver HV Hp. unfold put_replica_try, item.
  rewrite Hk, Hv, Hver. cbn [result_bind encodable version_of_json].
  rewrite HV, Hp. cbn [result_bind bucket_id].
  by destruct (get_backup (storage node) k p) as [[? ?]|].
Qed.

(** The node that [handle_put_replica] leaves holds the backup, whether or
    not the file write went through. *)
Lemma storage_handle_put_replica (node : ChordNode) (msg : Message) k v W p :
  put_replica_try node msg = Ok (k, v, W, p) →
  (handle_put_replica node msg).1
  = mkNode (Runtime.node_id node) (address node)
      (put_backup (storage node) k v W p).1.
Proof.
  intros H. unfold handle_put_replica. rewrite H.
  by destruct (put_backup_raises (storage node) k v W p).
Qed.

End RuntimeFacts.

(** ** Storage: promotion of backups *)

Section PromotionFacts.
Import VC Storage.

Implicit Types (st : ChordStorage) (k : string) (p : Z).
Implicit Types (l : list (string * (JSON * VectorClock))).

(** The store is changed before the file is written, so what a step does to
    it does not depend on the write. *)
Lemma primary_store_promote_step st (item : string * (JSON * VectorClock)) :
  primary_store (promote_step st item).1
  = match primary_store st !! item.1 with
    | None => <[item.1 := item.2]> (primary_store st)
    | Some cur =>
        if happens_before cur.2 item.2.2
        then <[item.1 := item.2]> (primary_store st)
        else primary_store st
    end.
Proof.
  destruct item as [key [value version]]. unfold promote_step, _save_primary, vc_gt.
  simpl. destruct (primary_store st !! key) as [[? current]|]; simpl.
  - destruct (happens_before current version); simpl; [|done].
    destruct (enable_persistence st); [|done]. by destruct (write_error st _).
  - destruct (enable_persistence st); [|done]. by destruct (write_error st _).
Qed.

Lemma frame_promote_step st (item : string * (JSON * VectorClock)) :
  backup_store (promote_step st item).1 = backup_store st
  ∧ enable_persistence (promote_step st item).1 = enable_persistence st
  ∧ write_error (promote_step st item).1 = write_error st
  ∧ node_id (promote_step st item).1 = node_id st.
Proof.
  destruct item as [key [value version]]. unfold promote_step, _save_primary.
  simpl. destruct (primary_store st !! key) as [[? current]|]; simpl.
  - destruct (vc_gt version current); simpl; [|done].
    destruct (enable_persistence st) eqn:E; [|done].
    by destruct (write_error st _).
  - destruct (enable_persistence st) eqn:E; [|done].
    by destruct (write_error st _).
Qed.

Lemma backup_store_promote_step st (item : string * (JSON * VectorClock)) :
  backup_store (promote_step st item).1 = backup_store st.
Proof. apply frame_promote_step. Qed.

(** A step raises only through a file write that the file system refuses. *)
Lemma promote_step_writable st (item : string * (JSON * VectorClock)) :
  primary_writable st item.1 → (promote_step st item).2 = None.
Proof.
  destruct item as [key [value version]]. unfold promote_step, _save_primary.
  simpl. intros Hw.
  destruct (primary_store st !! key) as [[? current]|];
    [destruct (vc_gt version current); [|done]|];
    (destruct Hw as [->|Hok]; [done|];
     destruct (enable_persistence st); [|done]; by rewrite Hok).
Qed.

Lemma primary_writable_promote_step st (item : string * (JSON * VectorClock)) k :
  primary_writable st k → primary_writable (promote_step st item).1 k.
Proof.
  unfold primary_writable.
  destruct (frame_promote_step st item) as (_ & -> & -> & _). done.
Qed.

Lemma primary_store_promote_step_ne st (item : string * (JSON * VectorClock)) k :
  k ≠ item.1 →
  primary_store (promote_step st item).1 !! k = primary_store st !! k.
Proof.
  intros Hne. rewrite primary_store_promote_step.
  destruct (primary_store st !! item.1) as [cur|].
  - destruct (happens_before cur.2 item.2.2); [|done].
    by rewrite lookup_insert_ne.
  - by rewrite lookup_insert_ne.
Qed.

Lemma promote_loop_cons st (item : string * (JSON * VectorClock)) l :
  promote_loop st (item :: l)
  = match (promote_step st item).2 with
    | None => promote_loop (promote_step st item).1 l
    | Some e => ((promote_step st item).1, Some e)
    end.
Proof. cbn [promote_loop]. by destruct (promote_step st item) as [? [?|]]. Qed.

Lemma backup_store_promote_loop l st :
  backup_store (promote_loop st l).1 = backup_store st.
Proof.
  revert st. induction l as [|item l IH]; intros st; [done|].
  rewrite promote_loop_cons.
  destruct (promote_step st item).2.
  - apply backup_store_promote_step.
  - by rewrite IH, backup_store_promote_step.
Qed.

Lemma promote_loop_writable l st :
  (∀ item, item ∈ l → primary_writable st item.1) →
  (promote_loop st l).2 = None.
Proof.
  revert st. induction l as [|item l IH]; intros st Hw; [done|].
  rewrite promote_loop_cons, promote_step_writable by (apply Hw; by left).
  apply IH. intros item' Hin. apply primary_writable_promote_step.
  apply Hw. by right.
Qed.

Lemma primary_store_promote_loop_other l st k :
  k ∉ l.*1 →
  primary_store (promote_loop st l).1 !! k = primary_store st !! k.
Proof.
  revert st. induction l as [|item l IH]; intros st Hk; [done|].
  simpl in Hk. apply not_elem_of_cons in Hk as [Hne Hk].
  rewrite promote_loop_cons. destruct (promote_step st item).2.
  - by apply primary_store_promote_step_ne.
  - rewrite IH by done. by apply primary_store_promote_step_ne.
Qed.

(** The entry of a key of the bucket after the loop, in whatever order the
    items are taken: the later of the local and the backup entry once the
    loop has come to the key, the local entry if an exception ended the loop
    before. *)
Lemma primary_store_promote_loop_item l st k (bv : JSON * VectorClock) :
  NoDup l.*1 → (k, bv) ∈ l →
  primary_store (promote_loop st l).1 !! k
  = Some match primary_store st !! k with
         | None => bv
         | Some cur => if happens_before cur.2 bv.2 then bv else cur
         end
  ∨ ((promote_loop st l).2 ≠ None
     ∧ primary_store (promote_loop st l).1 !! k = primary_store st !! k).
Proof.
  revert st. induction l as [|item l IH]; intros st Hnd Hin.
  - by apply elem_of_nil in Hin.
  - simpl in Hnd. apply NoDup_cons in Hnd as [Hfresh Hnd].
    rewrite promote_loop_cons.
    apply elem_of_cons in Hin as [<-|Hin].
    + left.
      assert (primary_store (promote_step st (k, bv)).1 !! k
              = Some match primary_store st !! k with
                     | None => bv
                     | Some cur => if happens_before cur.2 bv.2 then bv else cur
                     end) as Hstep.
      { rewrite primary_store_promote_step. simpl.
        destruct (primary_store st !! k) as [cur|] eqn:Ecur.
        - destruct (happens_before cur.2 bv.2); [|done].
          by rewrite lookup_insert_eq.
        - by rewrite lookup_insert_eq. }
      destruct (promote_step st (k, bv)).2; [done|].
      by rewrite primary_store_promote_loop_other.
    + assert (k ≠ item.1) as Hne.
      { intros ->. apply Hfresh. apply list_elem_of_fmap. by exists (item.1, bv). }
      pose proof (primary_store_promote_step_ne st item k Hne) as Hsame.
      destruct (promote_step st item).2.
      * right. split; [done|]. done.
      * destruct (IH (promote_step st item).1 Hnd Hin) as [H|[Hr H]].
        -- left. rewrite H, Hsame. done.
        -- right. split; [done|]. by rewrite H.
Qed.

End PromotionFacts.

(** ** Serialisation of vector clocks *)

Section RoundTripFacts.
Import VC.

(** [int(str(k)) == k] for every integer. *)
Lemma py_int_py_str (k : Z) : py_int (py_str k) = Some k.
Proof.
  unfold py_int, py_str. rewrite NilZero.isi.
  - simpl. by rewrite DecimalZ.of_to.
  - destruct k; simpl; [done|..]; intros [= H];
      by apply Unsigned.to_uint_nonnil in H.
  - destruct k; simpl; [done|..]; intros [= H];
      by apply Unsigned.to_uint_nonnil in H.
Qed.

Lemma counter_of_json_nat (v : nat) : counter_of_json (JInt (Z.of_nat v)) = Some v.
Proof.
  unfold counter_of_json. rewrite decide_True by lia. by rewrite Nat2Z.id.
Qed.

Lemma from_dict_step_encoded (acc : gmap Z nat) (k : Z) (v : nat) :
  from_dict_step (Some acc) (py_str k, JInt (Z.of_nat v)) = Some (<[k := v]> acc).
Proof.
  unfold from_dict_step. cbn [mbind option_bind fst snd].
  rewrite py_int_py_str. cbn [mbind option_bind].
  by rewrite counter_of_json_nat.
Qed.

(** Reading back what [to_dict] wrote inserts the original items one by one. *)
Lemma from_dict_loop (l : list (Z * nat)) (acc : gmap Z nat) :
  foldl from_dict_step (Some acc)
    ((λ item : Z * nat, (py_str item.1, JInt (Z.of_nat item.2))) <$> l)
  = Some (foldl (λ m item, <[item.1 := item.2]> m) acc l).
Proof.
  revert acc. induction l as [|[k v] l IH]; intros acc; [done|].
  cbn [fmap list_fmap foldl fst snd]. rewrite from_dict_step_encoded. apply IH.
Qed.

Lemma insert_loop_other (l : list (Z * nat)) (acc : gmap Z nat) k :
  k ∉ l.*1 →
  foldl (λ m item, <[item.1 := item.2]> m) acc l !! k = acc !! k.
Proof.
  revert acc. induction l as [|[k' v] l IH]; intros acc Hk; simpl in *; [done|].
  apply not_elem_of_cons in Hk as [Hne Hk].
  rewrite IH by done. by rewrite lookup_insert_ne.
Qed.

Lemma insert_loop_item (l : list (Z * nat)) (acc : gmap Z nat) k v :
  NoDup l.*1 → (k, v) ∈ l →
  foldl (λ m item, <[item.1 := item.2]> m) acc l !! k = Some v.
Proof.
  revert acc. induction l as [|[k' v'] l IH]; intros acc Hnd Hin; simpl in *.
  - by apply elem_of_nil in Hin.
  - apply NoDup_cons in Hnd as [Hfresh Hnd].
    apply elem_of_cons in Hin as [[= <- <-]|Hin].
    + rewrite insert_loop_other by done. by rewrite lookup_insert_eq.
    + by apply IH.
Qed.

Lemma from_dict_to_dict (C : VectorClock) : from_dict (to_dict C) = Some C.
Proof.
  unfold from_dict, to_dict. rewrite from_dict_loop. simpl.
  destruct C as [m]. simpl. do 2 f_equal. apply map_eq. intros k.
  destruct (m !! k) as [v|] eqn:Ek.
  - apply insert_loop_item; [apply NoDup_fst_map_to_list|].
    by apply elem_of_map_to_list.
  - rewrite insert_loop_other; [done|].
    intros Hin. apply list_elem_of_fmap in Hin as [[k' v] [-> Hin]].
    apply elem_of_map_to_list in Hin. simpl in *. congruence.
Qed.

End RoundTripFacts.

(** ** Selecting the latest version *)

Section LatestFacts.
Import VC.

Implicit Types (v w c : VectorClock) (l versions : list VectorClock).

Lemma is_dominated_loop_spec v l :
  is_dominated_loop v l = true ↔ ∃ w, w ∈ l ∧ happens_before v w = true.
Proof.
  induction l as [|other l IH]; simpl.
  - split; [done|]. intros (w & Hw & _). by apply elem_of_nil in Hw.
  - destruct (happens_before other v) eqn:Hov.
    + rewrite IH. split.
      * intros (w & Hw & Hvw). exists w. split; [by right|done].
      * intros (w & Hw & Hvw). apply elem_of_cons in Hw as [->|Hw].
        -- apply happens_before_asym in Hov. congruence.
        -- by exists w.
    + destruct (happens_before v other) eqn:Hvo.
      * split; [|done]. intros _. exists other. split; [by left|done].
      * rewrite IH. split.
        -- intros (w & Hw & Hvw). exists w. split; [by right|done].
        -- intros (w & Hw & Hvw). apply elem_of_cons in Hw as [->|Hw].
           ++ congruence.
           ++ by exists w.
Qed.

Lemma candidates_loop_spec versions todo :
  candidates_loop versions todo
  = filter (λ v, is_dominated_loop v versions = false) todo.
Proof.
  induction todo as [|v todo IH]; simpl; [done|].
  destruct (is_dominated_loop v versions) eqn:Hv.
  - rewrite filter_cons_False by (rewrite Hv; done). exact IH.
  - rewrite filter_cons_True by done. by rewrite IH.
Qed.

(** In a finite list every version is a maximal one or strictly below a
    maximal one. *)
Lemma below_a_maximal l v :
  v ∈ l →
  ∃ c, c ∈ l ∧ is_dominated_loop c l = false
     ∧ (v = c ∨ happens_before v c = true).
Proof.
  remember (length (filter (λ w, happens_before v w = true) l)) as n eqn:Hn.
  revert v Hn. induction n as [n IH] using lt_wf_ind. intros v Hn Hv.
  destruct (is_dominated_loop v l) eqn:Hdom.
  - apply is_dominated_loop_spec in Hdom as (w & Hw & Hvw).
    destruct (IH (length (filter (λ x, happens_before w x = true) l)))
      with (v := w) as (c & Hc & Hmax & Hwc); [|done|done|].
    + subst n.
      rewrite <- (list_filter_filter_l
                    (λ x, happens_before w x = true)
                    (λ x, happens_before v x = true)).
      * apply (length_filter_lt _ _ w).
        -- apply list_elem_of_filter. by split.
        -- by rewrite happens_before_irrefl.
      * intros x Hwx. by apply happens_before_trans with w.
    + exists c. split; [done|]. split; [done|]. right.
      destruct Hwc as [<-|Hwc]; [done|].
      by apply happens_before_trans with w.
  - exists v. split; [done|]. split; [done|]. by left.
Qed.

(** When [get_latest_version] returns a version, it is in the list and every
    entry of the list is that version or strictly older. *)
Lemma get_latest_version_Some versions c :
  get_latest_version versions = Some c →
  c ∈ versions ∧ ∀ v, v ∈ versions → v = c ∨ happens_before v c = true.
Proof.
  unfold get_latest_version.
  destruct versions as [|v1 [|v2 rest]]; [done| |].
  - intros [= ->]. split; [by left|]. intros v Hv.
    apply list_elem_of_singleton in Hv. by left.
  - set (versions := v1 :: v2 :: rest).
    destruct (candidates_loop versions versions) as [|c' [|? ?]] eqn:Hcand;
      [done| |done].
    intros [= ->]. rewrite candidates_loop_spec in Hcand.
    assert (∀ x, x ∈ versions → is_dominated_loop x versions = false → x = c)
      as Honly.
    { intros x Hx Hmax.
      assert (x ∈ filter (λ v, is_dominated_loop v versions = false) versions)
        as Hin by (by apply list_elem_of_filter).
      rewrite Hcand in Hin. by apply list_elem_of_singleton in Hin. }
    split.
    + assert (c ∈ filter (λ v, is_dominated_loop v versions = false) versions)
        as Hin by (rewrite Hcand; by left).
      by apply list_elem_of_filter in Hin as [_ Hin].
    + intros v Hv. destruct (below_a_maximal versions v Hv) as (m & Hm & Hmax & Hvm).
      apply Honly in Hmax; [|done]. by subst m.
Qed.

Lemma filter_ext_elem {A} (P Q : A → Prop) `{!∀ x, Decision (P x)}
    `{!∀ x, Decision (Q x)} (l : list A) :
  (∀ x, x ∈ l → P x ↔ Q x) → filter P l = filter Q l.
Proof.
  induction l as [|x l IH]; intros Hext; [done|].
  rewrite !filter_cons. rewrite IH by (intros y Hy; apply Hext; by right).
  destruct (decide (P x)) as [HP|HP]; destruct (decide (Q x)) as [HQ|HQ];
    try done; exfalso; [apply HQ|apply HP]; apply (Hext x); done || by left.
Qed.

Lemma NoDup_fmap_elem_inj {A B} (f : A → B) (l : list A) (x y : A) :
  NoDup (f <$> l) → x ∈ l → y ∈ l → f x = f y → x = y.
Proof.
  induction l as [|z l IH]; intros Hnd Hx Hy Hf; [by apply elem_of_nil in Hx|].
  rewrite fmap_cons in Hnd. apply NoDup_cons in Hnd as [Hz Hnd].
  apply elem_of_cons in Hx as [->|Hx]; apply elem_of_cons in Hy as [->|Hy].
  - done.
  - destruct Hz. rewrite Hf. apply list_elem_of_fmap. by exists y.
  - destruct Hz. rewrite <- Hf. apply list_elem_of_fmap. by exists x.
  - by apply IH.
Qed.

Lemma NoDup_all_equal {A} (l : list A) (x : A) :
  NoDup l → x ∈ l → (∀ y, y ∈ l → y = x) → l = [x].
Proof.
  intros Hnd Hx Hall. destruct l as [|a [|b l]].
  - by apply elem_of_nil in Hx.
  - by rewrite (Hall a) by (by left).
  - apply NoDup_cons in Hnd as [Ha _]. exfalso. apply Ha.
    rewrite (Hall a) by (by left). rewrite <- (Hall b) at 1 by (right; by left).
    by left.
Qed.

(** Without repeated entries the function does return the single maximal
    version when there is one, and every other entry is strictly older. *)
Lemma get_latest_version_unique_maximal versions c :
  NoDup versions → c ∈ versions →
  (∀ v, v ∈ versions → is_dominated_loop v versions = false → v = c) →
  get_latest_version versions = Some c
  ∧ ∀ v, v ∈ versions → v ≠ c → happens_before v c = true.
Proof.
  intros Hnd Hc Honly.
  assert (∀ v, v ∈ versions → v = c ∨ happens_before v c = true) as Hbelow.
  { intros v Hv. destruct (below_a_maximal versions v Hv) as (m & Hm & Hmax & Hvm).
    apply Honly in Hmax; [|done]. by subst m. }
  assert (is_dominated_loop c versions = false) as Hcmax.
  { destruct (below_a_maximal versions c Hc) as (m & Hm & Hmax & Hcm).
    pose proof (Honly m Hm Hmax) as ->. done. }
  split; [|intros v Hv Hne; by destruct (Hbelow v Hv)].
  assert (candidates_loop versions versions = [c]) as Hcand.
  { rewrite candidates_loop_spec. apply NoDup_all_equal.
    - by apply NoDup_filter.
    - by apply list_elem_of_filter.
    - intros y Hy. apply list_elem_of_filter in Hy as [Hmax Hy]. by apply Honly. }
  unfold get_latest_version. destruct versions as [|v1 [|v2 rest]].
  - by apply elem_of_nil in Hc.
  - apply list_elem_of_singleton in Hc. by subst.
  - by rewrite Hcand.
Qed.

(** Without repeated entries, [None] means two different maximal versions. *)
Lemma get_latest_version_None versions :
  NoDup versions → versions ≠ [] →
  get_latest_version versions = None ↔
  ∃ v w, v ∈ versions ∧ w ∈ versions ∧ v ≠ w
       ∧ is_dominated_loop v versions = false
       ∧ is_dominated_loop w versions = false.
Proof.
  intros Hnd Hne.
  pose proof (candidates_loop_spec versions versions) as Hcand.
  assert (NoDup (candidates_loop versions versions)) as Hcnd.
  { rewrite Hcand. by apply NoDup_filter. }
  assert (∀ v, v ∈ candidates_loop versions versions
               ↔ is_dominated_loop v versions = false ∧ v ∈ versions) as Hin.
  { intros v. rewrite Hcand. by rewrite list_elem_of_filter. }
  split.
  - unfold get_latest_version. destruct versions as [|v0 [|v1 rest]]; [done..|].
    set (versions := v0 :: v1 :: rest) in *.
    destruct (candidates_loop versions versions) as [|a [|b cs]] eqn:Hc.
    + destruct (below_a_maximal versions v0 ltac:(by left))
        as (m & Hm & Hmax & _).
      assert (m ∈ @nil VectorClock) as Hnil by (by apply Hin).
      by apply elem_of_nil in Hnil.
    + done.
    + intros _. exists a, b.
      destruct (proj1 (Hin a) ltac:(by left)) as [Hamax Ha].
      destruct (proj1 (Hin b) ltac:(right; by left)) as [Hbmax Hb].
      repeat split; try done.
      intros ->. apply NoDup_cons in Hcnd as [Hab _]. apply Hab. by left.
  - intros (v & w & Hv & Hw & Hvw & Hvmax & Hwmax).
    assert (v ∈ candidates_loop versions versions) as Hvc by (by apply Hin).
    assert (w ∈ candidates_loop versions versions) as Hwc by (by apply Hin).
    unfold get_latest_version. destruct versions as [|v0 [|v1 rest]]; [done| |].
    + apply list_elem_of_singleton in Hv, Hw. congruence.
    + destruct (candidates_loop (v0 :: v1 :: rest) (v0 :: v1 :: rest))
        as [|a [|b cs]]; [done| |done].
      apply list_elem_of_singleton in Hvc, Hwc. congruence.
Qed.

End LatestFacts.

(** ** The read path of the quorum coordinator *)

Section QuorumFacts.
Import VC Routing Quorum.

Lemma classify_stale (reads : list Read) latest value stale :
  (classify reads latest value stale).2
  = stale ++ ((λ r : Read, r.1.1)
                <$> filter (λ r : Read, vc_eq r.2 latest = false) reads).
Proof.
  revert value stale. induction reads as [|[[node v] version] reads IH];
    intros value stale; simpl.
  - by rewrite app_nil_r.
  - destruct (vc_eq version latest) eqn:Heq.
    + rewrite IH. by rewrite filter_cons_False by (simpl; congruence).
    + rewrite IH. rewrite filter_cons_True by done. simpl.
      by rewrite <- app_assoc.
Qed.

(** [repair_replicas] addresses exactly the replicas it was given. *)
Lemma repair_replicas_targets (r : Repair) :
  (repair_replicas r).*1 = stale_replicas r.
Proof.
  unfold repair_replicas. rewrite <- list_fmap_compose.
  induction (stale_replicas r) as [|x l IH]; [done|].
  rewrite fmap_cons. by rewrite IH.
Qed.

End QuorumFacts.

(** ** Routing over the full-membership list *)

Section RoutingFacts.
Import Routing.

Implicit Types (nodes : list NodeInfo) (x y : NodeInfo) (id : Z).

Lemma first_at_or_after_Some nodes id x :
  first_at_or_after nodes id = Some x →
  ∃ before after, nodes = before ++ x :: after
    ∧ Forall (λ y, (node_id y < id)%Z) before ∧ (id ≤ node_id x)%Z.
Proof.
  induction nodes as [|y nodes IH]; simpl; [done|].
  destruct (id <=? node_id y)%Z eqn:Hle.
  - intros [= ->]. exists [], nodes. split; [done|]. split; [constructor|].
    by apply Z.leb_le.
  - intros Hx. destruct (IH Hx) as (before & after & -> & Hbefore & Hid).
    exists (y :: before), after. split; [done|]. split; [|done].
    constructor; [|done]. apply Z.leb_gt in Hle. lia.
Qed.

Lemma first_at_or_after_None nodes id :
  first_at_or_after nodes id = None → Forall (λ y, (node_id y < id)%Z) nodes.
Proof.
  induction nodes as [|y nodes IH]; simpl; [constructor|].
  destruct (id <=? node_id y)%Z eqn:Hle; [done|].
  intros Hnone. constructor; [|by apply IH]. apply Z.leb_gt in Hle. lia.
Qed.

Lemma find_successor_from_all_elem (self : FingerTable) id x :
  find_successor_from_all self id = Some x → x ∈ all_nodes self.
Proof.
  unfold find_successor_from_all.
  destruct (all_nodes self) as [|first rest] eqn:Hnodes; [done|].
  destruct (first_at_or_after (first :: rest) id) as [y|] eqn:Hfirst.
  - intros [= ->]. apply first_at_or_after_Some in Hfirst
      as (before & after & -> & _). apply elem_of_app. right. by left.
  - intros [= ->]. by left.
Qed.

(** Distance from [id] clockwise to [a] on a ring of size [M]. *)
Lemma ring_distance (a id M : Z) :
  (0 ≤ a < M)%Z → (0 ≤ id < M)%Z →
  ((a - id) mod M = if decide (id ≤ a) then a - id else a - id + M)%Z.
Proof.
  intros Ha Hid. destruct (decide (id ≤ a)%Z).
  - apply Z.mod_small. lia.
  - symmetry. apply (Z.mod_unique_pos _ _ (-1)); lia.
Qed.

Lemma sorted_by_id_NoDup nodes : sorted_by_id nodes → NoDup (node_id <$> nodes).
Proof.
  induction 1 as [|x nodes Hsorted IH Hx]; simpl; constructor; [|done].
  intros Hin. apply list_elem_of_fmap in Hin as (y & Heq & Hy).
  rewrite Forall_forall in Hx. apply Hx in Hy. lia.
Qed.

Lemma index_elem nodes x :
  x ∈ nodes →
  ∃ i y, index nodes x = Some i ∧ nodes !! i = Some y ∧ node_id y = node_id x.
Proof.
  induction nodes as [|z nodes IH]; intros Hx; [by apply elem_of_nil in Hx|].
  simpl. unfold node_eq. destruct (bool_decide (node_id z = node_id x)) eqn:Hz.
  - apply bool_decide_eq_true in Hz. by exists 0, z.
  - apply bool_decide_eq_false in Hz.
    apply elem_of_cons in Hx as [->|Hx]; [done|].
    destruct (IH Hx) as (i & y & -> & Hy & Hid). by exists (S i), y.
Qed.

Lemma same_id_same_node nodes x y :
  NoDup (node_id <$> nodes) → x ∈ nodes → y ∈ nodes →
  node_id x = node_id y → x = y.
Proof.
  intros Hnd Hx Hy Hid.
  apply list_elem_of_lookup in Hx as [i Hi].
  apply list_elem_of_lookup in Hy as [j Hj].
  assert (i = j) as ->.
  { eapply NoDup_lookup; [exact Hnd| |].
    - rewrite list_lookup_fmap, Hi. reflexivity.
    - rewrite list_lookup_fmap, Hj. simpl. by rewrite Hid. }
  congruence.
Qed.

Lemma walk_spec nodes start count :
  nodes ≠ [] →
  ∃ result, walk nodes start count = Some result
    ∧ length result = count
    ∧ ∀ i, i < count →
        result !! i = nodes !! ((start + i) mod length nodes).
Proof.
  intros Hne. unfold walk.
  assert (0 < length nodes) as Hlen by (destruct nodes; simpl; [done|lia]).
  destruct (mapM_is_Some_2
              (λ i, nodes !! ((start + i) mod length nodes)) (seq 0 count))
    as [result Hresult].
  { apply Forall_forall. intros i _. simpl. apply lookup_lt_is_Some.
    apply Nat.mod_upper_bound. lia. }
  exists result. split; [done|].
  pose proof (length_mapM _ _ _ Hresult) as Hl. rewrite length_seq in Hl.
  split; [done|]. intros i Hi.
  apply mapM_Some_1 in Hresult.
  destruct (Forall2_lookup_l _ _ _ i i Hresult) as (y & Hy & Hf).
  { by apply lookup_seq_lt. }
  by rewrite Hy, Hf.
Qed.

Lemma mod_shift_inj (s i j len : nat) :
  i < len → j < len → (s + i) mod len = (s + j) mod len → i = j.
Proof.
  intros Hi Hj Heq.
  pose proof (Nat.div_mod_eq (s + i) len) as H1.
  pose proof (Nat.div_mod_eq (s + j) len) as H2.
  rewrite Heq in H1.
  assert ((s + i) `div` len = (s + j) `div` len) by nia.
  nia.
Qed.

End RoutingFacts.

(** ** The message dispatcher *)

Section NetworkFacts.
Import Message Network.

Lemma value_inj (a b : MessageType) : value a = value b → a = b.
Proof. destruct a, b; simpl; intros H; first [reflexivity | discriminate H]. Qed.

Lemma same_type_spec (a b : MessageType) : same_type a b = true ↔ a = b.
Proof.
  unfold same_type. rewrite bool_decide_eq_true. split.
  - apply value_inj.
  - by intros ->.
Qed.

Context {World : Type}.

(** [handlers.get] finds nothing exactly when no handler was registered for
    the type. *)
Lemma handlers_get_None (hs : list (MessageType * Handler World)) t :
  handlers_get hs t = None ↔ ∀ h, (t, h) ∉ hs.
Proof.
  induction hs as [|[t' h'] hs IH]; simpl.
  - split; [|done]. intros _ h Hin. by apply elem_of_nil in Hin.
  - destruct (same_type t' t) eqn:Ht.
    + apply same_type_spec in Ht as ->. split; [done|].
      intros Hno. exfalso. apply (Hno h'). by left.
    + rewrite IH. split.
      * intros Hno h Hin. apply elem_of_cons in Hin as [[= -> ->]|Hin].
        -- rewrite (proj2 (same_type_spec t' t')) in Ht by done. done.
        -- by apply (Hno h).
      * intros Hno h Hin. apply (Hno h). by right.
Qed.

Lemma handlers_get_register (self : NetworkManager World) t h :
  handlers_get (handlers (register_handler self t h)) t = Some h.
Proof.
  simpl. by rewrite (proj2 (same_type_spec t t)).
Qed.

End NetworkFacts.

(** * The claims *)

Section Claims.
Import VC Storage Client Message Runtime Routing Quorum Network.

(** C1, as stated, fails for [ChordStorage.put_backup]: the storage layer
    files the version it is handed without merging or incrementing.  Node 50
    receives version {35: 1} for primary 35 into an empty store; the stored
    version [W] is {35: 1} itself, not {35: 1, 50: 1}: it is not the
    incremented maximum, [V] does not happen before it, and its entry for
    node 50 is not above the previous one. *)
Lemma put_backup_dominance_counterexample :
  let n := 50%Z in
  let p := 35%Z in
  let V := mkVC {[ 35%Z := 1 ]} in
  let st := Storage.init n writable false in
  let prev := default VC.empty (snd <$> get_backup st "test" p) in
  ∃ W, snd <$> get_backup (put_backup st "test" (JStr "v") V p).1 "test" p
         = Some W
     ∧ ¬ (∀ i, VC.get W i = (if decide (i = n) then S else id)
                              (Nat.max (VC.get prev i) (VC.get V i)))
     ∧ happens_before V W = false
     ∧ ¬ (VC.get prev n < VC.get W n).
Proof.
  intros n p V st prev. exists V. split; [|split; [|split]].
  - by rewrite get_backup_put_backup.
  - intros Hpt. specialize (Hpt 50%Z). vm_compute in Hpt. discriminate.
  - apply happens_before_irrefl.
  - vm_compute. lia.
Qed.

(** C1 (amended): the merge-then-increment is done by the PUT_REPLICA handler
    before it calls [put_backup].  After [handle_put_replica] on node [n] for
    key [k], value [v], incoming version [V] and primary [p], the stored
    backup version [W] is the element-wise maximum of the previously stored
    backup version for [(p, k)] (empty if none) and [V], incremented once at
    [n]; so [V] happens before [W], and [W[n]] exceeds the previous entry. *)
Theorem put_replica_backup_dominance (node : ChordNode) (msg : Message)
    (k : string) (v : JSON) (o : list (string * JSON)) (V : VectorClock) (p : Z) :
  dict_get (data msg) "key" = Some (JStr k) →
  dict_get (data msg) "value" = Some v →
  dict_get (data msg) "version" = Some (JObject o) →
  from_dict o = Some V →
  default (JInt (sender_id msg)) (dict_get (data msg) "primary_node_id") = JInt p →
  let n := Runtime.node_id node in
  let prev := default VC.empty (snd <$> get_backup (storage node) k p) in
  ∃ W, get_backup (storage (handle_put_replica node msg).1) k p = Some (v, W)
     ∧ (∀ i, VC.get W i = (if decide (i = n) then S else id)
                         (Nat.max (VC.get prev i) (VC.get V i)))
     ∧ vc_eq W (increment (update prev V) n) = true
     ∧ happens_before V W = true
     ∧ VC.get prev n < VC.get W n.
Proof.
  intros Hk Hv Hver HV Hp n prev.
  pose proof (put_replica_try_ok node msg k v o V p Hk Hv Hver HV Hp) as Htry.
  cbv zeta in Htry. rewrite (storage_handle_put_replica _ _ _ _ _ _ Htry).
  cbn [storage]. rewrite get_backup_put_backup, decide_True by done.
  eexists. split; [reflexivity|].
  assert (∀ i, VC.get (increment
             (match get_backup (storage node) k p with
              | Some (_, existing_version) => update (copy existing_version) V
              | None => copy V
              end) n) i
            = (if decide (i = n) then S else id) (Nat.max (VC.get prev i) (VC.get V i)))
    as Hpt.
  { intros i. rewrite get_increment. subst prev.
    destruct (get_backup (storage node) k p) as [[? existing]|];
      cbn [fmap option_fmap option_map default from_option snd id];
      rewrite ?get_update, ?get_copy, ?get_empty;
      destruct (decide (i = n)) as [->|]; cbn [id]; lia. }
  split; [exact Hpt|]. split; [|split].
  - apply vc_eq_spec. intros i. rewrite Hpt, get_increment, !get_update.
    destruct (decide (i = n)) as [->|]; simpl; lia.
  - apply happens_before_spec. split.
    + intros i. rewrite Hpt. destruct (decide (i = n)); simpl; lia.
    + exists n. rewrite Hpt, decide_True by done. lia.
  - rewrite Hpt, decide_True by done. lia.
Qed.

(** Node 62 holds backup version {50: 1, 62: 1} of key "test" for primary 35
    and receives version {50: 2} from node 50: it stores {50: 2, 62: 2}. *)
Lemma put_replica_backup_dominance_witness :
  let st := (put_backup (Storage.init 62 writable false) "test" (JStr "v1")
               (mkVC {[ 50%Z := 1; 62%Z := 1 ]}) 35).1 in
  let node := mkNode 62 "localhost:5002" st in
  let V := mkVC {[ 50%Z := 2 ]} in
  let msg := put_replica_msg 50 "localhost:5001" "m1" "test" (JStr "v2") V 35 in
  ∃ W, get_backup (storage (handle_put_replica node msg).1) "test" 35
         = Some (JStr "v2", W)
     ∧ VC.get W 50 = 2 ∧ VC.get W 62 = 2 ∧ happens_before V W = true.
Proof.
  intros st node V msg.
  destruct (put_replica_backup_dominance node msg "test" (JStr "v2")
              (to_dict V) V 35) as (W & HW & Hpt & _ & Hhb & _);
    [reflexivity | reflexivity | reflexivity | vm_compute; reflexivity
    | reflexivity |].
  exists W. split; [exact HW|]. split; [|split].
  - rewrite Hpt. vm_compute. reflexivity.
  - rewrite Hpt. vm_compute. reflexivity.
  - exact Hhb.
Defined.

(** C2 at the input where the code departs from it: two replicas return the
    same version {1: 1}.  The only maximal version is that one, and no two
    versions are concurrent, yet both list entries become candidates and
    [get_latest_version] reports a conflict. *)
Theorem get_latest_version_equal_versions :
  let A := mkVC {[ 1%Z := 1 ]} in
  let versions := [A; A] in
  get_latest_version versions = None
  ∧ candidates_loop versions versions = [A; A]
  ∧ (∀ v, v ∈ versions → is_dominated_loop v versions = false → v = A)
  ∧ (∀ v w, v ∈ versions → w ∈ versions → compare_versions v w = V1_eq_V2).
Proof.
  intros A versions. split; [|split; [|split]].
  - vm_compute. reflexivity.
  - vm_compute. reflexivity.
  - intros v Hv _. subst versions.
    apply elem_of_cons in Hv as [->|Hv]; [done|].
    by apply list_elem_of_singleton in Hv.
  - intros v w Hv Hw. subst versions.
    assert (v = A) as ->.
    { apply elem_of_cons in Hv as [->|Hv]; [done|].
      by apply list_elem_of_singleton in Hv. }
    assert (w = A) as ->.
    { apply elem_of_cons in Hw as [->|Hw]; [done|].
      by apply list_elem_of_singleton in Hw. }
    vm_compute. reflexivity.
Qed.

(** What the same input shape does to a quorum read: replica 10 is stale at
    {1: 1}, replicas 20 and 30 agree on the newer {1: 2}.  Both equal versions
    become candidates, the read falls back to the first answer, returns the
    stale value and schedules the two up-to-date replicas for repair. *)
Lemma quorum_get_equal_latest_versions :
  let n1 := mkNodeInfo 10 "localhost:5001" in
  let n2 := mkNodeInfo 20 "localhost:5002" in
  let n3 := mkNodeInfo 30 "localhost:5003" in
  let reads : list Read :=
    [(n1, JStr "old", mkVC {[ 1%Z := 1 ]}); (n2, JStr "new", mkVC {[ 1%Z := 2 ]});
     (n3, JStr "new", mkVC {[ 1%Z := 2 ]})] in
  let qm := mkQuorum 1 3 2 2 true in
  get_latest_version (reads.*2) = None
  ∧ quorum_get qm "k" [n1; n2; n3] (Reads reads)
    = Got (Some (JStr "old")) (mkVC {[ 1%Z := 1 ]})
        (Some (mkRepair "k" (Some (JStr "old")) (mkVC {[ 1%Z := 1 ]}) [n2; n3])).
Proof. intros n1 n2 n3 reads qm. split; vm_compute; reflexivity. Qed.

(** C3, as stated, fails on a conflict.  Replicas 10 and 20 answer with the
    concurrent versions {1: 1} and {2: 1}; the first is selected, and
    replica 20 is marked for repair although its version is not older than
    the selected one. *)
Lemma read_repair_only_older_counterexample :
  let n1 := mkNodeInfo 10 "localhost:5001" in
  let n2 := mkNodeInfo 20 "localhost:5002" in
  let reads : list Read :=
    [(n1, JStr "x", mkVC {[ 1%Z := 1 ]}); (n2, JStr "y", mkVC {[ 2%Z := 1 ]})] in
  let qm := mkQuorum 1 3 2 2 true in
  ¬ ∀ value version repair,
      quorum_get qm "k" [n1; n2] (Reads reads) = Got value version repair →
      ∀ r : Read, r ∈ reads →
        (r.1.1 ∈ from_option stale_replicas [] repair
         ↔ happens_before r.2 version = true).
Proof.
  intros n1 n2 reads qm Hclaim.
  specialize (Hclaim (Some (JStr "x")) (mkVC {[ 1%Z := 1 ]})
                (Some (mkRepair "k" (Some (JStr "x")) (mkVC {[ 1%Z := 1 ]}) [n2]))).
  assert (happens_before (mkVC {[ 2%Z := 1 ]}) (mkVC {[ 1%Z := 1 ]}) = true)
    as Hhb.
  { apply (Hclaim eq_refl (n2, JStr "y", mkVC {[ 2%Z := 1 ]})).
    - right. left.
    - simpl. left. }
  vm_compute in Hhb. discriminate.
Qed.

(** C3 (amended): in [quorum_get], when at least R responses are gathered
    and [get_latest_version] finds a latest version among them, that version
    wins, and the replicas marked for read-repair are exactly those whose
    returned version is strictly older than it (happens before it).  No
    answer is concurrent with the winner then; and with one answer per
    replica, a replica is marked if and only if its version is strictly
    older, so a replica that returned the winning version is not marked. *)
Theorem read_repair_marks_older (qm : QuorumManager) (key : string)
    (replicas : list NodeInfo) (reads : list Read) (latest : VectorClock) :
  replicas ≠ [] →
  (read_quorum qm ≤ Z.of_nat (length reads))%Z →
  get_latest_version (reads.*2) = Some latest →
  ∃ value stale,
    quorum_get qm key replicas (Reads reads)
    = Got value latest
        (if enable_read_repair qm && negb (bool_decide (stale = []))
         then Some (mkRepair key value latest stale) else None)
    ∧ stale = (λ r : Read, r.1.1)
                <$> filter (λ r : Read, happens_before r.2 latest = true) reads
    ∧ (∀ r : Read, r ∈ reads →
         r.2 = latest ∨ happens_before r.2 latest = true)
    ∧ (NoDup ((λ r : Read, Routing.node_id r.1.1) <$> reads) →
       ∀ r : Read, r ∈ reads →
         (r.1.1 ∈ stale ↔ happens_before r.2 latest = true)).
Proof.
  intros Hrep Hreads Hlatest. unfold quorum_get.
  destruct replicas as [|rep replicas]; [done|].
  rewrite (proj2 (Z.ltb_ge _ _)) by done.
  change ((λ r : Read, r.2) <$> reads) with (reads.*2). rewrite Hlatest.
  pose proof (classify_stale reads latest None []) as Hstale.
  destruct (classify reads latest None []) as [value stale]. simpl in Hstale.
  apply get_latest_version_Some in Hlatest as [_ Hall].
  assert (∀ r : Read, r ∈ reads →
            r.2 = latest ∨ happens_before r.2 latest = true) as Hbelow.
  { intros r Hr. apply Hall. apply list_elem_of_fmap. by exists r. }
  assert (stale = (λ r : Read, r.1.1)
                    <$> filter (λ r : Read, happens_before r.2 latest = true)
                          reads) as Hstale'.
  { rewrite Hstale. f_equal. apply filter_ext_elem. intros r Hr. split.
    - intros Hne. destruct (Hbelow r Hr) as [Heq|Hhb]; [|done].
      rewrite Heq, vc_eq_refl in Hne. done.
    - apply happens_before_not_eq. }
  exists value, stale. split; [done|]. split; [done|]. split; [done|].
  intros Hnd r Hr. rewrite Hstale'. split.
  - intros Hin. apply list_elem_of_fmap in Hin as (r' & Hnode & Hr').
    apply list_elem_of_filter in Hr' as [Hold Hr'].
    assert (r' = r) as <-; [|done].
    apply (NoDup_fmap_elem_inj (λ r : Read, Routing.node_id r.1.1) reads);
      [done..|]. simpl. by rewrite Hnode.
  - intros Hold. apply list_elem_of_fmap. exists r. split; [done|].
    by apply list_elem_of_filter.
Qed.

(** Replicas 10, 20 and 30 answer with versions {1: 1}, {1: 2} and {1: 1}:
    the middle one is the latest, replicas 10 and 30 are marked for repair
    and replica 20 is not. *)
Lemma read_repair_marks_older_witness :
  let n1 := mkNodeInfo 10 "localhost:5001" in
  let n2 := mkNodeInfo 20 "localhost:5002" in
  let n3 := mkNodeInfo 30 "localhost:5003" in
  let reads : list Read :=
    [(n1, JStr "old", mkVC {[ 1%Z := 1 ]}); (n2, JStr "new", mkVC {[ 1%Z := 2 ]});
     (n3, JStr "old", mkVC {[ 1%Z := 1 ]})] in
  let qm := mkQuorum 1 3 2 2 true in
  ∃ value stale,
    quorum_get qm "k" [n1; n2; n3] (Reads reads)
    = Got value (mkVC {[ 1%Z := 2 ]})
        (Some (mkRepair "k" value (mkVC {[ 1%Z := 2 ]}) stale))
    ∧ stale = [n1; n3]
    ∧ n2 ∉ stale.
Proof.
  intros n1 n2 n3 reads qm.
  destruct (read_repair_marks_older qm "k" [n1; n2; n3] reads
              (mkVC {[ 1%Z := 2 ]}))
    as (value & stale & Hget & Hstale & _ & Hmarked);
    [discriminate | vm_compute; discriminate | vm_compute; reflexivity |].
  assert (stale = [n1; n3]) as Heq by (rewrite Hstale; vm_compute; reflexivity).
  exists value, stale. split; [|split; [exact Heq|]].
  - rewrite Hget. by rewrite Heq.
  - intros Hin.
    assert (NoDup ((λ r : Read, Routing.node_id r.1.1) <$> reads)) as Hnd.
    { apply (bool_decide_unpack _). vm_compute. exact I. }
    apply (Hmarked Hnd (n2, JStr "new", mkVC {[ 1%Z := 2 ]})) in Hin.
    + vm_compute in Hin. discriminate.
    + right. left.
Defined.

(** C4, as stated, fails when the local and the backup version are
    concurrent.  Node 50 owns "k" at version {50: 1} and holds a backup of "k"
    for primary 35 at version {35: 1}; promotion keeps the local entry, whose
    version neither dominates nor equals {35: 1}. *)
Lemma promotion_safety_counterexample :
  let st0 := (put (Storage.init 50 writable false) "k" (JStr "x") None).1 in
  let st := (put_backup st0 "k" (JStr "y") (mkVC {[ 35%Z := 1 ]}) 35).1 in
  let st' := (transfer_backups_to_primary st 35).1 in
  (transfer_backups_to_primary st 35).2 = None
  ∧ ¬ ∀ k bv, get_backup st k 35 = Some bv →
        ∃ pv, Storage.get st' k = Some pv
            ∧ (dominates pv.2 bv.2 || vc_ge pv.2 bv.2) = true.
Proof.
  intros st0 st st'. split; [vm_compute; reflexivity|]. intros Hclaim.
  destruct (Hclaim "k" (JStr "y", mkVC {[ 35%Z := 1 ]})) as (pv & Hpv & Hdom);
    [vm_compute; reflexivity|].
  vm_compute in Hpv. injection Hpv as <-. vm_compute in Hdom. discriminate.
Qed.

(** It fails as well when a file write raises while promoting: the bucket is
    deleted only after the loop.  Node 50 stores persistently on a file
    system that cannot create the file of key "a/b" and holds a backup of
    that key for primary 35: the promotion ends with the exception, and the
    bucket is still there. *)
Lemma promotion_aborted_by_write_error :
  let st0 := Storage.init 50 (refuses "a/b") true in
  let st := (put_backup st0 "a/b" (JStr "y") (mkVC {[ 35%Z := 1 ]}) 35).1 in
  (transfer_backups_to_primary st 35).2
  = Some (OSError "No such file or directory")
  ∧ get_backup (transfer_backups_to_primary st 35).1 "a/b" 35
    = Some (JStr "y", mkVC {[ 35%Z := 1 ]}).
Proof. intros st0 st. split; vm_compute; reflexivity. Qed.

(** C4 (amended): when [transfer_backups_to_primary(p)] returns, the backup
    bucket of [p] is gone, and every key [k] that was in it is in the primary
    store: with the backup's entry if [k] was absent or its local version was
    strictly older than the backup's, otherwise with the unchanged local
    entry.  The resulting version is never strictly older than the promoted
    backup's version, and it dominates it whenever the local and the backup
    version were not concurrent.  The call returns whenever the primary
    files of the bucket's keys can be written.  When it ends with the
    exception of a file write instead, the backup store is as it was, and
    every key of the bucket has the entry just described or its old one. *)
Theorem promote_backups_keeps_later (st : ChordStorage) (p : Z) :
  let st' := (transfer_backups_to_primary st p).1 in
  let raised := (transfer_backups_to_primary st p).2 in
  ((∀ k, is_Some (get_backup st k p) → primary_writable st k) → raised = None)
  ∧ (raised = None →
     backup_store st' !! p = None
     ∧ ∀ k bv, get_backup st k p = Some bv →
         ∃ pv, Storage.get st' k = Some pv
             ∧ pv = match Storage.get st k with
                    | None => bv
                    | Some cur => if happens_before cur.2 bv.2 then bv else cur
                    end
             ∧ happens_before pv.2 bv.2 = false
             ∧ ((∀ cur, Storage.get st k = Some cur →
                   compare_versions cur.2 bv.2 ≠ Concurrent) →
                dominates pv.2 bv.2 = true))
  ∧ (raised ≠ None →
     backup_store st' = backup_store st
     ∧ ∀ k bv, get_backup st k p = Some bv →
         Storage.get st' k
         = Some match Storage.get st k with
                | None => bv
                | Some cur => if happens_before cur.2 bv.2 then bv else cur
                end
         ∨ Storage.get st' k = Storage.get st k).
Proof.
  intros st' raised. subst st' raised.
  unfold transfer_backups_to_primary, get_backup.
  destruct (backup_store st !! p) as [bucket|] eqn:Ebucket;
    [|split_and!; [done| |done]; intros _; by split].
  pose proof (backup_store_promote_loop (map_to_list bucket) st) as Hbackup.
  assert (∀ k bv, bucket !! k = Some bv →
            primary_store (promote_loop st (map_to_list bucket)).1 !! k
            = Some match primary_store st !! k with
                   | None => bv
                   | Some cur => if happens_before cur.2 bv.2 then bv else cur
                   end
            ∨ ((promote_loop st (map_to_list bucket)).2 ≠ None
               ∧ primary_store (promote_loop st (map_to_list bucket)).1 !! k
                 = primary_store st !! k)) as Hitem.
  { intros k bv Hbv. apply primary_store_promote_loop_item;
      [apply NoDup_fst_map_to_list|by apply elem_of_map_to_list]. }
  pose proof (promote_loop_writable (map_to_list bucket) st) as Hwritable.
  destruct (promote_loop st (map_to_list bucket)) as [st1 [e|]];
    cbn [fst snd] in *.
  - split_and!; [|done|].
    + intros Hw. apply Hwritable. intros [k bv] Hin%elem_of_map_to_list.
      apply Hw. simpl. by rewrite Hin.
    + intros _. split; [done|]. intros k bv Hbv. unfold Storage.get.
      destruct (Hitem k bv Hbv) as [H|[_ H]]; [by left|by right].
  - split_and!; [done| |done]. intros _. split.
    + simpl. by rewrite lookup_delete_eq.
    + intros k bv Hbv. unfold Storage.get. simpl.
      destruct (Hitem k bv Hbv) as [H|[H _]]; [|done]. rewrite H.
      eexists. split; [reflexivity|]. split; [reflexivity|].
      destruct (primary_store st !! k) as [cur|] eqn:Ecur.
      * destruct (happens_before cur.2 bv.2) eqn:Hhb.
        -- split; [apply happens_before_irrefl|]. intros _.
           apply dominates_spec. intros i. lia.
        -- split; [exact Hhb|]. intros Hcmp. specialize (Hcmp cur eq_refl).
           unfold compare_versions in Hcmp. rewrite Hhb in Hcmp.
           destruct (vc_eq cur.2 bv.2) eqn:Heq.
           { apply dominates_spec. intros i.
             apply vc_eq_spec with (k := i) in Heq. lia. }
           destruct (happens_before bv.2 cur.2) eqn:Hhb'; [|done].
           by apply happens_before_dominates.
      * split; [apply happens_before_irrefl|]. intros _.
        apply dominates_spec. intros i. lia.
Qed.

(** Node 50 owns "k" at {50: 1} and stores persistently; its backup of "k"
    for primary 35 carries the newer {50: 2}: promotion returns, installs the
    backup's entry and drops the bucket. *)
Lemma promote_backups_keeps_later_witness :
  let st0 := (put (Storage.init 50 writable true) "k" (JStr "x") None).1 in
  let st := (put_backup st0 "k" (JStr "y") (mkVC {[ 50%Z := 2 ]}) 35).1 in
  let st' := (transfer_backups_to_primary st 35).1 in
  (transfer_backups_to_primary st 35).2 = None
  ∧ backup_store st' !! 35%Z = None
  ∧ Storage.get st' "k" = Some (JStr "y", mkVC {[ 50%Z := 2 ]}).
Proof.
  intros st0 st st'.
  destruct (promote_backups_keeps_later st 35) as (Hreturns & Hdone & _).
  assert ((transfer_backups_to_primary st 35).2 = None) as Hnone.
  { apply Hreturns. intros k _. right. reflexivity. }
  destruct (Hdone Hnone) as [Hpurged Hkeys].
  split; [exact Hnone|]. split; [exact Hpurged|].
  destruct (Hkeys "k" (JStr "y", mkVC {[ 50%Z := 2 ]})) as (pv & Hpv & Heq & _);
    [vm_compute; reflexivity|].
  subst st'. rewrite Hpv, Heq. vm_compute. reflexivity.
Defined.

(** C5, as stated, fails in its first half: for a message type without a
    handler the dispatcher logs a warning and returns no reply at all.  A PING
    reaches a node on which nothing is registered; no ERROR message comes
    back. *)
Lemma dispatch_without_handler_counterexample :
  let nm : NetworkManager unit := mkNetwork 1 "localhost:5000" [] ∅ [] in
  let msg := mkMessage PING 2 "localhost:5001" "m1" [] in
  pending nm !! msg_id msg = None
  ∧ (∀ h, (msg_type msg, h) ∉ handlers nm)
  ∧ ¬ ∃ reply, (_dispatch_message nm () msg).2 = Some reply
             ∧ msg_type reply = ERROR.
Proof.
  intros nm msg. split; [done|]. split.
  - intros h Hin. by apply elem_of_nil in Hin.
  - intros (reply & Hreply & _). vm_compute in Hreply. discriminate.
Qed.

(** C5 (amended): for a received message that is not a reply to a pending
    request, if no handler is registered for its type the dispatcher returns
    no reply ([None]) and leaves all state as it was; if the registered
    handler raises an exception, the dispatcher returns an ERROR reply that
    carries the exception's text and the request's message id. *)
Theorem dispatch_error_replies {World : Type} (self : NetworkManager World)
    (w : World) (msg : Message) :
  pending self !! msg_id msg = None →
  ((∀ h, (msg_type msg, h) ∉ handlers self) →
   _dispatch_message self w msg = (self, w, None))
  ∧ (∀ handler w' e,
       handlers_get (handlers self) (msg_type msg) = Some handler →
       handler w msg = (w', Raised e) →
       ∃ reply, _dispatch_message self w msg = (self, w', Some reply)
         ∧ msg_type reply = ERROR
         ∧ data reply = [("error", JStr e)]
         ∧ msg_id reply = msg_id msg
         ∧ sender_id reply = Network.node_id self
         ∧ sender_address reply = Network.address self).
Proof.
  intros Hpending. unfold _dispatch_message. rewrite Hpending. split.
  - intros Hno. apply handlers_get_None in Hno. by rewrite Hno.
  - intros handler w' e Hget Hraise. rewrite Hget, Hraise.
    eexists. split; [reflexivity|]. done.
Qed.

(** A node whose PUT handler raises "boom" answers a PUT with an ERROR
    message carrying "boom", and answers a PING, for which nothing is
    registered, with nothing. *)
Lemma dispatch_error_replies_witness :
  let failing : Handler unit := λ w _, (w, Raised "boom") in
  let nm : NetworkManager unit :=
    register_handler (mkNetwork 1 "localhost:5000" [] ∅ []) PUT failing in
  let put_msg := mkMessage PUT 2 "localhost:5001" "m1" [] in
  let ping_msg := mkMessage PING 2 "localhost:5001" "m2" [] in
  _dispatch_message nm () ping_msg = (nm, (), None)
  ∧ ∃ reply, _dispatch_message nm () put_msg = (nm, (), Some reply)
      ∧ data reply = [("error", JStr "boom")].
Proof.
  intros failing nm put_msg ping_msg. split.
  - apply (dispatch_error_replies nm () ping_msg); [done|].
    intros h Hin. apply elem_of_cons in Hin as [[= ? ?]|Hin].
    by apply elem_of_nil in Hin.
  - destruct (dispatch_error_replies nm () put_msg) as [_ Hraise]; [done|].
    destruct (Hraise failing () "boom") as (reply & Hreply & _ & Hdata & _);
      [reflexivity | reflexivity |].
    exists reply. split; [exact Hreply|exact Hdata].
Defined.

(** C6: with a non-empty full-membership list, sorted by node id with distinct
    ids, [find_successor_from_all(id)] returns the first node whose id is at
    least [id], or the first node of the list when there is none; and that
    node is the unique one minimising [(node_id - id) mod 2^m], for
    identifiers and node ids of the m-bit ring. *)
Theorem find_successor_from_all_minimises (self : FingerTable) (id : Z) :
  all_nodes self ≠ [] →
  sorted_by_id (all_nodes self) →
  (∀ x, x ∈ all_nodes self → (0 ≤ Routing.node_id x < max_id self)%Z) →
  (0 ≤ id < max_id self)%Z →
  ∃ n, find_successor_from_all self id = Some n
    ∧ n ∈ all_nodes self
    ∧ ((∃ before after, all_nodes self = before ++ n :: after
          ∧ Forall (λ y, (Routing.node_id y < id)%Z) before
          ∧ (id ≤ Routing.node_id n)%Z)
       ∨ (Forall (λ y, (Routing.node_id y < id)%Z) (all_nodes self)
          ∧ head (all_nodes self) = Some n))
    ∧ (∀ x, x ∈ all_nodes self → x ≠ n →
         ((Routing.node_id n - id) mod max_id self
          < (Routing.node_id x - id) mod max_id self)%Z).
Proof.
  intros Hne Hsorted Hrange Hid. unfold find_successor_from_all.
  destruct (all_nodes self) as [|first rest] eqn:Hnodes; [done|].
  destruct (first_at_or_after (first :: rest) id) as [n|] eqn:Hfirst.
  - exists n. split; [done|].
    destruct (first_at_or_after_Some _ _ _ Hfirst)
      as (before & after & Heq & Hbefore & Hn).
    assert (n ∈ first :: rest) as Hin.
    { rewrite Heq. apply elem_of_app. right. by left. }
    split; [done|]. split; [left; by exists before, after|].
    intros x Hx Hxn.
    pose proof (Hrange x Hx) as Hxr. pose proof (Hrange n Hin) as Hnr.
    rewrite (ring_distance (Routing.node_id n)),
      (ring_distance (Routing.node_id x)) by done.
    rewrite Heq in Hx, Hsorted.
    apply elem_of_app in Hx as [Hx|Hx].
    + rewrite Forall_forall in Hbefore. apply Hbefore in Hx.
      repeat case_decide; lia.
    + apply elem_of_cons in Hx as [->|Hx]; [done|].
      apply StronglySorted_app in Hsorted as (_ & _ & Hsorted).
      apply StronglySorted_cons in Hsorted as [Hafter _].
      rewrite Forall_forall in Hafter. apply Hafter in Hx.
      repeat case_decide; lia.
  - exists first. split; [done|]. split; [by left|].
    pose proof (first_at_or_after_None _ _ Hfirst) as Hall.
    split; [right; by split|].
    intros x Hx Hxn.
    pose proof (Hrange x Hx) as Hxr.
    pose proof (Hrange first ltac:(by left)) as Hfr.
    rewrite (ring_distance (Routing.node_id first)),
      (ring_distance (Routing.node_id x)) by done.
    apply StronglySorted_cons in Hsorted as [Hrest _].
    rewrite Forall_forall in Hall, Hrest.
    pose proof (Hall first ltac:(by left)) as Hf.
    pose proof (Hall x Hx) as Hxlt.
    apply elem_of_cons in Hx as [->|Hx]; [done|]. apply Hrest in Hx.
    repeat case_decide; lia.
Qed.

(** The ring of nodes 10, 30 and 50 with m = 6: identifier 20 belongs to node
    30, identifier 55 wraps to node 10. *)
Lemma find_successor_from_all_minimises_witness :
  let nodes := [mkNodeInfo 10 "a"; mkNodeInfo 30 "b"; mkNodeInfo 50 "c"] in
  let ft := mkFingerTable 10 6 [] nodes in
  find_successor_from_all ft 20 = Some (mkNodeInfo 30 "b")
  ∧ find_successor_from_all ft 55 = Some (mkNodeInfo 10 "a").
Proof.
  intros nodes ft.
  assert (sorted_by_id nodes) as Hsorted.
  { repeat constructor; simpl; lia. }
  assert (∀ x, x ∈ all_nodes ft → (0 ≤ Routing.node_id x < max_id ft)%Z)
    as Hrange.
  { intros x Hx. simpl in Hx. unfold max_id. simpl.
    repeat (apply elem_of_cons in Hx as [->|Hx]; [simpl; lia|]).
    by apply elem_of_nil in Hx. }
  destruct (find_successor_from_all_minimises ft 20) as (n & Hn & _);
    [done | done | done | unfold max_id; simpl; lia |].
  destruct (find_successor_from_all_minimises ft 55) as (n' & Hn' & _);
    [done | done | done | unfold max_id; simpl; lia |].
  split; [rewrite Hn; revert Hn|rewrite Hn'; revert Hn']; vm_compute; done.
Defined.

(** C7: with a non-empty full-membership list (sorted by node id, distinct
    ids) and [n >= 1], [get_n_successors(id, n)] returns exactly
    [min(n, number of known nodes)] nodes, with pairwise distinct ids, that
    are the consecutive entries of the sorted list, wrapping at its end,
    starting at the node responsible for [id]. *)
Theorem get_n_successors_arc (self : FingerTable) (id n : Z) :
  all_nodes self ≠ [] →
  (1 ≤ n)%Z →
  sorted_by_id (all_nodes self) →
  ∃ result responsible start,
    get_n_successors self id n = Some result
    ∧ length result = Nat.min (Z.to_nat n) (length (all_nodes self))
    ∧ NoDup (Routing.node_id <$> result)
    ∧ find_successor_from_all self id = Some responsible
    ∧ all_nodes self !! start = Some responsible
    ∧ head result = Some responsible
    ∧ (∀ i, i < length result →
         result !! i
         = all_nodes self !! ((start + i) mod length (all_nodes self))).
Proof.
  intros Hne Hn Hsorted. unfold get_n_successors.
  rewrite bool_decide_eq_false_2 by done.
  rewrite (proj2 (Z.leb_gt _ _)) by lia. simpl.
  pose proof (sorted_by_id_NoDup _ Hsorted) as Hnd.
  destruct (find_successor_from_all self id) as [responsible|] eqn:Hresp.
  2: { unfold find_successor_from_all in Hresp.
       destruct (all_nodes self); [done|].
       by destruct (first_at_or_after _ _). }
  pose proof (find_successor_from_all_elem _ _ _ Hresp) as Hin.
  destruct (index_elem _ _ Hin) as (start & y & Hidx & Hy & Hid).
  assert (y = responsible) as ->.
  { eapply same_id_same_node; [exact Hnd| |done|done].
    apply list_elem_of_lookup. eauto. }
  rewrite Hidx.
  set (count := Z.to_nat (Z.min n (Z.of_nat (length (all_nodes self))))).
  assert (count = Nat.min (Z.to_nat n) (length (all_nodes self))) as Hcount
    by (subst count; lia).
  destruct (walk_spec (all_nodes self) start count Hne)
    as (result & Hwalk & Hlen & Hlookup).
  assert (0 < length (all_nodes self)) as Hpos.
  { destruct (all_nodes self); simpl; [done|lia]. }
  assert (start < length (all_nodes self)) as Hstart.
  { apply lookup_lt_is_Some. eauto. }
  exists result, responsible, start. split; [done|].
  split; [lia|]. split; [|split; [done|split; [done|split]]].
  - apply NoDup_alt. intros i j x Hi Hj.
    rewrite list_lookup_fmap in Hi, Hj.
    destruct (result !! i) as [a|] eqn:Ha; [|done].
    destruct (result !! j) as [b|] eqn:Hb; [|done].
    simpl in Hi, Hj.
    assert (i < count) as Hic
      by (rewrite <- Hlen; apply lookup_lt_is_Some; eauto).
    assert (j < count) as Hjc
      by (rewrite <- Hlen; apply lookup_lt_is_Some; eauto).
    rewrite Hlookup in Ha, Hb by done.
    apply (mod_shift_inj start i j (length (all_nodes self))); [lia|lia|].
    eapply NoDup_lookup; [exact Hnd| |].
    + rewrite list_lookup_fmap, Ha. exact Hi.
    + rewrite list_lookup_fmap, Hb. exact Hj.
  - rewrite head_lookup, Hlookup by lia.
    rewrite Nat.add_0_r, Nat.mod_small by done. done.
  - intros i Hi. apply Hlookup. lia.
Qed.

(** On the ring of nodes 10, 30 and 50, the two successors of identifier 40
    are nodes 50 and 10; asking for five yields all three, starting at 50. *)
Lemma get_n_successors_arc_witness :
  let nodes := [mkNodeInfo 10 "a"; mkNodeInfo 30 "b"; mkNodeInfo 50 "c"] in
  let ft := mkFingerTable 10 6 [] nodes in
  get_n_successors ft 40 2 = Some [mkNodeInfo 50 "c"; mkNodeInfo 10 "a"]
  ∧ ∃ result, get_n_successors ft 40 5 = Some result ∧ length result = 3.
Proof.
  intros nodes ft.
  assert (sorted_by_id nodes) as Hsorted.
  { repeat constructor; simpl; lia. }
  split; [vm_compute; reflexivity|].
  destruct (get_n_successors_arc ft 40 5)
    as (result & _ & _ & Hget & Hlen & _); [done | lia | done |].
  exists result. split; [exact Hget|exact Hlen].
Defined.

(** C8: [VectorClock.from_dict(C.to_dict())] equals [C].  [to_dict] writes
    every node id as its decimal string, [from_dict] parses the strings back
    to integers, and [__eq__] compares the counters of all node ids, a missing
    one counting as zero. *)
Theorem from_dict_to_dict_roundtrip (C : VectorClock) :
  (to_dict C).*1 = py_str <$> (map_to_list (clock C)).*1
  ∧ (∃ C', from_dict (to_dict C) = Some C'
         ∧ vc_eq C' C = true
         ∧ clock C' = clock C)
  ∧ (∀ A B, vc_eq A B = true ↔ ∀ i, VC.get A i = VC.get B i).
Proof.
  split; [|split].
  - unfold to_dict. rewrite <- !list_fmap_compose. done.
  - exists C. rewrite from_dict_to_dict. by rewrite vc_eq_refl.
  - apply vc_eq_spec.
Qed.

(** C9, as stated, fails for a key whose file cannot be written.  Node 50
    stores persistently on a file system that cannot create the file of key
    "a/b" (no such directory): [put] files the value in memory under {50: 1},
    writes nothing, and ends with the exception instead of returning a
    version. *)
Lemma put_returns_version_counterexample :
  let st := Storage.init 50 (refuses "a/b") true in
  let st' := (put st "a/b" (JStr "v") None).1 in
  put_result st "a/b" (JStr "v") None
  = Raise (OSError "No such file or directory")
  ∧ Storage.get st' "a/b" = Some (JStr "v", mkVC {[ 50%Z := 1 ]})
  ∧ disk st' = []
  ∧ ¬ ∃ version, put_result st "a/b" (JStr "v") None = Ok version.
Proof.
  intros st st'. split_and!; try (vm_compute; reflexivity).
  intros [version H]. vm_compute in H. discriminate.
Qed.

(** C9 (amended): when the primary file of [k] can be written (or the
    storage does not persist), [put(k, v)] without a version stores and
    returns the prior primary version of [k] (empty if absent) with this
    node's counter incremented by exactly one, so the prior version happens
    before the new one; and successive such puts of [k] all return, with
    versions strictly increasing in happens-before order. *)
Theorem put_increments_own_counter (st : ChordStorage) (k : string) (v : JSON)
    (vs : list JSON) :
  primary_writable st k →
  let prior := default VC.empty (get_version st k) in
  let st' := (put st k v None).1 in
  ∃ version,
    put_result st k v None = Ok version
    ∧ Storage.get st' k = Some (v, version)
    ∧ (∀ i, VC.get version i
            = if decide (i = Storage.node_id st) then VC.get prior i + 1
              else VC.get prior i)
    ∧ happens_before prior version = true
    ∧ ∃ versions,
        successive_puts st k vs = Ok versions
        ∧ length versions = length vs
        ∧ ∀ i j vi vj, i < j →
            versions !! i = Some vi →
            versions !! j = Some vj →
            happens_before vi vj = true.
Proof.
  intros Hw prior st'. subst st' prior.
  exists (put st k v None).2. split_and!.
  - by apply put_result_writable.
  - unfold Storage.get. by rewrite primary_store_put, lookup_insert_eq.
  - intros i. rewrite version_put_none, get_increment.
    by destruct (decide (i = Storage.node_id st)) as [->|].
  - rewrite version_put_none. apply happens_before_increment.
  - destruct (successive_puts_writable st k vs Hw) as (versions & Hok & Hlen).
    exists versions. split_and!; [done..|].
    intros i j vi vj. by apply (successive_puts_increasing st k vs).
Qed.

(** Node 50, storing persistently where every file can be written, writes
    "test" twice: the versions are {50: 1} then {50: 2}. *)
Lemma put_increments_own_counter_witness :
  let st := Storage.init 50 writable true in
  let vs := [JStr "v1"; JStr "v2"] in
  successive_puts st "test" vs
  = Ok [mkVC {[ 50%Z := 1 ]}; mkVC {[ 50%Z := 2 ]}]
  ∧ happens_before (mkVC {[ 50%Z := 1 ]}) (mkVC {[ 50%Z := 2 ]}) = true.
Proof.
  intros st vs. split; [vm_compute; reflexivity|].
  destruct (put_increments_own_counter st "test" (JStr "v1") vs)
    as (_ & _ & _ & _ & _ & versions & Hok & _ & Hseq);
    [right; reflexivity|].
  assert (versions = [mkVC {[ 50%Z := 1 ]}; mkVC {[ 50%Z := 2 ]}]) as ->.
  { revert Hok. vm_compute. by intros [= <-]. }
  apply (Hseq 0 1); [lia | reflexivity | reflexivity].
Defined.

(** C10: the primary and backup stores are disjoint state.  [put] changes
    only the primary entry of [k] and leaves every other primary key and the
    whole backup store as they were; [put_backup] changes only the entry of
    [k] in bucket [p] and leaves the primary store, every other bucket and
    every other key of bucket [p] as they were. *)
Theorem put_and_put_backup_frame (st : ChordStorage) (k : string) (v : JSON)
    (version : option VectorClock) (V : VectorClock) (p : Z) :
  let st1 := (put st k v version).1 in
  let st2 := (put_backup st k v V p).1 in
  (Storage.get st1 k = Some (v, (put st k v version).2)
   ∧ (∀ k', k' ≠ k → Storage.get st1 k' = Storage.get st k')
   ∧ backup_store st1 = backup_store st)
  ∧ (get_backup st2 k p = Some (v, V)
     ∧ primary_store st2 = primary_store st
     ∧ (∀ p', p' ≠ p → backup_store st2 !! p' = backup_store st !! p')
     ∧ (∀ k', k' ≠ k → get_backup st2 k' p = get_backup st k' p)).
Proof.
  intros st1 st2. subst st1 st2. unfold Storage.get. repeat split.
  - by rewrite primary_store_put, lookup_insert_eq.
  - intros k' Hk. by rewrite primary_store_put, lookup_insert_ne.
  - apply backup_store_put.
  - by rewrite get_backup_put_backup, decide_True.
  - apply primary_store_put_backup.
  - intros p' Hp. by rewrite backup_store_put_backup, lookup_insert_ne.
  - intros k' Hk. rewrite get_backup_put_backup, decide_False; [done|tauto].
Qed.

(** A store holding primary keys "a", "b" and a backup of "a" for node 35:
    writing "a" again leaves "b" and the backups alone. *)
Lemma put_and_put_backup_frame_witness :
  let st0 := (put (Storage.init 50 writable true) "a" (JStr "1") None).1 in
  let st1 := (put st0 "b" (JStr "2") None).1 in
  let st := (put_backup st1 "a" (JStr "3") (mkVC {[ 35%Z := 1 ]}) 35).1 in
  Storage.get (put st "a" (JStr "4") None).1 "b" = Storage.get st "b"
  ∧ backup_store (put st "a" (JStr "4") None).1 = backup_store st
  ∧ get_backup (put_backup st "b" (JStr "5") (mkVC {[ 35%Z := 2 ]}) 35).1 "a" 35
    = get_backup st "a" 35.
Proof.
  intros st0 st1 st.
  destruct (put_and_put_backup_frame st "a" (JStr "4") None VC.empty 35)
    as ((_ & Hother & Hbackup) & _).
  destruct (put_and_put_backup_frame st "b" (JStr "5") None
              (mkVC {[ 35%Z := 2 ]}) 35) as (_ & (_ & _ & _ & Hkeys)).
  split; [|split].
  - apply Hother. discriminate.
  - exact Hbackup.
  - apply Hkeys. discriminate.
Defined.

End Claims.

(** * Further properties of the code *)

(** ** Vector clocks as a lattice of versions *)

Section VectorClockOrder.
Import VC.

Implicit Types (a b c : VectorClock) (k n : Z).

Lemma vc_eq_sym a b : vc_eq a b = vc_eq b a.
Proof.
  apply eq_true_iff_eq. rewrite !vc_eq_spec.
  split; intros H k; by rewrite H.
Qed.

Lemma vc_eq_trans a b c : vc_eq a b = true → vc_eq b c = true → vc_eq a c = true.
Proof. rewrite !vc_eq_spec. intros H1 H2 k. by rewrite H1. Qed.

Lemma forallb_false {A} (f : A → bool) (l : list A) :
  forallb f l = false → ∃ x, x ∈ l ∧ f x = false.
Proof.
  induction l as [|y l IH]; simpl; [done|].
  destruct (f y) eqn:Hy; simpl.
  - intros H. destruct (IH H) as (x & Hx & Hfx). exists x. split; [by right|done].
  - intros _. exists y. split; [by left|done].
Qed.

Lemma vc_eq_false a b : vc_eq a b = false → ∃ k, get a k ≠ get b k.
Proof.
  unfold vc_eq. rewrite eq_loop_spec. intros H.
  apply forallb_false in H as (k & _ & Hk). exists k. by apply Nat.eqb_neq.
Qed.

Lemma dominates_false a b : dominates a b = false → ∃ k, get a k < get b k.
Proof.
  unfold dominates. rewrite dominates_loop_spec. intros H.
  apply forallb_false in H as (k & _ & Hk). exists k. by apply Nat.leb_gt.
Qed.

Lemma dominates_eq_vc_ge a b : dominates a b = vc_ge a b.
Proof.
  apply eq_true_iff_eq. unfold vc_ge.
  rewrite orb_true_iff, dominates_spec, happens_before_spec. split.
  - intros Hall. destruct (vc_eq a b) eqn:Heq; [by right|]. left.
    split; [done|]. apply vc_eq_false in Heq as [k Hk]. exists k.
    specialize (Hall k). lia.
  - intros [[Hall _]|Heq] k; [done|].
    apply vc_eq_spec with (k := k) in Heq. lia.
Qed.

(** X1: [update] is the least upper bound.  After [a.update(b)] the clock
    dominates both the old [a] and [b], and every clock that dominates both
    dominates it. *)
Theorem update_least_upper_bound a b :
  dominates (update a b) a = true
  ∧ dominates (update a b) b = true
  ∧ ∀ c, dominates c a = true → dominates c b = true →
         dominates c (update a b) = true.
Proof.
  rewrite !dominates_spec. split; [|split].
  - intros k. rewrite get_update. lia.
  - intros k. rewrite get_update. lia.
  - intros c. rewrite !dominates_spec. intros Ha Hb k.
    rewrite get_update. specialize (Ha k). specialize (Hb k). lia.
Qed.

(** X2: up to [__eq__], [update] is idempotent, commutative and associative,
    and updating with the empty clock changes nothing. *)
Theorem update_semilattice a b c :
  vc_eq (update a a) a = true
  ∧ vc_eq (update a b) (update b a) = true
  ∧ vc_eq (update (update a b) c) (update a (update b c)) = true
  ∧ vc_eq (update a VC.empty) a = true.
Proof.
  rewrite !vc_eq_spec. repeat split; intros k;
    rewrite ?get_update, ?get_empty; lia.
Qed.

(** X3: [merge(other, node_id)], used when a message is received, yields a
    clock strictly after both the receiver's and the sender's clock; the
    receiver's own counter is one more than the larger of the two. *)
Theorem merge_after_both a b n :
  happens_before a (merge a b n) = true
  ∧ happens_before b (merge a b n) = true
  ∧ get (merge a b n) n = Nat.max (get a n) (get b n) + 1
  ∧ ∀ k, k ≠ n → get (merge a b n) k = Nat.max (get a k) (get b k).
Proof.
  unfold merge. split; [|split; [|split]].
  - apply happens_before_spec. split.
    + intros k. rewrite get_increment, !get_update. case_decide; subst; lia.
    + exists n. rewrite get_increment, get_update, decide_True by done. lia.
  - apply happens_before_spec. split.
    + intros k. rewrite get_increment, !get_update. case_decide; subst; lia.
    + exists n. rewrite get_increment, get_update, decide_True by done. lia.
  - by rewrite get_increment, decide_True, get_update.
  - intros k Hk. by rewrite get_increment, decide_False, get_update.
Qed.

(** [compare_versions] in terms of the comparisons it makes. *)
Lemma compare_versions_cases a b :
  (compare_versions a b = V1_eq_V2 ↔ vc_eq a b = true)
  ∧ (compare_versions a b = V1_lt_V2 ↔ happens_before a b = true)
  ∧ (compare_versions a b = V1_gt_V2 ↔ happens_before b a = true)
  ∧ (compare_versions a b = Concurrent ↔
       vc_eq a b = false ∧ happens_before a b = false
       ∧ happens_before b a = false).
Proof.
  unfold compare_versions.
  destruct (vc_eq a b) eqn:Heq.
  - assert (happens_before a b = false) as Hab.
    { apply not_true_is_false. intros H.
      apply happens_before_not_eq in H. congruence. }
    assert (happens_before b a = false) as Hba.
    { apply not_true_is_false. intros H.
      apply happens_before_not_eq in H. rewrite vc_eq_sym in H. congruence. }
    rewrite Hab, Hba. repeat split; try done; intros (? & ? & ?); done.
  - destruct (happens_before a b) eqn:Hab.
    + rewrite (happens_before_asym _ _ Hab).
      repeat split; try done; intros (? & ? & ?); done.
    + destruct (happens_before b a) eqn:Hba; repeat split; try done.
      intros (? & ? & ?); done.
Qed.

(** X4: [compare_versions] classifies every pair: "v1=v2" exactly when all
    counters agree, "v1<v2" and "v1>v2" exactly for the strict pointwise
    order in either direction, and "concurrent" exactly when each clock is
    ahead of the other somewhere. *)
Theorem compare_versions_classifies a b :
  (compare_versions a b = V1_eq_V2 ↔ ∀ k, get a k = get b k)
  ∧ (compare_versions a b = V1_lt_V2 ↔
       (∀ k, get a k ≤ get b k) ∧ ∃ k, get a k < get b k)
  ∧ (compare_versions a b = V1_gt_V2 ↔
       (∀ k, get b k ≤ get a k) ∧ ∃ k, get b k < get a k)
  ∧ (compare_versions a b = Concurrent ↔
       (∃ k, get a k < get b k) ∧ ∃ k, get b k < get a k).
Proof.
  destruct (compare_versions_cases a b) as (H1 & H2 & H3 & H4).
  rewrite H1, H2, H3, H4, vc_eq_spec, !happens_before_spec.
  split; [done|]. split; [done|]. split; [done|].
  split.
  - intros (Hne & Hab & Hba).
    pose proof (dominates_eq_vc_ge a b) as Hge.
    pose proof (dominates_eq_vc_ge b a) as Hle.
    unfold vc_ge in Hge, Hle. rewrite (vc_eq_sym b a) in Hle.
    rewrite Hba, Hne in Hge. rewrite Hab, Hne in Hle. simpl in Hge, Hle.
    split; [by apply dominates_false|by apply dominates_false].
  - intros [[k Hk] [j Hj]]. split; [|split]; apply not_true_is_false.
    + rewrite vc_eq_spec. intros H. specialize (H k). lia.
    + rewrite happens_before_spec. intros [H _]. specialize (H j). lia.
    + rewrite happens_before_spec. intros [H _]. specialize (H k). lia.
Qed.

(** X5: the comparison operators agree with [dominates]: [a >= b] is
    [a.dominates(b)] and [a <= b] is [b.dominates(a)]; [<=] is reflexive and
    transitive, and two clocks that are [<=] each other are equal under
    [__eq__]. *)
Theorem comparison_operators_order a b c :
  vc_ge a b = dominates a b
  ∧ vc_le a b = dominates b a
  ∧ vc_le a a = true
  ∧ (vc_le a b = true → vc_le b c = true → vc_le a c = true)
  ∧ (vc_le a b = true → vc_le b a = true → vc_eq a b = true).
Proof.
  assert (∀ x y, vc_le x y = dominates y x) as Hle.
  { intros x y. rewrite dominates_eq_vc_ge. unfold vc_le, vc_ge.
    by rewrite (vc_eq_sym y x). }
  split; [by rewrite dominates_eq_vc_ge|]. split; [apply Hle|].
  rewrite !Hle, !dominates_spec, vc_eq_spec. split; [done|]. split.
  - intros H1 H2 k. specialize (H1 k). specialize (H2 k). lia.
  - intros H1 H2 k. specialize (H1 k). specialize (H2 k). lia.
Qed.

(** X6: [__eq__] is an equivalence that looks at counters only: a clock with
    an explicit zero entry equals the clock without it although their dicts
    differ, and [happens_before] and [dominates] cannot tell equal clocks
    apart. *)
Theorem eq_ignores_zero_entries a b c (m : gmap Z nat) k :
  vc_eq a a = true
  ∧ vc_eq a b = vc_eq b a
  ∧ (vc_eq a b = true → vc_eq b c = true → vc_eq a c = true)
  ∧ (m !! k = None →
       vc_eq (mkVC (<[k := 0]> m)) (mkVC m) = true ∧ <[k := 0]> m ≠ m)
  ∧ (vc_eq a b = true →
       happens_before a c = happens_before b c
       ∧ happens_before c a = happens_before c b
       ∧ dominates a c = dominates b c).
Proof.
  split; [apply vc_eq_refl|]. split; [apply vc_eq_sym|].
  split; [apply vc_eq_trans|]. split.
  - intros Hk. split.
    + apply vc_eq_spec. intros i. unfold get. simpl.
      destruct (decide (k = i)) as [->|Hne].
      * by rewrite lookup_insert_eq, Hk.
      * by rewrite lookup_insert_ne.
    + intros Heq. assert (<[k := 0]> m !! k = m !! k) as H by by rewrite Heq.
      rewrite lookup_insert_eq, Hk in H. done.
  - intros Heq. split; [by apply vc_eq_happens_before_l|].
    rewrite vc_eq_spec in Heq. split; apply eq_true_iff_eq.
    + rewrite !happens_before_spec. split; intros [H1 [i Hi]]; split.
      * intros j. rewrite <- Heq. done.
      * exists i. by rewrite <- Heq.
      * intros j. rewrite Heq. done.
      * exists i. by rewrite Heq.
    + rewrite !dominates_spec. split; intros H i.
      * rewrite <- Heq. done.
      * rewrite Heq. done.
Qed.

End VectorClockOrder.

(** ** Storage: deleting, moving and receiving keys *)

Section StorageOpsFacts.
Import VC Storage.

Implicit Types (st : ChordStorage) (k : string) (p : Z).
Implicit Types (store moved : gmap string (JSON * VectorClock)).

Lemma transfer_loop_lookup (keys : list string) store :
  let state := foldl StorageOps.transfer_step (store, ∅) keys in
  ∀ k, (k ∈ keys → state.1 !! k = None ∧ state.2 !! k = store !! k)
     ∧ (k ∉ keys → state.1 !! k = store !! k ∧ state.2 !! k = None).
Proof.
  induction keys as [|key keys IH] using rev_ind; intros state k.
  - subst state. simpl. split; [intros H; by apply elem_of_nil in H|done].
  - subst state. rewrite foldl_app. cbn [foldl].
    set (state := foldl StorageOps.transfer_step (store, ∅) keys) in *.
    cbv zeta in IH. unfold StorageOps.transfer_step.
    pose proof (IH key) as [Hkin Hkout]. pose proof (IH k) as [Hin Hout].
    rewrite elem_of_app, list_elem_of_singleton.
    destruct (state.1 !! key) as [entry|] eqn:Hkey; cbn [fst snd].
    + assert (key ∉ keys) as Hfresh.
      { intros H. apply Hkin in H as [H _]. congruence. }
      destruct (Hkout Hfresh) as [Hs _].
      destruct (decide (k = key)) as [->|Hne].
      * rewrite lookup_delete_eq, lookup_insert_eq. split; [|tauto].
        intros _. split; [done|]. congruence.
      * rewrite lookup_delete_ne, lookup_insert_ne by done. split.
        -- intros [H|H]; [by apply Hin|done].
        -- intros H. apply Hout. tauto.
    + destruct (decide (k = key)) as [->|Hne].
      * split; [|tauto]. intros _. split; [done|].
        destruct (decide (key ∈ keys)) as [H|H].
        -- by apply Hkin.
        -- destruct (Hkout H) as [H1 H2]. congruence.
      * split.
        -- intros [H|H]; [by apply Hin|done].
        -- intros H. apply Hout. tauto.
Qed.

Lemma receive_step_ne store (item : string * (JSON * VectorClock)) k :
  k ≠ item.1 → StorageOps.receive_step store item !! k = store !! k.
Proof.
  intros Hne. unfold StorageOps.receive_step.
  destruct (store !! item.1) as [[? cur]|].
  - destruct (vc_gt item.2.2 cur); [|done]. by rewrite lookup_insert_ne.
  - by rewrite lookup_insert_ne.
Qed.

Lemma receive_loop_other (l : list (string * (JSON * VectorClock))) store k :
  k ∉ l.*1 → foldl StorageOps.receive_step store l !! k = store !! k.
Proof.
  revert store. induction l as [|item l IH]; intros store Hk; simpl; [done|].
  simpl in Hk. apply not_elem_of_cons in Hk as [Hne Hk].
  rewrite IH by done. by apply receive_step_ne.
Qed.

Lemma receive_loop_item (l : list (string * (JSON * VectorClock))) store k
    (bv : JSON * VectorClock) :
  NoDup l.*1 → (k, bv) ∈ l →
  foldl StorageOps.receive_step store l !! k
  = Some match store !! k with
         | None => bv
         | Some cur => if happens_before cur.2 bv.2 then bv else cur
         end.
Proof.
  revert store. induction l as [|item l IH]; intros store Hnd Hin.
  - by apply elem_of_nil in Hin.
  - simpl in *. apply NoDup_cons in Hnd as [Hfresh Hnd].
    apply elem_of_cons in Hin as [<-|Hin].
    + rewrite receive_loop_other by done.
      unfold StorageOps.receive_step, vc_gt. simpl.
      destruct (store !! k) as [[? cur]|] eqn:Ecur; simpl.
      * destruct (happens_before cur bv.2); [|done]. by rewrite lookup_insert_eq.
      * by rewrite lookup_insert_eq.
    + assert (k ≠ item.1) as Hne.
      { intros ->. apply Hfresh. apply list_elem_of_fmap. by exists (item.1, bv). }
      rewrite IH by done. by rewrite receive_step_ne.
Qed.

Lemma primary_store_receive_keys st (data : gmap string (JSON * VectorClock)) k :
  primary_store (StorageOps.receive_keys st data) !! k
  = match data !! k with
    | None => primary_store st !! k
    | Some bv =>
        Some match primary_store st !! k with
             | None => bv
             | Some cur => if happens_before cur.2 bv.2 then bv else cur
             end
    end.
Proof.
  unfold StorageOps.receive_keys. simpl.
  destruct (data !! k) as [bv|] eqn:Hk.
  - apply receive_loop_item; [apply NoDup_fst_map_to_list|].
    by apply elem_of_map_to_list.
  - apply receive_loop_other. intros Hin.
    apply list_elem_of_fmap in Hin as [[k' e] [-> Hin]].
    apply elem_of_map_to_list in Hin. simpl in *. congruence.
Qed.

End StorageOpsFacts.

Section StorageOpsProperties.
Import VC Storage.

Implicit Types (st : ChordStorage) (k : string) (p : Z).

(** X7: [delete(key)] returns [True] exactly when the key was stored;
    afterwards the key is gone, every other primary key and the whole backup
    store are as before, and deleting again returns [False] and changes
    nothing.  Deleting a key that [put] has just added to a store without it
    gives the old primary store back. *)
Theorem delete_removes_only_key st k (v : JSON) (version : option VectorClock) :
  let st' := (StorageOps.delete st k).1 in
  (StorageOps.delete st k).2 = StorageOps.has_key st k
  ∧ Storage.get st' k = None
  ∧ (∀ k', k' ≠ k → Storage.get st' k' = Storage.get st k')
  ∧ backup_store st' = backup_store st
  ∧ StorageOps.delete st' k = (st', false)
  ∧ (Storage.get st k = None →
       primary_store (StorageOps.delete (put st k v version).1 k).1
       = primary_store st).
Proof.
  intros st'. subst st'.
  assert (Storage.get st k = None →
          primary_store (StorageOps.delete (put st k v version).1 k).1
          = primary_store st) as Hround.
  { unfold Storage.get, StorageOps.delete. intros Hk.
    rewrite primary_store_put, lookup_insert_eq. cbn [fst set_primary_store primary_store].
    rewrite delete_insert_eq. by apply delete_id. }
  revert Hround. generalize (put st k v version). intros r Hround.
  unfold StorageOps.delete, StorageOps.has_key, Storage.get in *.
  destruct (primary_store st !! k) as [e|] eqn:Hk; cbn [fst snd].
  - cbn [set_primary_store primary_store backup_store].
    rewrite lookup_delete_eq.
    split; [by rewrite bool_decide_eq_true_2 by eauto|].
    split; [done|]. split; [intros k' Hne; by rewrite lookup_delete_ne|].
    split; [done|]. split; [done|]. done.
  - rewrite Hk.
    split; [rewrite bool_decide_eq_false_2; [done|by intros [? ?]]|].
    split; [done|]. split; [done|]. split; [done|]. split; [done|]. done.
Qed.

(** X8: [delete_backup(key, p)] returns [True] exactly when bucket [p] held
    the key; afterwards the key is gone from bucket [p], the bucket itself
    stays (even when it becomes empty), and the other keys of the bucket, the
    other buckets and the primary store are as before. *)
Theorem delete_backup_removes_only_key st k p :
  let st' := (StorageOps.delete_backup st k p).1 in
  (StorageOps.delete_backup st k p).2 = bool_decide (is_Some (get_backup st k p))
  ∧ get_backup st' k p = None
  ∧ (∀ k', k' ≠ k → get_backup st' k' p = get_backup st k' p)
  ∧ (∀ p', p' ≠ p → backup_store st' !! p' = backup_store st !! p')
  ∧ (is_Some (backup_store st !! p) → is_Some (backup_store st' !! p))
  ∧ primary_store st' = primary_store st.
Proof.
  intros st'. subst st'. unfold StorageOps.delete_backup, get_backup.
  destruct (backup_store st !! p) as [bucket|] eqn:Hp.
  - destruct (bucket !! k) as [e|] eqn:Hk;
      cbn [fst snd set_backup_store backup_store primary_store].
    + rewrite lookup_insert_eq, lookup_delete_eq.
      split; [by rewrite bool_decide_eq_true_2 by eauto|].
      split; [done|]. split; [intros k' Hne; by rewrite lookup_delete_ne|].
      split; [intros p' Hne; by rewrite lookup_insert_ne|]. split; [eauto|done].
    + rewrite Hp, Hk.
      split; [rewrite bool_decide_eq_false_2; [done|by intros [? ?]]|].
      split; [done|]. split; [done|]. split; [done|]. split; [eauto|done].
  - cbn [fst snd]. rewrite Hp.
    split; [rewrite bool_decide_eq_false_2; [done|by intros [? ?]]|].
    split; [done|]. split; [done|]. split; [done|]. split; [by intros [? ?]|done].
Qed.

(** X9: [transfer_keys(keys)] splits the primary store: the returned dict
    holds exactly the listed keys that were stored, with their entries; those
    keys are gone from the primary store and all other keys stay; the backup
    store is not touched. *)
Theorem transfer_keys_splits st (keys : list string) :
  let st' := (StorageOps.transfer_keys st keys).1 in
  let moved := (StorageOps.transfer_keys st keys).2 in
  (∀ k, k ∈ keys → moved !! k = Storage.get st k ∧ Storage.get st' k = None)
  ∧ (∀ k, k ∉ keys → moved !! k = None ∧ Storage.get st' k = Storage.get st k)
  ∧ backup_store st' = backup_store st.
Proof.
  intros st' moved. subst st' moved. unfold StorageOps.transfer_keys, Storage.get.
  simpl. pose proof (transfer_loop_lookup keys (primary_store st)) as H.
  cbv zeta in H. split; [|split; [|done]].
  - intros k Hk. destruct (H k) as [[H1 H2] _]; done.
  - intros k Hk. destruct (H k) as [_ [H1 H2]]; done.
Qed.

(** X10: handing the transferred keys back with [receive_keys] restores the
    primary store: what [transfer_keys] removed, [receive_keys] re-inserts
    unchanged. *)
Theorem receive_keys_after_transfer_keys st (keys : list string) :
  let st' := (StorageOps.transfer_keys st keys).1 in
  let moved := (StorageOps.transfer_keys st keys).2 in
  primary_store (StorageOps.receive_keys st' moved) = primary_store st.
Proof.
  intros st' moved. apply map_eq. intros k.
  rewrite primary_store_receive_keys.
  destruct (transfer_keys_splits st keys) as (Hin & Hout & _).
  fold st' moved in Hin, Hout. unfold Storage.get in *.
  destruct (decide (k ∈ keys)) as [Hk|Hk].
  - destruct (Hin k Hk) as [-> ->]. by destruct (primary_store st !! k).
  - destruct (Hout k Hk) as [-> ->]. done.
Qed.

(** X11: [receive_keys(data)] never replaces an entry by an older or a
    concurrent one.  A received key ends up with the received entry if it was
    absent or strictly older locally, and with the local entry otherwise; in
    either case the stored version is not strictly older than the received
    one.  Keys not in [data] and all backups stay, and receiving the same
    data twice is the same as receiving it once. *)
Theorem receive_keys_keeps_newer st (data : gmap string (JSON * VectorClock)) :
  let st' := StorageOps.receive_keys st data in
  (∀ k bv, data !! k = Some bv →
     ∃ pv, Storage.get st' k = Some pv
         ∧ pv = match Storage.get st k with
                | None => bv
                | Some cur => if happens_before cur.2 bv.2 then bv else cur
                end
         ∧ happens_before pv.2 bv.2 = false)
  ∧ (∀ k, data !! k = None → Storage.get st' k = Storage.get st k)
  ∧ backup_store st' = backup_store st
  ∧ primary_store (StorageOps.receive_keys st' data) = primary_store st'.
Proof.
  intros st'. subst st'. unfold Storage.get.
  assert (∀ k bv, data !! k = Some bv →
            happens_before
              (match primary_store st !! k with
               | None => bv
               | Some cur => if happens_before cur.2 bv.2 then bv else cur
               end).2 bv.2 = false) as Hnot_older.
  { intros k bv _. destruct (primary_store st !! k) as [cur|].
    - destruct (happens_before cur.2 bv.2) eqn:Hhb; [|done].
      apply happens_before_irrefl.
    - apply happens_before_irrefl. }
  split; [|split; [|split; [done|]]].
  - intros k bv Hk. rewrite primary_store_receive_keys, Hk.
    eexists. split; [reflexivity|]. split; [reflexivity|]. by eapply Hnot_older.
  - intros k Hk. by rewrite primary_store_receive_keys, Hk.
  - apply map_eq. intros k. rewrite !primary_store_receive_keys.
    destruct (data !! k) as [bv|] eqn:Hk; [|done].
    by rewrite (Hnot_older k bv Hk).
Qed.

(** X12: [transfer_backups_to_primary(p)] touches nothing but the promoted
    bucket and the primary keys that occur in it, whether it returns or the
    exception of a file write ends it: other buckets and other primary keys
    stay.  Once a promotion has returned, a second promotion of the same id
    returns as well and changes nothing; after a promotion that ended with an
    exception the bucket is still there, to be promoted again. *)
Theorem promote_backups_frame st p :
  let st' := (transfer_backups_to_primary st p).1 in
  let raised := (transfer_backups_to_primary st p).2 in
  (∀ p', p' ≠ p → backup_store st' !! p' = backup_store st !! p')
  ∧ (∀ k, get_backup st k p = None → Storage.get st' k = Storage.get st k)
  ∧ (raised = None → transfer_backups_to_primary st' p = (st', None))
  ∧ (raised ≠ None → backup_store st' !! p = backup_store st !! p).
Proof.
  intros st' raised. subst st' raised.
  destruct (transfer_backups_to_primary st p) as [st' raised] eqn:Ht.
  cbn [fst snd]. revert Ht.
  unfold transfer_backups_to_primary, get_backup, Storage.get.
  destruct (backup_store st !! p) as [bucket|] eqn:Hp.
  - pose proof (backup_store_promote_loop (map_to_list bucket) st) as Hbackup.
    assert (∀ k, bucket !! k = None →
              primary_store (promote_loop st (map_to_list bucket)).1 !! k
              = primary_store st !! k) as Hother.
    { intros k Hk. apply primary_store_promote_loop_other. intros Hin.
      apply list_elem_of_fmap in Hin as [[k' e] [-> Hin]].
      apply elem_of_map_to_list in Hin. simpl in *. congruence. }
    destruct (promote_loop st (map_to_list bucket)) as [st1 [e|]];
      cbn [fst snd] in *; intros [= <- <-].
    + split_and!; [|done|done|].
      * intros p' _. by rewrite Hbackup.
      * intros _. by rewrite Hbackup.
    + split_and!; [| | |done].
      * intros p' Hne. simpl. by rewrite lookup_delete_ne, Hbackup by done.
      * intros k Hk. simpl. by apply Hother.
      * intros _. simpl. by rewrite lookup_delete_eq.
  - intros [= <- <-]. split_and!; [done|done| |done].
    intros _. by rewrite Hp.
Qed.

End StorageOpsProperties.

(** ** The ring view: keeping [all_nodes] sorted *)

Section RoutingOpsFacts.
Import Routing.

Implicit Types (x y : NodeInfo) (l nodes : list NodeInfo).

Lemma insert_by_id_perm x l : RoutingOps.insert_by_id x l ≡ₚ x :: l.
Proof.
  induction l as [|y l IH]; simpl; [done|].
  destruct (node_id x <=? node_id y)%Z; [done|].
  rewrite IH. apply Permutation_swap.
Qed.

Lemma sort_by_id_perm l : RoutingOps.sort_by_id l ≡ₚ l.
Proof.
  induction l as [|x l IH]; simpl; [done|].
  by rewrite insert_by_id_perm, IH.
Qed.

Lemma insert_by_id_sorted x l :
  StronglySorted (λ a b, (node_id a ≤ node_id b)%Z) l →
  StronglySorted (λ a b, (node_id a ≤ node_id b)%Z) (RoutingOps.insert_by_id x l).
Proof.
  induction 1 as [|y l Hsorted IH Hy]; simpl.
  - repeat constructor.
  - destruct (node_id x <=? node_id y)%Z eqn:Hxy.
    + apply Z.leb_le in Hxy. constructor; [by constructor|].
      constructor; [done|]. eapply Forall_impl; [exact Hy|].
      simpl. intros z Hz. lia.
    + apply Z.leb_gt in Hxy. constructor; [done|].
      rewrite insert_by_id_perm. constructor; [lia|done].
Qed.

Lemma sort_by_id_sorted l :
  StronglySorted (λ a b, (node_id a ≤ node_id b)%Z) (RoutingOps.sort_by_id l).
Proof.
  induction l as [|x l IH]; simpl; [constructor|]. by apply insert_by_id_sorted.
Qed.

Lemma sorted_le_NoDup_lt l :
  StronglySorted (λ a b, (node_id a ≤ node_id b)%Z) l →
  NoDup (node_id <$> l) → sorted_by_id l.
Proof.
  induction 1 as [|y l Hsorted IH Hy]; simpl; intros Hnd; [constructor|].
  apply NoDup_cons in Hnd as [Hfresh Hnd]. constructor; [by apply IH|].
  rewrite Forall_forall in Hy. apply Forall_forall. intros z Hz.
  specialize (Hy z Hz).
  assert (node_id y ≠ node_id z); [|lia].
  intros Heq. apply Hfresh. rewrite Heq. apply list_elem_of_fmap. by exists z.
Qed.

(** Sorting a list without repeated ids yields the invariant. *)
Lemma sort_by_id_invariant l :
  NoDup (node_id <$> l) → sorted_by_id (RoutingOps.sort_by_id l).
Proof.
  intros Hnd. apply sorted_le_NoDup_lt; [apply sort_by_id_sorted|].
  by rewrite sort_by_id_perm.
Qed.

Lemma unique_nodes_lookup (nodes : list (option NodeInfo)) k n :
  RoutingOps.unique_nodes nodes !! k = Some n → node_id n = k ∧ Some n ∈ nodes.
Proof.
  unfold RoutingOps.unique_nodes. revert n.
  induction nodes as [|node nodes IH] using rev_ind; intros n.
  - simpl. by rewrite lookup_empty.
  - rewrite foldl_app. simpl. destruct node as [n'|].
    + destruct (decide (node_id n' = k)) as [<-|Hne].
      * rewrite lookup_insert_eq. intros [= ->]. split; [done|].
        apply elem_of_app. right. by left.
      * rewrite lookup_insert_ne by done. intros H.
        destruct (IH n H) as [? ?]. split; [done|].
        apply elem_of_app. by left.
    + intros H. destruct (IH n H) as [? ?]. split; [done|].
      apply elem_of_app. by left.
Qed.

Lemma unique_nodes_is_Some (nodes : list (option NodeInfo)) n :
  Some n ∈ nodes → is_Some (RoutingOps.unique_nodes nodes !! node_id n).
Proof.
  unfold RoutingOps.unique_nodes.
  induction nodes as [|node nodes IH] using rev_ind; intros Hin.
  - by apply elem_of_nil in Hin.
  - rewrite foldl_app. simpl. apply elem_of_app in Hin as [Hin|Hin].
    + destruct node as [n'|]; [|by apply IH].
      destruct (decide (node_id n' = node_id n)) as [->|Hne].
      * rewrite lookup_insert_eq. eauto.
      * rewrite lookup_insert_ne by done. by apply IH.
    + apply list_elem_of_singleton in Hin as <-. rewrite lookup_insert_eq. eauto.
Qed.

Lemma unique_nodes_values_NoDup (nodes : list (option NodeInfo)) :
  NoDup (node_id <$> (map_to_list (RoutingOps.unique_nodes nodes)).*2).
Proof.
  assert ((node_id <$> (map_to_list (RoutingOps.unique_nodes nodes)).*2)
          = (map_to_list (RoutingOps.unique_nodes nodes)).*1) as ->.
  { rewrite <- list_fmap_compose. apply list_fmap_ext.
    intros i [k n] Hin. simpl.
    apply list_elem_of_lookup_2, elem_of_map_to_list in Hin.
    by apply unique_nodes_lookup in Hin as [? _]. }
  apply NoDup_fst_map_to_list.
Qed.

(** The successor picked from a node list is the node responsible for the
    identifier just after our own. *)
Lemma pick_successor_responsible (self : FingerTable) nodes :
  RoutingOps.pick_successor self nodes
  = match first_at_or_after nodes (self_id self + 1) with
    | Some node => Some node
    | None => head nodes
    end.
Proof.
  unfold RoutingOps.pick_successor.
  assert (∀ l, snd <$> list_find (λ node, (self_id self < node_id node)%Z) l
               = first_at_or_after l (self_id self + 1)) as H.
  { induction l as [|y l IH]; [done|]. cbn [list_find first_at_or_after].
    case_decide as Hd.
    - by rewrite (proj2 (Z.leb_le _ _)) by lia.
    - rewrite (proj2 (Z.leb_gt _ _)) by lia. rewrite <- IH.
      by destruct (list_find _ l) as [[? ?]|]. }
  rewrite <- H. by destruct (list_find _ nodes) as [[? ?]|].
Qed.

Lemma sorted_by_id_ids l :
  sorted_by_id l ↔ StronglySorted Z.lt (node_id <$> l).
Proof.
  unfold sorted_by_id. induction l as [|x l IH]; simpl.
  - split; constructor.
  - rewrite !StronglySorted_cons, IH, Forall_fmap. done.
Qed.

Lemma update_address_None nodes node :
  RoutingOps.update_address nodes node = None ↔
  node_id node ∉ node_id <$> nodes.
Proof.
  induction nodes as [|existing nodes IH]; simpl.
  - split; [intros _; apply not_elem_of_nil|done].
  - case_bool_decide as Hid.
    + split; [done|]. intros Hout. exfalso. apply Hout. rewrite Hid. by left.
    + rewrite fmap_None, IH, not_elem_of_cons. split; [|tauto].
      intros H. split; [congruence|done].
Qed.

Lemma update_address_Some nodes node nodes' :
  RoutingOps.update_address nodes node = Some nodes' →
  node_id <$> nodes' = node_id <$> nodes
  ∧ mkNodeInfo (node_id node) (address node) ∈ nodes'
  ∧ ∀ n, n ∈ nodes → node_id n ≠ node_id node → n ∈ nodes'.
Proof.
  revert nodes'. induction nodes as [|existing nodes IH]; intros nodes'; simpl;
    [done|].
  case_bool_decide as Hid.
  - intros [= <-]. rewrite !fmap_cons. cbn [node_id]. rewrite Hid.
    split; [done|]. split; [by left|].
    intros n Hn Hne. apply elem_of_cons in Hn as [->|Hn]; [done|by right].
  - intros H. apply fmap_Some in H as (rest & Hrest & ->).
    destruct (IH rest Hrest) as (Hids & Hin & Hkeep).
    split; [by rewrite !fmap_cons, Hids|]. split; [by right|].
    intros n Hn Hne. apply elem_of_cons in Hn as [->|Hn]; [by left|].
    right. by apply Hkeep.
Qed.

Lemma first_at_or_after_split before n after id :
  Forall (λ y, (node_id y < id)%Z) before → (id ≤ node_id n)%Z →
  first_at_or_after (before ++ n :: after) id = Some n.
Proof.
  induction 1 as [|y before Hy _ IH]; intros Hn; simpl.
  - by rewrite (proj2 (Z.leb_le _ _)).
  - rewrite (proj2 (Z.leb_gt _ _)) by lia. by apply IH.
Qed.

Lemma find_successor_from_all_split (self : FingerTable) before n after id :
  all_nodes self = before ++ n :: after →
  Forall (λ y, (node_id y < id)%Z) before → (id ≤ node_id n)%Z →
  find_successor_from_all self id = Some n.
Proof.
  intros Hall Hbefore Hn. unfold find_successor_from_all. rewrite Hall.
  rewrite first_at_or_after_split by done. by destruct before.
Qed.

Lemma walk_NoDup nodes start count result :
  NoDup (node_id <$> nodes) → count ≤ length nodes →
  length result = count →
  (∀ i, i < count → result !! i = nodes !! ((start + i) mod length nodes)) →
  NoDup (node_id <$> result).
Proof.
  intros Hnd Hcount Hlen Hlookup. apply NoDup_alt. intros i j x Hi Hj.
  rewrite list_lookup_fmap in Hi, Hj.
  destruct (result !! i) as [a|] eqn:Ha; [|done].
  destruct (result !! j) as [b|] eqn:Hb; [|done].
  simpl in Hi, Hj.
  assert (i < count) as Hic by (rewrite <- Hlen; apply lookup_lt_is_Some; eauto).
  assert (j < count) as Hjc by (rewrite <- Hlen; apply lookup_lt_is_Some; eauto).
  rewrite Hlookup in Ha, Hb by done.
  apply (mod_shift_inj start i j (length nodes)); [lia|lia|].
  eapply NoDup_lookup; [exact Hnd| |].
  - rewrite list_lookup_fmap, Ha. exact Hi.
  - rewrite list_lookup_fmap, Hb. exact Hj.
Qed.

(** [get_n_successors] as a walk from the position of the responsible node. *)
Lemma get_n_successors_walk (self : FingerTable) (id n : Z) :
  all_nodes self ≠ [] → (1 ≤ n)%Z → sorted_by_id (all_nodes self) →
  ∃ responsible start,
    find_successor_from_all self id = Some responsible
    ∧ all_nodes self !! start = Some responsible
    ∧ get_n_successors self id n
      = walk (all_nodes self) start
          (Nat.min (Z.to_nat n) (length (all_nodes self))).
Proof.
  intros Hne Hn Hsorted. unfold get_n_successors.
  rewrite bool_decide_eq_false_2 by done.
  rewrite (proj2 (Z.leb_gt _ _)) by lia. simpl.
  destruct (find_successor_from_all self id) as [responsible|] eqn:Hresp.
  2: { unfold find_successor_from_all in Hresp.
       destruct (all_nodes self); [done|]. by destruct (first_at_or_after _ _). }
  pose proof (find_successor_from_all_elem _ _ _ Hresp) as Hin.
  destruct (index_elem _ _ Hin) as (start & y & Hidx & Hy & Hid).
  assert (y = responsible) as ->.
  { eapply same_id_same_node; [by apply sorted_by_id_NoDup| |done|done].
    apply list_elem_of_lookup. eauto. }
  rewrite Hidx. exists responsible, start. split; [done|]. split; [done|].
  f_equal. lia.
Qed.

End RoutingOpsFacts.

Section RoutingOpsProperties.
Import Routing.

(** X13: [set_all_nodes(nodes)] establishes the ring-view invariant.  On a
    table with at least one finger slot it installs a list sorted by node id
    without repeated ids, made of the given nodes ([None] entries skipped, one
    node per id); and when that list is not empty, the new successor is the
    node responsible for the identifier after our own, that is the first node
    with a larger id, wrapping to the first node. *)
Theorem set_all_nodes_sorted (self : FingerTable) (nodes : list (option NodeInfo)) :
  0 < length (fingers self) →
  ∃ ft', RoutingOps.set_all_nodes self nodes = Some ft'
    ∧ sorted_by_id (all_nodes ft')
    ∧ (∀ n, n ∈ all_nodes ft' → Some n ∈ nodes)
    ∧ (∀ n, Some n ∈ nodes → node_id n ∈ node_id <$> all_nodes ft')
    ∧ (all_nodes ft' ≠ [] →
       RoutingOps.get_successor ft'
       = find_successor_from_all ft' (self_id self + 1))
    ∧ length (fingers ft') = length (fingers self).
Proof.
  intros Hfingers. unfold RoutingOps.set_all_nodes.
  set (all := RoutingOps.sort_by_id
                (map_to_list (RoutingOps.unique_nodes nodes)).*2).
  assert (sorted_by_id all) as Hsorted.
  { apply sort_by_id_invariant, unique_nodes_values_NoDup. }
  assert (∀ n, n ∈ all → Some n ∈ nodes) as Hfrom.
  { intros n Hn. subst all. rewrite sort_by_id_perm in Hn.
    apply list_elem_of_fmap in Hn as [[k n'] [-> Hn]].
    apply elem_of_map_to_list in Hn. by apply unique_nodes_lookup in Hn as [_ ?]. }
  assert (∀ n, Some n ∈ nodes → node_id n ∈ node_id <$> all) as Hto.
  { intros n Hn. apply unique_nodes_is_Some in Hn as [n' Hn'].
    pose proof (unique_nodes_lookup _ _ _ Hn') as [Hid _].
    apply list_elem_of_fmap. exists n'. split; [done|].
    subst all. rewrite sort_by_id_perm. apply list_elem_of_fmap.
    exists (node_id n, n'). split; [done|]. by apply elem_of_map_to_list. }
  destruct (fingers self) as [|finger rest] eqn:Hf; [simpl in Hfingers; lia|].
  destruct all as [|first others] eqn:Hall.
  - eexists. split; [reflexivity|]. simpl. rewrite Hf. done.
  - unfold RoutingOps.set_successor. simpl. rewrite Hf.
    eexists. split; [reflexivity|]. simpl.
    split; [done|]. split; [done|]. split; [done|]. split; [|done].
    intros _. unfold RoutingOps.get_successor, find_successor_from_all. simpl.
    rewrite pick_successor_responsible. simpl.
    by destruct (self_id self + 1 <=? node_id first)%Z;
      [|destruct (first_at_or_after others (self_id self + 1))].
Qed.

(** A table for node 20 given nodes 50, 10, 30 and again 10: the list
    becomes 10, 30, 50 and the successor is node 30. *)
Lemma set_all_nodes_sorted_witness :
  let ft := RoutingOps.init 20 6 in
  let nodes := [Some (mkNodeInfo 50 "c"); Some (mkNodeInfo 10 "a"); None;
                Some (mkNodeInfo 30 "b"); Some (mkNodeInfo 10 "a")] in
  ∃ ft', RoutingOps.set_all_nodes ft nodes = Some ft'
    ∧ all_nodes ft' = [mkNodeInfo 10 "a"; mkNodeInfo 30 "b"; mkNodeInfo 50 "c"]
    ∧ RoutingOps.get_successor ft' = Some (mkNodeInfo 30 "b").
Proof.
  intros ft nodes.
  destruct (set_all_nodes_sorted ft nodes) as (ft' & Hset & _);
    [simpl; lia|].
  exists ft'. split; [exact Hset|].
  revert Hset. vm_compute. intros [= <-]. done.
Defined.

(** X14: [remove_node(node_id)] keeps the ring-view invariant.  On a table
    whose finger list has its [m] slots, the node list stays sorted without
    repeated ids and loses exactly the nodes of that id, no finger with that
    id is left, and the call returns [True] whether or not the id was
    known. *)
Theorem remove_node_keeps_sorted (self : FingerTable) (id : Z) :
  length (fingers self) = m self →
  sorted_by_id (all_nodes self) →
  ∃ ft', RoutingOps.remove_node self id = Some (ft', true)
    ∧ sorted_by_id (all_nodes ft')
    ∧ (∀ n, n ∈ all_nodes ft' ↔ n ∈ all_nodes self ∧ node_id n ≠ id)
    ∧ (∀ f, Some f ∈ fingers ft' → node_id f ≠ id)
    ∧ length (fingers ft') = m ft'
    ∧ m ft' = m self.
Proof.
  intros Hlen Hsorted. unfold RoutingOps.remove_node.
  set (kept := filter (λ n, node_id n ≠ id) (all_nodes self)).
  set (self1 := RoutingOps.set_nodes self kept).
  assert (sorted_by_id kept) as Hkept.
  { subst kept. clear -Hsorted. unfold sorted_by_id in *.
    induction Hsorted as [|x l Hs IH Hx]; [constructor|].
    rewrite filter_cons. case_decide; [|done].
    constructor; [done|]. apply Forall_forall. intros y Hy.
    apply list_elem_of_filter in Hy as [_ Hy].
    rewrite Forall_forall in Hx. by apply Hx. }
  assert (∃ self2, match RoutingOps.get_successor self1 with
                   | Some successor =>
                       if bool_decide (node_id successor = id) then
                         match all_nodes self1 with
                         | [] => RoutingOps.set_successor self1 None
                         | _ => RoutingOps.set_successor self1
                                  (RoutingOps.pick_successor self1 (all_nodes self1))
                         end
                       else Some self1
                   | None => Some self1
                   end = Some self2
                   ∧ all_nodes self2 = kept
                   ∧ length (fingers self2) = m self
                   ∧ m self2 = m self) as (self2 & -> & Hnodes & Hlen2 & Hm2).
  { unfold RoutingOps.get_successor, RoutingOps.set_successor. subst self1.
    simpl. destruct (fingers self) as [|[successor|] rest] eqn:Hf.
    - eexists. split; [reflexivity|]. simpl. by rewrite Hf.
    - destruct (bool_decide (node_id successor = id)).
      + destruct kept; (eexists; split; [reflexivity|]); simpl; by rewrite <- Hlen.
      + eexists. split; [reflexivity|]. simpl. by rewrite Hf.
    - eexists. split; [reflexivity|]. simpl. by rewrite Hf. }
  simpl. rewrite bool_decide_eq_true_2 by lia.
  eexists. split; [reflexivity|]. simpl. rewrite Hnodes.
  split; [done|]. split; [|split; [|split; [|done]]].
  - intros n. subst kept. rewrite list_elem_of_filter. tauto.
  - intros f Hf. rewrite Hm2, <- Hlen2, firstn_all, drop_all, app_nil_r in Hf.
    unfold RoutingOps.drop_fingers in Hf.
    apply list_elem_of_fmap in Hf as [[g|] [Hg _]]; [|done].
    case_bool_decide; [done|]. by injection Hg as ->.
  - rewrite Hm2, <- Hlen2, firstn_all, drop_all, app_nil_r.
    unfold RoutingOps.drop_fingers. by rewrite length_fmap.
Qed.

(** Node 20 knows nodes 10, 30 and 50 with node 30 as successor; removing 30
    leaves 10 and 50 and makes 50 the successor. *)
Lemma remove_node_keeps_sorted_witness :
  let nodes := [mkNodeInfo 10 "a"; mkNodeInfo 30 "b"; mkNodeInfo 50 "c"] in
  let ft := mkFingerTable 20 2 [Some (mkNodeInfo 30 "b"); None] nodes in
  ∃ ft', RoutingOps.remove_node ft 30 = Some (ft', true)
    ∧ all_nodes ft' = [mkNodeInfo 10 "a"; mkNodeInfo 50 "c"]
    ∧ fingers ft' = [Some (mkNodeInfo 50 "c"); None].
Proof.
  intros nodes ft.
  destruct (remove_node_keeps_sorted ft 30) as (ft' & Hrm & _);
    [reflexivity | repeat constructor; simpl; lia |].
  exists ft'. split; [exact Hrm|].
  revert Hrm. vm_compute. intros [= <-]. done.
Defined.

(** X15: [add_node(node)] keeps the ring-view invariant.  On a table with at
    least one finger slot and a sorted node list, the list stays sorted
    without repeated ids; its ids are the old ones and the added one; the
    added id is listed with the given address; and every node of another id
    stays as it was. *)
Theorem add_node_keeps_sorted (self : FingerTable) (node : NodeInfo) :
  0 < length (fingers self) →
  sorted_by_id (all_nodes self) →
  ∃ ft', RoutingOps.add_node self node = Some ft'
    ∧ sorted_by_id (all_nodes ft')
    ∧ (∀ i, i ∈ node_id <$> all_nodes ft'
            ↔ i ∈ node_id <$> all_nodes self ∨ i = node_id node)
    ∧ mkNodeInfo (node_id node) (address node) ∈ all_nodes ft'
    ∧ (∀ n, n ∈ all_nodes self → node_id n ≠ node_id node → n ∈ all_nodes ft').
Proof.
  intros Hfingers Hsorted. unfold RoutingOps.add_node.
  destruct (RoutingOps.update_address (all_nodes self) node) as [nodes'|] eqn:Hupd.
  - destruct (update_address_Some _ _ _ Hupd) as (Hids & Hin & Hkeep).
    eexists. split; [reflexivity|]. simpl.
    split; [by rewrite sorted_by_id_ids, Hids, <- sorted_by_id_ids|].
    split; [|done]. intros i. rewrite Hids. split; [by left|].
    intros [H| ->]; [done|].
    rewrite <- Hids. apply list_elem_of_fmap. by eexists (mkNodeInfo _ _).
  - apply update_address_None in Hupd.
    set (all := RoutingOps.sort_by_id (all_nodes self ++ [node])).
    assert (sorted_by_id all) as Hall.
    { apply sort_by_id_invariant. rewrite fmap_app. apply NoDup_app.
      split; [by apply sorted_by_id_NoDup|]. split.
      - intros i Hi Hi'. apply list_elem_of_singleton in Hi'. by subst.
      - apply NoDup_singleton. }
    assert (∀ n, n ∈ all ↔ n ∈ all_nodes self ∨ n = node) as Hmem.
    { intros n. subst all.
      by rewrite sort_by_id_perm, elem_of_app, list_elem_of_singleton. }
    assert (∃ ft', match RoutingOps.get_successor (RoutingOps.set_nodes self all) with
                   | None => RoutingOps.set_successor
                               (RoutingOps.set_nodes self all) (Some node)
                   | Some successor =>
                       if (self_id (RoutingOps.set_nodes self all) <? node_id node)%Z
                          && ((node_id node <? node_id successor)%Z
                              || (node_id successor
                                  <=? self_id (RoutingOps.set_nodes self all))%Z)
                       then RoutingOps.set_successor
                              (RoutingOps.set_nodes self all) (Some node)
                       else Some (RoutingOps.set_nodes self all)
                   end = Some ft' ∧ all_nodes ft' = all) as (ft' & -> & Hnodes).
    { unfold RoutingOps.get_successor, RoutingOps.set_successor. simpl.
      destruct (fingers self) as [|[successor|] rest]; [simpl in Hfingers; lia|..].
      - destruct (_ && _); by eexists.
      - by eexists. }
    exists ft'. split; [done|]. rewrite Hnodes. split; [done|].
    split; [|split].
    + intros i. rewrite !list_elem_of_fmap. split.
      * intros (n & -> & Hn). apply Hmem in Hn as [Hn| ->]; [|by right].
        left. by exists n.
      * intros [(n & -> & Hn)| ->].
        -- exists n. split; [done|]. apply Hmem. by left.
        -- exists node. split; [done|]. apply Hmem. by right.
    + apply Hmem. right. by destruct node.
    + intros n Hn _. apply Hmem. by left.
Qed.

(** Node 20 knows nodes 10 and 50 with successor 50; node 30 joins: the list
    becomes 10, 30, 50 and node 30 becomes the successor. *)
Lemma add_node_keeps_sorted_witness :
  let nodes := [mkNodeInfo 10 "a"; mkNodeInfo 50 "c"] in
  let ft := mkFingerTable 20 2 [Some (mkNodeInfo 50 "c"); None] nodes in
  ∃ ft', RoutingOps.add_node ft (mkNodeInfo 30 "b") = Some ft'
    ∧ all_nodes ft' = [mkNodeInfo 10 "a"; mkNodeInfo 30 "b"; mkNodeInfo 50 "c"]
    ∧ RoutingOps.get_successor ft' = Some (mkNodeInfo 30 "b").
Proof.
  intros nodes ft.
  destruct (add_node_keeps_sorted ft (mkNodeInfo 30 "b")) as (ft' & Hadd & _);
    [simpl; lia | repeat constructor; simpl; lia |].
  exists ft'. split; [exact Hadd|].
  revert Hadd. vm_compute. intros [= <-]. done.
Defined.

(** X16: finger slots are bounds-checked.  On a table whose finger list has
    its [m] slots, [set_finger(i, node)] followed by [get_finger(j)] returns
    the node for [j == i] within [0 <= i < m] and the old content of slot [j]
    otherwise; with [i] out of range [set_finger] changes nothing, and
    [get_finger] of an index out of range is [None]. *)
Theorem set_finger_get_finger (self : FingerTable) (i j : Z) (node : NodeInfo) :
  length (fingers self) = m self →
  ∃ ft', RoutingOps.set_finger self i node = Some ft'
    ∧ length (fingers ft') = m ft'
    ∧ all_nodes ft' = all_nodes self
    ∧ RoutingOps.get_finger ft' j
      = (if bool_decide (i = j ∧ 0 ≤ i < Z.of_nat (m self))%Z
         then Some (Some node) else RoutingOps.get_finger self j)
    ∧ (¬ (0 ≤ i < Z.of_nat (m self))%Z → ft' = self)
    ∧ (¬ (0 ≤ j < Z.of_nat (m self))%Z →
         RoutingOps.get_finger self j = Some None).
Proof.
  intros Hlen. unfold RoutingOps.set_finger, RoutingOps.get_finger.
  destruct (bool_decide (0 ≤ i < Z.of_nat (m self))%Z) eqn:Hi.
  - apply bool_decide_eq_true in Hi.
    rewrite bool_decide_eq_true_2 by lia.
    eexists. split; [reflexivity|]. simpl. rewrite length_insert.
    split; [done|]. split; [done|]. split; [|split; [tauto|]].
    + destruct (bool_decide (0 ≤ j < Z.of_nat (m self))%Z) eqn:Hj.
      * apply bool_decide_eq_true in Hj.
        destruct (decide (i = j)) as [->|Hne].
        -- rewrite bool_decide_eq_true_2 by (split; [done|lia]).
           apply list_lookup_insert_eq. lia.
        -- rewrite bool_decide_eq_false_2 by (intros [? ?]; congruence).
           apply list_lookup_insert_ne. lia.
      * apply bool_decide_eq_false in Hj.
        rewrite bool_decide_eq_false_2; [done|]. intros [-> ?]. done.
    + intros Hj. by rewrite bool_decide_eq_false_2.
  - apply bool_decide_eq_false in Hi.
    exists self. split; [done|]. split; [done|]. split; [done|].
    split; [rewrite (bool_decide_eq_false_2 (i = j ∧ _)); [done|intros [? ?]; lia]|].
    split; [done|].
    intros Hj. by rewrite bool_decide_eq_false_2.
Qed.

(** A fresh table with m = 3: slot 1 takes node 30, slot 2 is still empty, and
    index 3 is out of range. *)
Lemma set_finger_get_finger_witness :
  let ft := RoutingOps.init 20 3 in
  ∃ ft', RoutingOps.set_finger ft 1 (mkNodeInfo 30 "b") = Some ft'
    ∧ RoutingOps.get_finger ft' 1 = Some (Some (mkNodeInfo 30 "b"))
    ∧ RoutingOps.get_finger ft' 2 = Some None
    ∧ RoutingOps.set_finger ft' 3 (mkNodeInfo 40 "d") = Some ft'.
Proof.
  intros ft.
  destruct (set_finger_get_finger ft 1 1 (mkNodeInfo 30 "b"))
    as (ft' & Hset & _ & _ & Hget & _); [reflexivity|].
  exists ft'. split; [exact Hset|]. split; [exact Hget|].
  revert Hset. vm_compute. intros [= <-]. done.
Defined.

(** X17: [find_closest_preceding_finger(identifier)] returns the finger of
    highest index whose id lies in the arc (self, identifier], the end
    included, and [None] exactly when no finger lies in that arc. *)
Theorem find_closest_preceding_finger_highest (self : FingerTable) (id : Z) :
  length (fingers self) = m self →
  ∃ result, RoutingOps.find_closest_preceding_finger self id = Some result
    ∧ match result with
      | Some f =>
          ∃ i, fingers self !! i = Some (Some f)
             ∧ RoutingOps.in_range (node_id f) (self_id self) id false true = true
             ∧ ∀ j g, i < j → fingers self !! j = Some (Some g) →
                 RoutingOps.in_range (node_id g) (self_id self) id false true
                 = false
      | None =>
          ∀ j g, fingers self !! j = Some (Some g) →
            RoutingOps.in_range (node_id g) (self_id self) id false true = false
      end.
Proof.
  intros Hlen. unfold RoutingOps.find_closest_preceding_finger.
  rewrite <- Hlen. clear Hlen.
  assert (∀ n, n ≤ length (fingers self) →
            ∃ result,
              RoutingOps.closest_loop self id (reverse (seq 0 n)) = Some result
              ∧ match result with
                | Some f =>
                    ∃ i, i < n ∧ fingers self !! i = Some (Some f)
                       ∧ RoutingOps.in_range (node_id f) (self_id self) id
                           false true = true
                       ∧ ∀ j g, i < j < n → fingers self !! j = Some (Some g) →
                           RoutingOps.in_range (node_id g) (self_id self) id
                             false true = false
                | None =>
                    ∀ j g, j < n → fingers self !! j = Some (Some g) →
                      RoutingOps.in_range (node_id g) (self_id self) id
                        false true = false
                end) as Hloop.
  { induction n as [|n IH]; intros Hn.
    - exists None. split; [done|]. intros j g Hj. lia.
    - rewrite seq_S, reverse_app. cbn [reverse rev_append app plus].
      change (reverse [n]) with [n]. cbn [app RoutingOps.closest_loop].
      destruct (lookup_lt_is_Some_2 (fingers self) n ltac:(lia)) as [slot Hslot].
      rewrite Hslot. destruct (IH ltac:(lia)) as (result & Hres & Hspec).
      destruct slot as [f|].
      + destruct (RoutingOps.in_range (node_id f) (self_id self) id false true)
          eqn:Hf.
        * exists (Some f). split; [done|]. exists n.
          split; [lia|]. split; [done|]. split; [done|]. intros j g Hj. lia.
        * exists result. split; [done|]. destruct result as [r|].
          -- destruct Hspec as (i & Hi & Hfi & Hin & Hhigher).
             exists i. split; [lia|]. split; [done|]. split; [done|].
             intros j g Hj Hg. destruct (decide (j = n)) as [->|Hne].
             ++ congruence.
             ++ apply (Hhigher j g); [lia|done].
          -- intros j g Hj Hg. destruct (decide (j = n)) as [->|Hne].
             ++ congruence.
             ++ apply (Hspec j g); [lia|done].
      + exists result. split; [done|]. destruct result as [r|].
        * destruct Hspec as (i & Hi & Hfi & Hin & Hhigher).
          exists i. split; [lia|]. split; [done|]. split; [done|].
          intros j g Hj Hg. destruct (decide (j = n)) as [->|Hne].
          -- congruence.
          -- apply (Hhigher j g); [lia|done].
        * intros j g Hj Hg. destruct (decide (j = n)) as [->|Hne].
          -- congruence.
          -- apply (Hspec j g); [lia|done]. }
  destruct (Hloop (length (fingers self)) ltac:(lia)) as (result & Hres & Hspec).
  exists result. split; [done|]. destruct result as [f|].
  - destruct Hspec as (i & Hi & Hfi & Hin & Hhigher).
    exists i. split; [done|]. split; [done|]. intros j g Hj Hg.
    apply (Hhigher j g); [|done]. split; [done|].
    apply lookup_lt_is_Some. eauto.
  - intros j g Hg. apply (Hspec j g); [|done]. apply lookup_lt_is_Some. eauto.
Qed.

(** Node 10 with fingers 15, 20 and 30 looks for the finger preceding 25:
    finger 30 is outside the arc (10, 25], finger 20 is the highest inside. *)
Lemma find_closest_preceding_finger_highest_witness :
  let ft := mkFingerTable 10 3
              [Some (mkNodeInfo 15 "a"); Some (mkNodeInfo 20 "b");
               Some (mkNodeInfo 30 "c")] [] in
  RoutingOps.find_closest_preceding_finger ft 25
  = Some (Some (mkNodeInfo 20 "b")).
Proof.
  intros ft.
  destruct (find_closest_preceding_finger_highest ft 25)
    as (result & Hres & _); [reflexivity|].
  rewrite Hres. revert Hres. vm_compute. by intros [= <-].
Defined.

(** X18: the arcs of routing.py's [in_range].  With the end included it
    agrees with the function of the same name in storage.py.  When
    [start == end] every identifier is in range, whatever the flags; and for
    [start != end] the half-open arcs (start, end] and (end, start], and
    likewise [start, end) and [end, start), split the ring, as do the open
    arcs (start, end) and (end, start) for identifiers other than the two end
    points. *)
Theorem routing_in_range_arcs (identifier start end_ : Z) :
  (∀ inclusive_start,
     RoutingOps.in_range identifier start end_ inclusive_start true
     = StorageOps.in_range identifier start end_ inclusive_start)
  ∧ (∀ inclusive_start inclusive_end,
       RoutingOps.in_range identifier start start inclusive_start inclusive_end
       = true)
  ∧ (start ≠ end_ →
       RoutingOps.in_range identifier start end_ false true
       = negb (RoutingOps.in_range identifier end_ start false true)
       ∧ RoutingOps.in_range identifier start end_ true false
         = negb (RoutingOps.in_range identifier end_ start true false)
       ∧ (identifier ≠ start → identifier ≠ end_ →
            RoutingOps.in_range identifier start end_ false false
            = negb (RoutingOps.in_range identifier end_ start false false))).
Proof.
  unfold RoutingOps.in_range, StorageOps.in_range. split; [|split].
  - intros []; destruct (start =? end_)%Z, (start <? end_)%Z; done.
  - intros b1 b2. by rewrite Z.eqb_refl.
  - intros Hne.
    rewrite (proj2 (Z.eqb_neq start end_)), (proj2 (Z.eqb_neq end_ start))
      by done.
    destruct (start <? end_)%Z eqn:H1; destruct (end_ <? start)%Z eqn:H2;
      destruct (start <? identifier)%Z eqn:H3;
      destruct (identifier <=? end_)%Z eqn:H4;
      destruct (end_ <? identifier)%Z eqn:H5;
      destruct (identifier <=? start)%Z eqn:H6;
      destruct (start <=? identifier)%Z eqn:H7;
      destruct (identifier <? end_)%Z eqn:H8;
      destruct (end_ <=? identifier)%Z eqn:H9;
      destruct (identifier <? start)%Z eqn:H10;
      rewrite ?Z.ltb_lt, ?Z.ltb_ge, ?Z.leb_le, ?Z.leb_gt in *;
      try (exfalso; lia);
      simpl; (split; [reflexivity|]); (split; [reflexivity|]);
      intros; try reflexivity; exfalso; lia.
Qed.

(** X19: asking [get_n_successors] for at least as many nodes as are known
    returns every known node exactly once: the result is the sorted node list
    rotated to start at the responsible node. *)
Theorem get_n_successors_all_nodes (self : FingerTable) (id n : Z) :
  all_nodes self ≠ [] →
  sorted_by_id (all_nodes self) →
  (Z.of_nat (length (all_nodes self)) ≤ n)%Z →
  ∃ result start,
    get_n_successors self id n = Some result
    ∧ result = drop start (all_nodes self) ++ take start (all_nodes self)
    ∧ start < length (all_nodes self)
    ∧ result ≡ₚ all_nodes self
    ∧ head result = find_successor_from_all self id.
Proof.
  intros Hne Hsorted Hn.
  assert (0 < length (all_nodes self)) as Hpos.
  { destruct (all_nodes self); simpl; [done|lia]. }
  destruct (get_n_successors_walk self id n Hne ltac:(lia) Hsorted)
    as (responsible & start & Hresp & Hstart & ->).
  rewrite Nat.min_r by lia.
  destruct (walk_spec (all_nodes self) start (length (all_nodes self)) Hne)
    as (result & Hwalk & Hlen & Hlookup).
  assert (start < length (all_nodes self)) as Hlt.
  { apply lookup_lt_is_Some. eauto. }
  assert (result = drop start (all_nodes self) ++ take start (all_nodes self))
    as Hrot.
  { apply list_eq. intros i.
    destruct (decide (i < length (all_nodes self))) as [Hi|Hi].
    - rewrite Hlookup by done.
      destruct (decide (i < length (all_nodes self) - start)) as [Hl|Hr].
      + rewrite lookup_app_l by (rewrite length_drop; lia).
        rewrite lookup_drop. f_equal. apply Nat.mod_small. lia.
      + rewrite lookup_app_r by (rewrite length_drop; lia).
        rewrite length_drop, lookup_take_lt by lia. f_equal.
        replace (start + i)
          with ((i - (length (all_nodes self) - start))
                + 1 * length (all_nodes self)) by lia.
        rewrite Nat.Div0.mod_add. apply Nat.mod_small. lia.
    - rewrite !lookup_ge_None_2; [done| |lia].
      rewrite length_app, length_drop, length_take. lia. }
  exists result, start. split; [done|]. split; [done|]. split; [done|]. split.
  - rewrite Hrot, Permutation_app_comm. by rewrite take_drop.
  - rewrite Hresp, head_lookup, Hlookup by lia.
    by rewrite Nat.add_0_r, Nat.mod_small.
Qed.

(** On the ring of nodes 10, 30 and 50 the replicas of identifier 40, when
    five are asked for, are 50, 10 and 30. *)
Lemma get_n_successors_all_nodes_witness :
  let nodes := [mkNodeInfo 10 "a"; mkNodeInfo 30 "b"; mkNodeInfo 50 "c"] in
  let ft := mkFingerTable 10 6 [] nodes in
  get_n_successors ft 40 5
  = Some [mkNodeInfo 50 "c"; mkNodeInfo 10 "a"; mkNodeInfo 30 "b"].
Proof.
  intros nodes ft.
  destruct (get_n_successors_all_nodes ft 40 5) as (result & start & Hget & _);
    [done | repeat constructor; simpl; lia | simpl; lia |].
  rewrite Hget. revert Hget. vm_compute. by intros [= <-].
Defined.

(** X20: responsibility on a sorted ring view.  Every known node is
    responsible for its own id; an identifier strictly after a node [p] and
    up to the next node [n] belongs to [n]; and identifiers up to the first
    node's id, or after every known id, belong to the first node. *)
Theorem find_successor_from_all_responsibility (self : FingerTable) :
  sorted_by_id (all_nodes self) →
  (∀ n, n ∈ all_nodes self → find_successor_from_all self (node_id n) = Some n)
  ∧ (∀ before p n after id,
       all_nodes self = before ++ p :: n :: after →
       (node_id p < id ≤ node_id n)%Z →
       find_successor_from_all self id = Some n)
  ∧ (∀ first rest id,
       all_nodes self = first :: rest →
       (id ≤ node_id first)%Z ∨ Forall (λ y, (node_id y < id)%Z) (first :: rest) →
       find_successor_from_all self id = Some first).
Proof.
  intros Hsorted. split; [|split].
  - intros n Hn. apply list_elem_of_split in Hn as (before & after & Hall).
    apply (find_successor_from_all_split self before n after); [done| |lia].
    rewrite Hall in Hsorted.
    apply Forall_forall. intros y Hy.
    apply (StronglySorted_app_1_elem_of _ _ _ y n Hsorted Hy). by left.
  - intros before p n after id Hall Hid.
    apply (find_successor_from_all_split self (before ++ [p]) n after).
    + by rewrite <- app_assoc.
    + rewrite Hall in Hsorted. apply Forall_app. split.
      * apply Forall_forall. intros y Hy.
        pose proof (StronglySorted_app_1_elem_of _ _ _ y p Hsorted Hy
                      ltac:(by left)). simpl in *. lia.
      * constructor; [lia|constructor].
    + lia.
  - intros first rest id Hall [Hid|Hwrap].
    + by apply (find_successor_from_all_split self [] first rest).
    + unfold find_successor_from_all. rewrite Hall.
      assert (first_at_or_after (first :: rest) id = None) as ->; [|done].
      clear Hall. induction Hwrap as [|y l Hy _ IH]; simpl; [done|].
      by rewrite (proj2 (Z.leb_gt _ _)) by lia.
Qed.

(** On the ring of nodes 10, 30 and 50: node 30 owns identifiers 30 and 11,
    and identifier 55 wraps to node 10. *)
Lemma find_successor_from_all_responsibility_witness :
  let nodes := [mkNodeInfo 10 "a"; mkNodeInfo 30 "b"; mkNodeInfo 50 "c"] in
  let ft := mkFingerTable 10 6 [] nodes in
  find_successor_from_all ft 30 = Some (mkNodeInfo 30 "b")
  ∧ find_successor_from_all ft 11 = Some (mkNodeInfo 30 "b")
  ∧ find_successor_from_all ft 55 = Some (mkNodeInfo 10 "a").
Proof.
  intros nodes ft.
  destruct (find_successor_from_all_responsibility ft) as (Hown & Hnext & Hfirst);
    [repeat constructor; simpl; lia|].
  split; [|split].
  - apply (Hown (mkNodeInfo 30 "b")). right. by left.
  - apply (Hnext [] (mkNodeInfo 10 "a") (mkNodeInfo 30 "b") [mkNodeInfo 50 "c"]);
      [done|simpl; lia].
  - apply (Hfirst (mkNodeInfo 10 "a") [mkNodeInfo 30 "b"; mkNodeInfo 50 "c"]);
      [done|]. right. repeat constructor; simpl; lia.
Defined.

End RoutingOpsProperties.

(** ** The quorum operations and the replication manager *)

Section QuorumOpsFacts.
Import VC Routing Quorum QuorumOps.

Lemma acknowledged_lookup replicas results replica :
  replica ∈ acknowledged replicas results →
  ∃ i, replicas !! i = Some replica ∧ results !! i = Some (PutReturned true).
Proof.
  revert results. induction replicas as [|r replicas IH]; intros [|res results];
    simpl; try by intros ?%elem_of_nil.
  intros Hin.
  assert (replica ∈ acknowledged replicas results
          ∨ (replica = r ∧ res = PutReturned true)) as [H|[-> ->]].
  { destruct res as [|[|]]; [by left| |by left].
    apply elem_of_cons in Hin as [->|?]; [by right|by left]. }
  - destruct (IH _ H) as (i & ? & ?). by exists (S i).
  - by exists 0.
Qed.

Lemma acknowledged_sublist replicas results :
  sublist (acknowledged replicas results) replicas.
Proof.
  revert results. induction replicas as [|r replicas IH]; intros [|res results];
    simpl; try apply sublist_nil_l.
  destruct res as [|[|]].
  - by apply sublist_cons.
  - by apply sublist_skip.
  - by apply sublist_cons.
Qed.

Lemma replicate_put_acknowledged replicas results :
  replicate_put replicas results = acknowledged replicas results.
Proof. by destruct replicas, results. Qed.

Lemma collected_lookup replicas results (read : Read) :
  read ∈ collected replicas results →
  ∃ i, replicas !! i = Some read.1.1
       ∧ results !! i = Some (GetReturned read.1.2 read.2).
Proof.
  revert results. induction replicas as [|r replicas IH]; intros [|res results];
    simpl; try by intros ?%elem_of_nil.
  intros Hin.
  assert (read ∈ collected replicas results
          ∨ (∃ value version, res = GetReturned value version
                              ∧ read = (r, value, version))) as [H|H].
  { destruct res as [| |value version]; [by left|by left|].
    apply elem_of_cons in Hin as [->|?]; [right; eauto|by left]. }
  - destruct (IH _ H) as (i & ? & ?). by exists (S i).
  - destruct H as (value & version & -> & ->). by exists 0.
Qed.

Lemma replicate_get_collected replicas results :
  replicate_get replicas results = collected replicas results.
Proof. by destruct replicas, results. Qed.

(** The value that the loop of [quorum_get] ends with: the one it started
    with when no read has the latest version, else the value of such a
    read. *)
Lemma classify_value (reads : list Read) latest value stale :
  ((classify reads latest value stale).1 = value
   ∧ ∀ read, read ∈ reads → vc_eq read.2 latest = false)
  ∨ (∃ read, read ∈ reads ∧ vc_eq read.2 latest = true
             ∧ (classify reads latest value stale).1 = Some read.1.2).
Proof.
  revert value stale.
  induction reads as [|[[node v] version] reads IH]; intros value stale.
  - left. split; [done|]. by intros ? ?%elem_of_nil.
  - simpl. destruct (vc_eq version latest) eqn:Heq.
    + right. destruct (IH (Some v) stale) as [[-> Hall]|(read & ? & ? & ->)].
      * exists (node, v, version). split_and!; [by left|done|done].
      * exists read. split_and!; [by right|done|done].
    + destruct (IH value (stale ++ [node])) as [[-> Hall]|(read & ? & ? & ->)].
      * left. split; [done|]. intros read [->|?]%elem_of_cons; [done|by apply Hall].
      * right. exists read. split_and!; [by right|done|done].
Qed.

End QuorumOpsFacts.

Section QuorumOpsProperties.
Import VC Routing Quorum QuorumOps.

(** X21: [get_latest_version] is sound: a clock it returns is one of the
    list, every clock of the list is that clock or happens before it, and it
    happens before none of them. *)
Theorem get_latest_version_is_maximum (versions : list VectorClock)
    (c : VectorClock) :
  get_latest_version versions = Some c →
  c ∈ versions
  ∧ (∀ v, v ∈ versions → v = c ∨ happens_before v c = true)
  ∧ (∀ v, v ∈ versions → happens_before c v = false).
Proof.
  intros H. destruct (get_latest_version_Some versions c H) as [Hin Hmax].
  split_and!; [done|done|].
  intros v Hv. destruct (Hmax v Hv) as [->|Hvc].
  - apply happens_before_irrefl.
  - destruct (happens_before c v) eqn:Hcv; [|done].
    pose proof (happens_before_asym v c Hvc). congruence.
Qed.

(** Of {1: 1}, {1: 2} and {1: 2, 2: 1} the last one is returned. *)
Lemma get_latest_version_is_maximum_witness :
  let versions := [mkVC {[1%Z := 1]}; mkVC {[1%Z := 2]};
                   mkVC (<[1%Z := 2]> {[2%Z := 1]})] in
  let c := mkVC (<[1%Z := 2]> {[2%Z := 1]}) in
  c ∈ versions
  ∧ (∀ v, v ∈ versions → v = c ∨ happens_before v c = true)
  ∧ (∀ v, v ∈ versions → happens_before c v = false).
Proof.
  apply get_latest_version_is_maximum. vm_compute. reflexivity.
Defined.

(** X22: [quorum_put] hands the version back as it got it, on every path.
    It reports success exactly when the replica list is not empty, the
    replies arrived in time and at least [W] replicas were acknowledged; the
    acknowledged replicas are given replicas, in their order, each of which
    answered with a true flag, so there is no success with fewer than [W]
    replicas. *)
Theorem quorum_put_success (self : QuorumManager) (version : VectorClock)
    (replicas : list NodeInfo) (gathered : PutGathered) :
  (quorum_put self version replicas gathered).2 = version
  ∧ ((quorum_put self version replicas gathered).1 = true
     ↔ replicas ≠ []
       ∧ ∃ results,
           gathered = PutResults results
           ∧ (write_quorum self
              ≤ Z.of_nat (length (replicate_put replicas results)))%Z)
  ∧ (∀ results,
       sublist (replicate_put replicas results) replicas
       ∧ ∀ replica, replica ∈ replicate_put replicas results →
           ∃ i, replicas !! i = Some replica
                ∧ results !! i = Some (PutReturned true))
  ∧ ((quorum_put self version replicas gathered).1 = true →
     (write_quorum self ≤ Z.of_nat (length replicas))%Z).
Proof.
  assert (∀ results,
            sublist (replicate_put replicas results) replicas
            ∧ ∀ replica, replica ∈ replicate_put replicas results →
                ∃ i, replicas !! i = Some replica
                     ∧ results !! i = Some (PutReturned true)) as Hacks.
  { intros results. rewrite replicate_put_acknowledged.
    split; [apply acknowledged_sublist|]. intros replica.
    apply acknowledged_lookup. }
  assert ((quorum_put self version replicas gathered).1 = true
          ↔ replicas ≠ []
            ∧ ∃ results,
                gathered = PutResults results
                ∧ (write_quorum self
                   ≤ Z.of_nat (length (replicate_put replicas results)))%Z)
    as Hiff.
  { unfold quorum_put. destruct replicas as [|r replicas].
    { simpl. split; [done|]. by intros [? _]. }
    destruct gathered as [|results]; cbn [fst].
    - split; [done|]. by intros (_ & ? & ? & _).
    - rewrite Z.leb_le. split.
      + intros Hle. split; [done|]. by exists results.
      + by intros (_ & ? & [= <-] & Hle). }
  split_and!; [|done|done|].
  - unfold quorum_put. destruct replicas; [done|]. by destruct gathered.
  - intros (_ & results & _ & Hle)%Hiff.
    destruct (Hacks results) as [Hsub%sublist_length _]. lia.
Qed.

(** With W = 2, three replicas and the answers true, exception, true, the
    write succeeds; with the answers true, false, exception it does not. *)
Lemma quorum_put_success_witness :
  let self := mkQuorum 1 3 2 2 true in
  let version := mkVC {[1%Z := 1]} in
  let replicas := [mkNodeInfo 10 "a"; mkNodeInfo 20 "b"; mkNodeInfo 30 "c"] in
  quorum_put self version replicas
    (PutResults [PutReturned true; PutFailed; PutReturned true])
  = (true, version)
  ∧ quorum_put self version replicas
      (PutResults [PutReturned true; PutReturned false; PutFailed])
    = (false, version)
  ∧ quorum_put self version replicas PutTimedOut = (false, version)
  ∧ (write_quorum self ≤ Z.of_nat (length replicas))%Z.
Proof.
  intros self version replicas. split_and!; try (vm_compute; reflexivity).
  apply (quorum_put_success self version replicas
           (PutResults [PutReturned true; PutFailed; PutReturned true])).
  vm_compute. reflexivity.
Defined.

(** X23: [update_quorum_config] assigns the new quorums before it validates
    them and does not restore the old ones: also when the call raises, the
    manager holds the values it was given.  The call returns without raising
    exactly when both quorums lie between 1 and [N]. *)
Theorem update_quorum_config_keeps_rejected (self : QuorumManager)
    (r w : option Z) :
  let self' := (update_quorum_config self r w).1 in
  read_quorum self' = default (read_quorum self) r
  ∧ write_quorum self' = default (write_quorum self) w
  ∧ n_replicas self' = n_replicas self
  ∧ ((update_quorum_config self r w).2 = Valid
     ↔ (1 ≤ read_quorum self' ≤ n_replicas self)%Z
       ∧ (1 ≤ write_quorum self' ≤ n_replicas self)%Z).
Proof.
  unfold update_quorum_config. cbn [fst snd].
  set (self' := match w with Some _ => _ | None => _ end).
  assert (read_quorum self' = default (read_quorum self) r
          ∧ write_quorum self' = default (write_quorum self) w
          ∧ n_replicas self' = n_replicas self) as (Hr & Hw & Hn).
  { subst self'. by destruct r, w. }
  split_and!; [done..|].
  unfold _validate_quorum. rewrite Hn.
  destruct (read_quorum self' <? 1)%Z eqn:E1;
    destruct (n_replicas self <? read_quorum self')%Z eqn:E2;
    destruct (write_quorum self' <? 1)%Z eqn:E3;
    destruct (n_replicas self <? write_quorum self')%Z eqn:E4;
    cbn [orb];
    rewrite ?Z.ltb_lt, ?Z.ltb_ge in *;
    (split; [intros ?; try discriminate; lia | intros ?; try done; lia]).
Qed.

(** X24: What [quorum_get] returns was read: over the reads that
    [replicate_get] collects, the returned value is the value that one of the
    given replicas answered, with a version equal to the returned one; the
    returned version is itself the version of an answer; and at least [R]
    replicas answered with a value. *)
Theorem quorum_get_returns_replica_value (self : QuorumManager) (key : string)
    (replicas : list NodeInfo) (results : list GetResult)
    (value : option JSON) (version : VectorClock) (repair : option Repair) :
  quorum_get self key replicas (Reads (replicate_get replicas results))
  = Got value version repair →
  (∃ i node v version',
      replicas !! i = Some node
      ∧ results !! i = Some (GetReturned v version')
      ∧ vc_eq version' version = true
      ∧ value = Some v)
  ∧ (∃ j v, j < length replicas ∧ results !! j = Some (GetReturned v version))
  ∧ (read_quorum self
     ≤ Z.of_nat (length (replicate_get replicas results)))%Z.
Proof.
  unfold quorum_get. destruct replicas as [|r0 replicas]; [done|].
  set (reads := replicate_get (r0 :: replicas) results).
  destruct (Z.of_nat (length reads) <? read_quorum self)%Z eqn:Hq; [done|].
  apply Z.ltb_ge in Hq.
  set (versions := (λ r : Read, r.2) <$> reads).
  assert (∀ c, match get_latest_version versions with
               | Some v => Some v
               | None => head versions
               end = Some c → c ∈ versions) as Hlatest.
  { intros c. destruct (get_latest_version versions) as [v|] eqn:Hl.
    - intros [= ->]. by apply get_latest_version_Some in Hl as [? _].
    - destruct versions; [done|]. intros [= ->]. by left. }
  destruct (match get_latest_version versions with
            | Some v => Some v
            | None => head versions
            end) as [latest|]; [|done].
  specialize (Hlatest latest eq_refl).
  apply list_elem_of_fmap in Hlatest as (read0 & Hv0 & Hin0).
  destruct (classify reads latest None []) as [latest_value stale] eqn:Hc.
  intros [= -> -> _]. 
  pose proof (classify_value reads version None []) as Hval.
  rewrite Hc in Hval. cbn [fst] in Hval.
  subst reads. rewrite replicate_get_collected in *.
  split_and!; [| |done].
  - destruct Hval as [[_ Hall]|(read & Hin & Heq & ->)].
    + specialize (Hall read0 Hin0). rewrite <- Hv0, vc_eq_refl in Hall. done.
    + apply collected_lookup in Hin as (i & Hi & Hres).
      exists i, read.1.1, read.1.2, read.2. done.
  - apply collected_lookup in Hin0 as (j & Hj & Hres).
    exists j, read0.1.2. split; [by eapply lookup_lt_Some|]. by rewrite Hv0.
Qed.

(** With R = 2: the first replica answers 7 at {1: 1}, the second does not
    hold the key, the third answers 8 at {1: 2}; the read returns 8. *)
Lemma quorum_get_returns_replica_value_witness :
  let self := mkQuorum 1 3 2 2 true in
  let replicas := [mkNodeInfo 10 "a"; mkNodeInfo 20 "b"; mkNodeInfo 30 "c"] in
  let results := [GetReturned (JInt 7) (mkVC {[1%Z := 1]}); GetNothing;
                  GetReturned (JInt 8) (mkVC {[1%Z := 2]})] in
  let value := Some (JInt 8) in
  let version := mkVC {[1%Z := 2]} in
  (∃ i node v version',
      replicas !! i = Some node
      ∧ results !! i = Some (GetReturned v version')
      ∧ vc_eq version' version = true
      ∧ value = Some v)
  ∧ (∃ j v, j < length replicas ∧ results !! j = Some (GetReturned v version))
  ∧ (read_quorum self
     ≤ Z.of_nat (length (replicate_get replicas results)))%Z.
Proof.
  intros self replicas results value version.
  apply (quorum_get_returns_replica_value self "k" replicas results value
           version
           (Some (mkRepair "k" value version [mkNodeInfo 10 "a"]))).
  vm_compute. reflexivity.
Defined.

End QuorumOpsProperties.

(** ** The replica handlers and hinted-handoff recovery *)

Section RuntimeOpsFacts.
Import VC Storage StorageOps Message Runtime QuorumOps RuntimeOps Recovery.

Implicit Types (st : ChordStorage) (k : string) (p : Z).

(** Storing the same backup twice is storing it once, for the two stores. *)
Lemma put_backup_twice st k (v : JSON) (ver : VectorClock) p :
  backup_store (put_backup (put_backup st k v ver p).1 k v ver p).1
  = backup_store (put_backup st k v ver p).1.
Proof.
  rewrite !backup_store_put_backup. unfold get_all_backups_for_node.
  rewrite backup_store_put_backup, lookup_insert_eq. simpl.
  by rewrite insert_insert_eq, insert_insert_eq.
Qed.

Lemma lookup_foldl_delete {A} (keys : list string) (bucket : gmap string A) k :
  foldl (λ b key, base.delete key b) bucket keys !! k
  = if decide (k ∈ keys) then None else bucket !! k.
Proof.
  revert bucket. induction keys as [|key keys IH]; intros bucket; cbn [foldl].
  - by rewrite decide_False by apply not_elem_of_nil.
  - rewrite IH. destruct (decide (k ∈ keys)) as [Hin|Hnin].
    + by rewrite decide_True by by right.
    + destruct (decide (k = key)) as [->|Hne].
      * rewrite lookup_delete_eq. by rewrite decide_True by by left.
      * rewrite lookup_delete_ne by done.
        by rewrite decide_False by (intros [?|?]%elem_of_cons; done).
Qed.

(** The loop of [handle_recover_handoff] over [delete_backup]. *)
Lemma delete_backup_loop (keys : list string) st p :
  let st' := foldl (λ st key, (delete_backup st key p).1) st keys in
  primary_store st' = primary_store st
  ∧ Storage.node_id st' = Storage.node_id st
  ∧ enable_persistence st' = enable_persistence st
  ∧ disk st' = disk st
  ∧ backup_store st'
    = match backup_store st !! p with
      | Some bucket =>
          <[p := foldl (λ b key, base.delete key b) bucket keys]>
            (backup_store st)
      | None => backup_store st
      end.
Proof.
  revert st. induction keys as [|key keys IH]; intros st; simpl.
  - split_and!; try done. destruct (backup_store st !! p) eqn:E; [|done].
    by rewrite insert_id.
  - destruct (IH (delete_backup st key p).1) as (Hp & Hn & He & Hd & Hb).
    rewrite Hp, Hn, He, Hd, Hb. clear IH Hp Hn He Hd Hb.
    unfold delete_backup.
    destruct (backup_store st !! p) as [bucket|] eqn:Ep; simpl.
    + destruct (bucket !! key) eqn:Ek; simpl.
      * rewrite lookup_insert_eq. by rewrite insert_insert_eq.
      * rewrite Ep. by rewrite (delete_id bucket key).
    + by rewrite Ep.
Qed.

(** Looking a key up in the [keys] of the reply. *)
Lemma dict_get_handoff_entries (l : list (string * (JSON * VectorClock))) k :
  NoDup l.*1 →
  dict_get (handoff_entry <$> l) k
  = (λ e : JSON * VectorClock,
       JObject [("value", e.1); ("version", JObject (to_dict e.2))])
      <$> (list_to_map l : gmap string (JSON * VectorClock)) !! k.
Proof.
  induction l as [|[key e] l IH]; intros Hnd; simpl; [done|].
  apply NoDup_cons in Hnd as [Hfresh Hnd].
  destruct (decide (key = k)) as [->|Hne].
  - by rewrite lookup_insert_eq.
  - rewrite lookup_insert_ne by done. by apply IH.
Qed.

Lemma frame_restore_step st (item : string * (JSON * VectorClock)) :
  backup_store (restore_step st item).1 = backup_store st
  ∧ enable_persistence (restore_step st item).1 = enable_persistence st
  ∧ write_error (restore_step st item).1 = write_error st.
Proof.
  unfold restore_step. destruct (restore_choice st item) as [[value version]|];
    [|done]. cbn [fst].
  by rewrite backup_store_put, enable_persistence_put, write_error_put.
Qed.

(** The store is changed before the file is written, so what a step does to
    it does not depend on the write. *)
Lemma primary_store_restore_step st (item : string * (JSON * VectorClock)) :
  primary_store (restore_step st item).1
  = match primary_store st !! item.1 with
    | Some existing =>
        if vc_gt item.2.2 existing.2 then
          <[item.1 := item.2]> (primary_store st)
        else if concurrent_with item.2.2 existing.2 then
          <[item.1 := (item.2.1, update (copy existing.2) item.2.2)]>
            (primary_store st)
        else primary_store st
    | None => <[item.1 := item.2]> (primary_store st)
    end.
Proof.
  destruct item as [key [value version]].
  unfold restore_step, restore_choice, Storage.get. cbn [fst snd].
  destruct (primary_store st !! key) as [[? existing]|]; cbn [snd];
    repeat case_match; simplify_eq; cbn [fst]; by rewrite ?primary_store_put.
Qed.

Lemma restore_step_writable st (item : string * (JSON * VectorClock)) :
  primary_writable st item.1 → (restore_step st item).2 = None.
Proof.
  intros Hw. unfold restore_step.
  destruct (restore_choice st item) as [[value version]|]; [|done].
  cbn [snd]. by apply put_raises_writable.
Qed.

Lemma primary_store_restore_step_ne st (item : string * (JSON * VectorClock)) k :
  k ≠ item.1 →
  primary_store (restore_step st item).1 !! k = primary_store st !! k.
Proof.
  intros Hne. rewrite primary_store_restore_step.
  repeat case_match; by rewrite ?lookup_insert_ne.
Qed.

Lemma restore_loop_cons st (item : string * (JSON * VectorClock)) l :
  restore_loop st (item :: l)
  = match (restore_step st item).2 with
    | None => restore_loop (restore_step st item).1 l
    | Some e => ((restore_step st item).1, Some e)
    end.
Proof. cbn [restore_loop]. by destruct (restore_step st item) as [? [?|]]. Qed.

Lemma backup_store_restore_loop (l : list (string * (JSON * VectorClock))) st :
  backup_store (restore_loop st l).1 = backup_store st.
Proof.
  revert st. induction l as [|item l IH]; intros st; [done|].
  rewrite restore_loop_cons. destruct (restore_step st item).2.
  - apply frame_restore_step.
  - rewrite IH. apply frame_restore_step.
Qed.

Lemma restore_loop_writable (l : list (string * (JSON * VectorClock))) st :
  (∀ item, item ∈ l → primary_writable st item.1) →
  (restore_loop st l).2 = None.
Proof.
  revert st. induction l as [|item l IH]; intros st Hw; [done|].
  rewrite restore_loop_cons, restore_step_writable by (apply Hw; by left).
  apply IH. intros item' Hin. unfold primary_writable.
  destruct (frame_restore_step st item) as (_ & -> & ->).
  apply Hw. by right.
Qed.

Lemma primary_store_restore_loop_other
    (l : list (string * (JSON * VectorClock))) st k :
  k ∉ l.*1 →
  primary_store (restore_loop st l).1 !! k = primary_store st !! k.
Proof.
  revert st. induction l as [|item l IH]; intros st Hk; [done|].
  simpl in Hk. apply not_elem_of_cons in Hk as [Hne Hk].
  rewrite restore_loop_cons. destruct (restore_step st item).2.
  - by apply primary_store_restore_step_ne.
  - rewrite IH by done. by apply primary_store_restore_step_ne.
Qed.

(** The entry of a recovered key after the loop, in whatever order the keys
    are taken: what the step for that key stores once the loop has come to
    it, the old entry if an exception ended the loop before. *)
Lemma primary_store_restore_loop_item
    (l : list (string * (JSON * VectorClock))) st k (e : JSON * VectorClock) :
  NoDup l.*1 → (k, e) ∈ l →
  primary_store (restore_loop st l).1 !! k
  = primary_store (restore_step st (k, e)).1 !! k
  ∨ ((restore_loop st l).2 ≠ None
     ∧ primary_store (restore_loop st l).1 !! k = primary_store st !! k).
Proof.
  revert st. induction l as [|item l IH]; intros st Hnd Hin.
  - by apply elem_of_nil in Hin.
  - simpl in Hnd. apply NoDup_cons in Hnd as [Hfresh Hnd].
    rewrite restore_loop_cons.
    apply elem_of_cons in Hin as [<-|Hin].
    + left. destruct (restore_step st (k, e)).2; [done|].
      by rewrite primary_store_restore_loop_other.
    + assert (k ≠ item.1) as Hne.
      { intros ->. apply Hfresh. apply list_elem_of_fmap. by exists (item.1, e). }
      pose proof (primary_store_restore_step_ne st item k Hne) as Hk.
      destruct (restore_step st item).2.
      * right. done.
      * destruct (IH (restore_step st item).1 Hnd Hin) as [H|[Hr H]].
        -- left. rewrite H.
           rewrite !(primary_store_restore_step _ (k, e)). cbn [fst snd].
           rewrite Hk.
           destruct (primary_store st !! k) as [existing|] eqn:Ek;
             repeat case_match; rewrite ?lookup_insert_eq, ?Hk; done.
        -- right. split; [done|]. by rewrite H.
Qed.

End RuntimeOpsFacts.

Section RuntimeOpsProperties.
Import VC Storage StorageOps Message Runtime QuorumOps RuntimeOps Recovery.

(** X25: what a PUT_REPLICA request as [_send_put_replica] builds it does
    to a replica, whether or not the replica's file write raises.  The value
    is stored, and delivering the request again is not idempotent: the value
    is stored anew under the version of the first delivery with the replica's
    own counter raised by one.  A delivery is acknowledged exactly when the
    file write of [put_backup] did not raise, so both are whenever the backup
    file of the key can be written; a delivery that is not acknowledged has
    stored its backup all the same. *)
Theorem put_replica_redelivery_advances (node : ChordNode) (sender : Z)
    (addr id k : string) (value : JSON) (V : VectorClock) (p : Z) :
  let msg := put_replica_msg sender addr id k value V p in
  let first := handle_put_replica node msg in
  let second := handle_put_replica first.1 msg in
  ∃ W1 W2,
    get_backup (storage first.1) k p = Some (value, W1)
    ∧ get_backup (storage second.1) k p = Some (value, W2)
    ∧ happens_before V W1 = true
    ∧ happens_before W1 W2 = true
    ∧ (∀ i, VC.get W2 i
            = if decide (i = Runtime.node_id node) then S (VC.get W1 i)
              else VC.get W1 i)
    ∧ (put_acknowledged (Some first.2) = true
       ↔ put_backup_raises (storage node) k value W1 p = None)
    ∧ (put_acknowledged (Some second.2) = true
       ↔ put_backup_raises (storage first.1) k value W2 p = None)
    ∧ (backup_writable (storage node) k p →
       put_acknowledged (Some first.2) = true
       ∧ put_acknowledged (Some second.2) = true).
Proof.
  intros msg first second.
  assert (∀ nd, put_replica_try nd msg
                = Ok (k, value,
                      increment
                        match get_backup (storage nd) k p with
                        | Some (_, existing_version) =>
                            update (copy existing_version) V
                        | None => copy V
                        end (Runtime.node_id nd), p)) as Hok.
  { intros nd.
    apply (put_replica_try_ok nd msg k value (to_dict V) V p);
      [reflexivity..|apply from_dict_to_dict|reflexivity]. }
  assert (∀ nd W, put_replica_try nd msg = Ok (k, value, W, p) →
            (put_acknowledged (Some (handle_put_replica nd msg).2) = true
             ↔ put_backup_raises (storage nd) k value W p = None)) as Hack.
  { intros nd W Htry. unfold handle_put_replica. rewrite Htry.
    destruct (put_backup_raises (storage nd) k value W p); cbn [snd];
      split; done. }
  set (W1 := increment
               match get_backup (storage node) k p with
               | Some (_, existing_version) => update (copy existing_version) V
               | None => copy V
               end (Runtime.node_id node)).
  assert (first.1 = mkNode (Runtime.node_id node) (address node)
                      (put_backup (storage node) k value W1 p).1) as Hfirst.
  { subst first. apply storage_handle_put_replica, Hok. }
  assert (get_backup (storage first.1) k p = Some (value, W1)) as Hget1.
  { rewrite Hfirst. cbn [storage].
    by rewrite get_backup_put_backup, decide_True. }
  set (W2 := increment (update (copy W1) V) (Runtime.node_id node)).
  assert (put_replica_try first.1 msg = Ok (k, value, W2, p)) as Htry2.
  { rewrite Hok, Hget1. subst W2. by rewrite Hfirst. }
  assert (get_backup (storage second.1) k p = Some (value, W2)) as Hget2.
  { subst second. rewrite (storage_handle_put_replica _ _ _ _ _ _ Htry2).
    cbn [storage]. by rewrite get_backup_put_backup, decide_True. }
  assert (∀ i, VC.get V i ≤ VC.get W1 i) as HV.
  { intros i. subst W1. rewrite get_increment.
    destruct (get_backup (storage node) k p) as [[? existing]|];
      rewrite ?get_update, ?get_copy; destruct (decide (i = _)); subst; lia. }
  assert (∀ i, VC.get W2 i
               = if decide (i = Runtime.node_id node) then S (VC.get W1 i)
                 else VC.get W1 i) as HW2.
  { intros i. subst W2. rewrite get_increment, !get_update, !get_copy.
    pose proof (HV i). pose proof (HV (Runtime.node_id node)).
    destruct (decide (i = _)); subst; lia. }
  exists W1, W2. split_and!; [done|done| | |done| | |].
  - apply happens_before_spec. split; [done|].
    exists (Runtime.node_id node). subst W1. rewrite get_increment.
    rewrite decide_True by done.
    destruct (get_backup (storage node) k p) as [[? existing]|];
      rewrite ?get_update, ?get_copy; lia.
  - apply happens_before_spec. split.
    + intros i. rewrite HW2. destruct (decide (i = _)); lia.
    + exists (Runtime.node_id node). rewrite HW2, decide_True by done. lia.
  - apply Hack, Hok.
  - by apply Hack.
  - intros Hw. split.
    + apply (Hack node W1 (Hok node)). by apply put_backup_raises_writable.
    + apply (Hack first.1 W2 Htry2). apply put_backup_raises_writable.
      rewrite Hfirst. cbn [storage]. by apply backup_writable_put_backup.
Qed.

(** X26: a malformed PUT_REPLICA request is refused before anything is
    stored.  When the request carries no string under "key", or nothing
    under "value", or no object under "version", the handler leaves the node
    as it was and answers with status "error" and the text of the exception,
    which [_send_put_replica] does not count as an acknowledgement; a request
    without "key" is answered with the text of that [KeyError]. *)
Theorem put_replica_malformed_refused (node : ChordNode) (msg : Message) :
  (∀ s, dict_get (data msg) "key" ≠ Some (JStr s))
  ∨ dict_get (data msg) "value" = None
  ∨ (∀ o, dict_get (data msg) "version" ≠ Some (JObject o)) →
  ∃ e,
    handle_put_replica node msg
    = (node,
       create_reply_msg (Runtime.node_id node) (address node) PUT_REPLICA_REPLY
         [("status", JStr "error"); ("error", JStr (exn_text e))] (msg_id msg))
    ∧ put_acknowledged (Some (handle_put_replica node msg).2) = false
    ∧ (dict_get (data msg) "key" = None → e = KeyError "key").
Proof.
  intros Hbad.
  assert (∃ e, put_replica_try node msg = Raise e
               ∧ (dict_get (data msg) "key" = None → e = KeyError "key"))
    as (e & Htry & He).
  { unfold put_replica_try, item.
    destruct (dict_get (data msg) "key") as [key|] eqn:Hk;
      [|by eexists].
    destruct (dict_get (data msg) "value") as [v|] eqn:Hv;
      [|by eexists].
    destruct (dict_get (data msg) "version") as [version_dict|] eqn:Hver;
      [|by eexists].
    cbn [result_bind].
    destruct key as [| | |s| |]; try by eexists.
    cbn [result_bind encodable].
    destruct version_dict as [| | | | |o]; try by eexists.
    destruct Hbad as [H|[H|H]]; [by destruct (H s)|done|by destruct (H o)]. }
  exists e. unfold handle_put_replica. rewrite Htry. cbn [snd].
  split_and!; done.
Qed.

(** A request that carries a value and a version but no key. *)
Lemma put_replica_malformed_refused_witness :
  let node := mkNode 62 "localhost:5002" (Storage.init 62 writable true) in
  let msg :=
    mkMessage PUT_REPLICA 50 "localhost:5001" "m1"
      [("value", JStr "v"); ("version", JObject [])] in
  ∃ e,
    handle_put_replica node msg
    = (node,
       create_reply_msg (Runtime.node_id node) (address node) PUT_REPLICA_REPLY
         [("status", JStr "error"); ("error", JStr (exn_text e))] (msg_id msg))
    ∧ put_acknowledged (Some (handle_put_replica node msg).2) = false
    ∧ (dict_get (data msg) "key" = None → e = KeyError "key").
Proof.
  intros node msg. apply (put_replica_malformed_refused node msg).
  left. intros s. vm_compute. discriminate.
Defined.

(** X27: the UPDATE_BACKUP handler stores what it is sent.  For the request
    that a recovering node builds for a key, the replica holds afterwards the
    value with exactly the version that was sent, in the bucket of the
    sender, its primary store untouched; the reply says "ok" exactly when
    the file write of [put_backup] did not raise, so whenever the backup file
    of the key can be written; and handling the same request once more
    changes neither store. *)
Theorem update_backup_stores_verbatim (node : ChordNode) (sender : Z)
    (addr id k : string) (value : JSON) (V : VectorClock) :
  let msg := update_backup_msg sender addr id k value V in
  ∃ node1 reply1,
    handle_update_backup node msg = Some (node1, reply1)
    ∧ msg_type reply1 = UPDATE_BACKUP_ACK
    ∧ get_backup (storage node1) k sender = Some (value, V)
    ∧ primary_store (storage node1) = primary_store (storage node)
    ∧ (dict_get (data reply1) "status" = Some (JStr "ok")
       ↔ put_backup_raises (storage node) k value V sender = None)
    ∧ (backup_writable (storage node) k sender →
       dict_get (data reply1) "status" = Some (JStr "ok"))
    ∧ ∃ node2 reply2,
        handle_update_backup node1 msg = Some (node2, reply2)
        ∧ backup_store (storage node2) = backup_store (storage node1)
        ∧ primary_store (storage node2) = primary_store (storage node1).
Proof.
  intros msg.
  assert (∀ nd, update_backup_try nd msg
                = Some (mkNode (Runtime.node_id nd) (address nd)
                          (put_backup (storage nd) k value V sender).1,
                        match put_backup_raises (storage nd) k value V sender with
                        | Some e => Raise e
                        | None => Ok ()
                        end)) as Htry.
  { intros nd. unfold update_backup_try, item. subst msg.
    cbn [update_backup_msg data dict_get]. rewrite !decide_True by done.
    repeat (rewrite decide_False by done; try rewrite decide_True by done).
    cbn [result_bind version_of_json default from_option].
    rewrite from_dict_to_dict. cbn [result_bind]. reflexivity. }
  assert (∀ nd, ∃ reply,
            handle_update_backup nd msg
            = Some (mkNode (Runtime.node_id nd) (address nd)
                      (put_backup (storage nd) k value V sender).1, reply)
            ∧ msg_type reply = UPDATE_BACKUP_ACK
            ∧ (dict_get (data reply) "status" = Some (JStr "ok")
               ↔ put_backup_raises (storage nd) k value V sender = None))
    as Hhandle.
  { intros nd. unfold handle_update_backup. rewrite (Htry nd).
    cbn [mbind option_bind].
    destruct (put_backup_raises (storage nd) k value V sender);
      eexists; (split; [reflexivity|]); split; try reflexivity; split; done. }
  destruct (Hhandle node) as (reply1 & H1 & Htype & Hstatus).
  eexists _, reply1. split; [exact H1|]. cbn [storage].
  split; [done|].
  split; [by rewrite get_backup_put_backup, decide_True|].
  split; [apply primary_store_put_backup|]. split; [done|].
  split; [intros Hw; by apply Hstatus, put_backup_raises_writable|].
  destruct (Hhandle (mkNode (Runtime.node_id node) (address node)
                       (put_backup (storage node) k value V sender).1))
    as (reply2 & H2 & _).
  eexists _, reply2. split; [exact H2|]. cbn [storage].
  split; [apply put_backup_twice|apply primary_store_put_backup].
Qed.

(** X28: The RECOVER_HANDOFF handler hands a bucket over once: for an
    integer requester the reply lists every key held as a backup for it,
    with the value and the serialised version; afterwards the replica holds
    no backup for the requester, its primary store and the other buckets are
    as before, and the same request is answered with no keys. *)
Theorem recover_handoff_hands_over (node : ChordNode) (msg : Message) (p : Z) :
  default (JInt (sender_id msg)) (dict_get (data msg) "requesting_node_id")
  = JInt p →
  ∃ node1 keys_data,
    handle_recover_handoff node msg
    = Ok (node1,
          create_reply_msg (Runtime.node_id node) (address node)
            RECOVER_HANDOFF_REPLY [("keys", JObject keys_data)] (msg_id msg))
    ∧ (∀ k, dict_get keys_data k
            = (λ e : JSON * VectorClock,
                 JObject [("value", e.1); ("version", JObject (to_dict e.2))])
                <$> get_backup (storage node) k p)
    ∧ (∀ k, get_backup (storage node1) k p = None)
    ∧ (∀ k p', p' ≠ p →
         get_backup (storage node1) k p' = get_backup (storage node) k p')
    ∧ primary_store (storage node1) = primary_store (storage node)
    ∧ handle_recover_handoff node1 msg
      = Ok (node1,
            create_reply_msg (Runtime.node_id node) (address node)
              RECOVER_HANDOFF_REPLY [("keys", JObject [])] (msg_id msg)).
Proof.
  intros Hp. unfold handle_recover_handoff. rewrite Hp.
  cbn [requested_bucket result_bind].
  set (bucket := get_all_backups_for_node (storage node) p).
  set (keys := (map_to_list bucket).*1).
  destruct (delete_backup_loop keys (storage node) p) as (Hprim & _ & _ & _ & Hb).
  set (st' := foldl _ (storage node) keys) in *.
  assert (∀ k, bucket !! k = get_backup (storage node) k p) as Hbucket.
  { intros k. subst bucket. unfold get_all_backups_for_node, get_backup.
    by destruct (backup_store (storage node) !! p). }
  assert (∀ b : gmap string (JSON * VectorClock),
            backup_store (storage node) !! p = Some b →
            foldl (λ b key, base.delete key b) b keys = ∅) as Hempty.
  { intros b Eb. apply map_eq. intros k. rewrite lookup_foldl_delete, lookup_empty.
    destruct (decide (k ∈ keys)) as [|Hnin]; [done|].
    destruct (b !! k) as [e|] eqn:Ek; [|done]. destruct Hnin.
    subst keys bucket. unfold get_all_backups_for_node. rewrite Eb. simpl.
    apply list_elem_of_fmap. exists (k, e). split; [done|].
    by apply elem_of_map_to_list. }
  assert (get_all_backups_for_node st' p = ∅) as Hnone.
  { unfold get_all_backups_for_node. rewrite Hb.
    destruct (backup_store (storage node) !! p) as [b|] eqn:Eb.
    - rewrite lookup_insert_eq. simpl. by apply Hempty.
    - by rewrite Eb. }
  eexists _, _. split; [reflexivity|]. cbn [storage Runtime.node_id address].
  split_and!.
  - intros k. rewrite dict_get_handoff_entries by apply NoDup_fst_map_to_list.
    by rewrite list_to_map_to_list, Hbucket.
  - intros k. unfold get_backup.
    change (default ∅ (backup_store st' !! p) = ∅) in Hnone.
    destruct (backup_store st' !! p) as [b|]; [|done].
    simpl in Hnone. by rewrite Hnone.
  - intros k p' Hne. unfold get_backup. rewrite Hb.
    destruct (backup_store (storage node) !! p) as [b|] eqn:Eb; [|done].
    by rewrite lookup_insert_ne.
  - exact Hprim.
  - rewrite Hnone, map_to_list_empty. reflexivity.
Qed.

(** A replica holding key "a" at {1: 1} for node 5 answers node 5. *)
Lemma recover_handoff_hands_over_witness :
  let node :=
    mkNode 9 "n9"
      (put_backup (Storage.init 9 writable false) "a" (JInt 1) (mkVC {[1%Z := 1]})
         5).1 in
  let msg :=
    mkMessage RECOVER_HANDOFF 5 "n5" "m1" [("requesting_node_id", JInt 5)] in
  ∃ node1 keys_data,
    handle_recover_handoff node msg
    = Ok (node1,
          create_reply_msg (Runtime.node_id node) (address node)
            RECOVER_HANDOFF_REPLY [("keys", JObject keys_data)] (msg_id msg))
    ∧ (∀ k, dict_get keys_data k
            = (λ e : JSON * VectorClock,
                 JObject [("value", e.1); ("version", JObject (to_dict e.2))])
                <$> get_backup (storage node) k 5)
    ∧ (∀ k, get_backup (storage node1) k 5 = None)
    ∧ (∀ k p', p' ≠ 5%Z →
         get_backup (storage node1) k p' = get_backup (storage node) k p')
    ∧ primary_store (storage node1) = primary_store (storage node)
    ∧ handle_recover_handoff node1 msg
      = Ok (node1,
            create_reply_msg (Runtime.node_id node) (address node)
              RECOVER_HANDOFF_REPLY [("keys", JObject [])] (msg_id msg)).
Proof.
  intros node msg. apply (recover_handoff_hands_over node msg 5). reflexivity.
Defined.

(** X29: restoring recovered keys never loses causal history.  When step 3
    of [recover_hinted_handoffs] comes to its end, the primary store holds
    for every recovered key a version that dominates the recovered version
    and the version held before, if any, and a key that was absent has
    exactly the recovered entry; it comes to its end whenever the primary
    files of the recovered keys can be written.  When the exception of a
    file write ends it instead, every recovered key has either such an entry
    or its old one.  Keys that were not recovered, and the backup store, are
    untouched either way. *)
Theorem restore_recovered_dominates (storage : ChordStorage)
    (recovered_keys : gmap string (JSON * VectorClock)) :
  let storage' := (restore_recovered storage recovered_keys).1 in
  let raised := (restore_recovered storage recovered_keys).2 in
  let restored key value version :=
    ∃ value' version',
      Storage.get storage' key = Some (value', version')
      ∧ dominates version' version = true
      ∧ (∀ local, Storage.get storage key = Some local →
           dominates version' local.2 = true)
      ∧ (Storage.get storage key = None →
           value' = value ∧ version' = version) in
  ((∀ key, is_Some (recovered_keys !! key) → primary_writable storage key) →
   raised = None)
  ∧ (raised = None →
     ∀ key value version,
       recovered_keys !! key = Some (value, version) →
       restored key value version)
  ∧ (∀ key value version,
       recovered_keys !! key = Some (value, version) →
       restored key value version
       ∨ (raised ≠ None ∧ Storage.get storage' key = Storage.get storage key))
  ∧ (∀ key, recovered_keys !! key = None →
       Storage.get storage' key = Storage.get storage key)
  ∧ backup_store storage' = backup_store storage.
Proof.
  intros storage' raised restored. subst storage' raised restored.
  unfold restore_recovered, Storage.get.
  assert (∀ key value version,
            recovered_keys !! key = Some (value, version) →
            (∃ value' version',
               primary_store (restore_step storage (key, (value, version))).1
                 !! key = Some (value', version')
               ∧ dominates version' version = true
               ∧ (∀ local, primary_store storage !! key = Some local →
                    dominates version' local.2 = true)
               ∧ (primary_store storage !! key = None →
                    value' = value ∧ version' = version))) as Hstep.
  { intros key value version _.
    rewrite primary_store_restore_step. cbn [fst snd].
    destruct (primary_store storage !! key) as [[lv existing]|] eqn:Ek;
      cbn [snd].
    + unfold vc_gt. destruct (happens_before existing version) eqn:Hgt.
      * rewrite lookup_insert_eq. eexists _, _. split; [reflexivity|].
        split_and!; [apply dominates_spec; lia| |done].
        intros local [= <-]. by apply happens_before_dominates.
      * destruct (concurrent_with version existing) eqn:Hc.
        -- rewrite lookup_insert_eq. eexists _, _. split; [reflexivity|].
           split_and!; [| |done].
           ++ apply dominates_spec. intros i. rewrite get_update, get_copy. lia.
           ++ intros local [= <-]. apply dominates_spec. intros i.
              rewrite get_update, get_copy. simpl. lia.
        -- rewrite Ek. eexists _, _. split; [reflexivity|].
           unfold concurrent_with in Hc. rewrite Hgt in Hc.
           rewrite andb_true_r in Hc. apply negb_false_iff in Hc.
           split_and!; [by apply happens_before_dominates| |done].
           intros local [= <-]. apply dominates_spec. simpl. lia.
    + rewrite lookup_insert_eq. eexists _, _. split; [reflexivity|].
      split_and!; [apply dominates_spec; lia|done|done]. }
  assert (∀ key value version,
            recovered_keys !! key = Some (value, version) →
            primary_store (restore_loop storage (map_to_list recovered_keys)).1
              !! key
            = primary_store (restore_step storage (key, (value, version))).1
                !! key
            ∨ ((restore_loop storage (map_to_list recovered_keys)).2 ≠ None
               ∧ primary_store
                   (restore_loop storage (map_to_list recovered_keys)).1 !! key
                 = primary_store storage !! key)) as Hitem.
  { intros key value version Hin. apply primary_store_restore_loop_item;
      [apply NoDup_fst_map_to_list|by apply elem_of_map_to_list]. }
  split_and!.
  - intros Hw. apply restore_loop_writable.
    intros [key e] Hin%elem_of_map_to_list. apply Hw. simpl. by rewrite Hin.
  - intros Hnone key value version Hin.
    destruct (Hitem key value version Hin) as [H|[H _]]; [|done].
    rewrite H. by apply Hstep.
  - intros key value version Hin.
    destruct (Hitem key value version Hin) as [H|[Hr H]].
    + left. rewrite H. by apply Hstep.
    + right. done.
  - intros key Hnone. apply primary_store_restore_loop_other.
    intros ((k & e) & -> & Hin%elem_of_map_to_list)%list_elem_of_fmap.
    simpl in Hnone. congruence.
  - apply backup_store_restore_loop.
Qed.

End RuntimeOpsProperties.

(** ** The framing of messages on a connection *)

Section FramingFacts.
Import Framing.

Lemma of_N_small (x : N) :
  (x < 256)%N → ∃ b, Strings.Byte.of_N x = Some b ∧ Strings.Byte.to_N b = x.
Proof.
  intros Hx. destruct (Strings.Byte.of_N x) as [b|] eqn:E.
  - exists b. split; [done|]. by apply Strings.Byte.to_of_N.
  - apply Strings.Byte.of_N_None_iff in E. lia.
Qed.

Lemma to_bytes_Some (n : N) :
  (n < 2 ^ 32)%N →
  ∃ b3 b2 b1 b0,
    to_bytes n = Some [b3; b2; b1; b0] ∧ from_bytes [b3; b2; b1; b0] = n.
Proof.
  intros Hn. unfold to_bytes.
  change (2 ^ 32)%N with 4294967296%N in Hn.
  change (2 ^ 24)%N with 16777216%N. change (2 ^ 16)%N with 65536%N.
  change (2 ^ 8)%N with 256%N.
  destruct (of_N_small (n / 16777216)) as (b3 & E3 & H3).
  { apply N.Div0.div_lt_upper_bound. lia. }
  destruct (of_N_small ((n / 65536) mod 256)) as (b2 & E2 & H2).
  { by apply N.mod_lt. }
  destruct (of_N_small ((n / 256) mod 256)) as (b1 & E1 & H1).
  { by apply N.mod_lt. }
  destruct (of_N_small (n mod 256)) as (b0 & E0 & H0).
  { by apply N.mod_lt. }
  exists b3, b2, b1, b0. split.
  - cbn [mapM]. rewrite E3, E2, E1, E0. reflexivity.
  - unfold from_bytes. cbn [foldl]. rewrite H3, H2, H1, H0.
    clear. zify. Z.to_euclidean_division_equations. lia.
Qed.

Lemma to_bytes_None (n : N) : (2 ^ 32 ≤ n)%N → to_bytes n = None.
Proof.
  intros Hn. unfold to_bytes.
  change (2 ^ 32)%N with 4294967296%N in Hn.
  change (2 ^ 24)%N with 16777216%N.
  assert (Strings.Byte.of_N (n / 16777216) = None) as E.
  { apply Strings.Byte.of_N_None_iff.
    assert (256 ≤ n / 16777216)%N; [|lia].
    apply N.div_le_lower_bound; lia. }
  cbn [mapM]. by rewrite E.
Qed.

End FramingFacts.

Section FramingProperties.
Import Framing.

(** X30: The length prefix frames a message faithfully: for a message of
    fewer than 2^32 bytes [_send_message] writes four bytes more than the
    message, the reads of the receiver get the message back out of any
    stream that starts with what was written and leave the rest of the
    stream, and a stream cut short anywhere inside the frame is an
    incomplete read.  For a longer message nothing is written: the length
    does not fit its four bytes. *)
Theorem framing_round_trip (msg_bytes : list Byte.byte) :
  if (N.of_nat (length msg_bytes) <? 2 ^ 32)%N then
    ∃ sent,
      _send_message msg_bytes = Some sent
      ∧ length sent = 4 + length msg_bytes
      ∧ (∀ rest, read_message (sent ++ rest) = Some (msg_bytes, rest))
      ∧ (∀ n, n < length sent → read_message (take n sent) = None)
  else _send_message msg_bytes = None.
Proof.
  destruct (N.of_nat (length msg_bytes) <? 2 ^ 32)%N eqn:Hlen.
  - apply N.ltb_lt in Hlen.
    destruct (to_bytes_Some _ Hlen) as (b3 & b2 & b1 & b0 & Hto & Hfrom).
    unfold _send_message. rewrite Hto. cbn [mbind option_bind].
    eexists. split; [reflexivity|]. split; [done|]. split.
    + intros rest. unfold read_message, readexactly at 2.
      rewrite decide_True by (cbn [app length]; lia).
      cbn [mbind option_bind firstn skipn app]. rewrite ?take_0, ?drop_0, Hfrom, Nat2N.id.
      unfold readexactly. rewrite decide_True by (rewrite length_app; lia).
      by rewrite take_app_length, drop_app_length.
    + intros n Hn. cbn [app length] in Hn. unfold read_message.
      destruct (decide (n < 4)) as [Hshort|Hlong].
      * unfold readexactly. rewrite decide_False; [done|].
        rewrite length_take. cbn [app length]. lia.
      * destruct n as [|[|[|[|n]]]]; try lia.
        unfold readexactly at 2.
        rewrite decide_True by (rewrite length_take; cbn [app length]; lia).
        cbn [mbind option_bind firstn skipn app]. rewrite ?take_0, ?drop_0, Hfrom, Nat2N.id.
        unfold readexactly. rewrite decide_False; [done|].
        rewrite length_take. lia.
  - apply N.ltb_ge in Hlen. unfold _send_message.
    by rewrite to_bytes_None.
Qed.

End FramingProperties.
